(** * KeyScribe: the audio-to-note analysis engine of [src/utils/audioAnalysis.ts]

    A shallow embedding of the analysis functions of [audioAnalysis.ts]
    (note detection, tempo, key and time-signature estimation, the
    filter/sort/merge post-processing and the [analyzeAudio] pipeline),
    followed by the properties proved about them.

    Numbers.  The TypeScript code computes on IEEE doubles.  The embedding
    reads every [number] that carries a physical quantity (samples, times,
    frequencies, energies) as a real number of [Stdlib.Reals], and every
    [number] that the code produces with [Math.round] or [Math.floor] as an
    integer of [Z].  [Math.log2 x] is [ln x / ln 2], [Math.pow(2, y)] is
    [Rpower 2 y], [Math.sqrt] is [sqrt].  Rounding error of double
    arithmetic, NaN and the infinities are outside this model; the one
    place where the code starts from [-Infinity] ([detectKey]) uses
    [option R].  Properties stated over the reals keep a margin from the
    thresholds at which rounding decides.  Where a property turns on the
    rounding itself, the same source lines are taken over the kernel's
    binary64 numbers, in module [Double].

    Exceptions.  A JavaScript computation that may throw returns
    [result A]: [Ok a] or [Throw e].  The browser's audio decoder, the
    [pitchy] pitch detector and the Supabase client are not part of the
    file; they are the fields of the class [Platform]. *)

From Stdlib Require Import Reals Lra Lia ZArith List String Ascii Bool.
From Stdlib Require Import DecimalString Sorted Permutation.
From Stdlib Require PrimFloat FloatOps SpecFloat Uint63.
Import ListNotations.

Open Scope R_scope.

(** ** JavaScript primitives over the reals *)

Module JS.

(** [a < b], [a <= b] as the booleans a JavaScript condition yields. *)
Definition ltb (a b : R) : bool := if Rlt_dec a b then true else false.
Definition leb (a b : R) : bool := if Rle_dec a b then true else false.

(** [Math.floor] and [Math.round] (nearest integer, ties towards plus
    infinity). *)
Definition floor (x : R) : Z := Zfloor x.
Definition round (x : R) : Z := Zfloor (x + / 2).

(** [Math.trunc], which the remainder operator is defined with. *)
Definition trunc (x : R) : Z :=
  if Rle_dec 0 x then Zfloor x else (- Zfloor (- x))%Z.

(** [x % y] on numbers: the remainder has the sign of the dividend. *)
Definition fmod (x y : R) : R := x - y * IZR (trunc (x / y)).

Definition log2 (x : R) : R := ln x / ln 2.
Definition pow2 (y : R) : R := Rpower 2 y.

(** Printing of an integer inside a template literal. *)
Definition string_of_Z (z : Z) : string := NilZero.string_of_int (Z.to_int z).

(** [s.trim() === ''] on the ASCII white space characters. *)
Definition isWhiteSpace (c : ascii) : bool :=
  let n := nat_of_ascii c in
  ((9 <=? n) && (n <=? 13) || (n =? 32))%nat.

Fixpoint isBlank (s : string) : bool :=
  match s with
  | EmptyString => true
  | String c s' => isWhiteSpace c && isBlank s'
  end.

(** [a.slice(i, j)] on an array. *)
Definition slice {A} (a : list A) (i j : nat) : list A := firstn (j - i) (skipn i a).

(** [target.set(source)] on a zero-filled typed array of [len] elements
    (for a [source] of at most [len] elements, as every caller has it). *)
Definition setInto (len : nat) (source : list R) : list R :=
  let copied := firstn len source in
  copied ++ repeat 0 (len - List.length copied).

(** [a.push(x); if (a.length > size) a.shift()]. *)
Definition pushWindow (size : nat) (x : R) (a : list R) : list R :=
  let a' := a ++ [x] in
  if (size <? List.length a')%nat then tl a' else a'.

(** The index values of [for (let i = 0; i <= len - frameSize; i += hopSize)]. *)
Definition frameStarts (len frameSize hopSize : nat) : list nat :=
  if (len <? frameSize)%nat then []
  else map (fun k => (k * hopSize)%nat) (seq 0 ((len - frameSize) / hopSize + 1)).

(** [Array.prototype.sort] with the comparator [(a, b) => key(a) - key(b)]:
    a stable ascending sort. *)
Fixpoint insertBy {A} (key : A -> R) (x : A) (l : list A) : list A :=
  match l with
  | [] => [x]
  | y :: l' => if Rle_dec (key x) (key y) then x :: l else y :: insertBy key x l'
  end.

Definition sortBy {A} (key : A -> R) (l : list A) : list A :=
  fold_right (insertBy key) [] l.

(** Computations that may throw. *)
Inductive result (A : Type) : Type :=
| Ok (a : A)
| Throw (e : string).
Arguments Ok {A} a.
Arguments Throw {A} e.

Definition bind {A B} (m : result A) (k : A -> result B) : result B :=
  match m with
  | Ok a => k a
  | Throw e => Throw e
  end.

(** A loop whose body may throw. *)
Fixpoint forEachM {S A} (body : S -> A -> result S) (l : list A) (s : S) : result S :=
  match l with
  | [] => Ok s
  | a :: l' => bind (body s a) (forEachM body l')
  end.

End JS.

Import JS(result, Ok, Throw).

Notation "x <- m ;; k" := (JS.bind m (fun x => k))
  (at level 61, m at next level, right associativity).
Notation "' p <- m ;; k" := (JS.bind m (fun x => let p := x in k))
  (at level 61, p pattern, m at next level, right associativity).

(** ** Data model *)

(** [interface Note]: pitch name, onset and length in seconds, MIDI
    velocity. *)
Record Note : Type := mkNote {
  pitch : string;
  startTime : R;
  duration : R;
  velocity : Z
}.

(** [interface AudioAnalysisResult]. *)
Record AudioAnalysisResult : Type := mkResult {
  tempo : Z;
  key : string;
  timeSignature : string;
  notes : list Note;
  truncated : bool
}.

(** The Web Audio [AudioBuffer]: planar channel data, [length] sample
    frames per channel, [duration = length / sampleRate]. *)
Module AudioBuffer.
Record t : Type := make {
  sampleRate : R;
  length : nat;
  channels : list (list R)
}.
Definition numberOfChannels (b : t) : nat := List.length (channels b).
Definition getChannelData (b : t) (i : nat) : list R := nth i (channels b) [].
Definition duration (b : t) : R := INR (length b) / sampleRate b.
End AudioBuffer.

(** The collaborators outside the file: [decodeAudioData] stands for the
    creation of the [AudioContext], [File.arrayBuffer] and
    [decodeAudioData]; [Detector] is the state of a [PitchDetector] object
    of [pitchy], [forFloat32Array] creates one and [findPitch] returns
    [[frequency, clarity]] and the object's next state; [storeAnalysis]
    stands for the Supabase calls. *)
Class Platform : Type := {
  File : Type;
  fileName : File -> string;
  decodeAudioData : File -> result AudioBuffer.t;
  Detector : Type;
  forFloat32Array : nat -> Detector;
  findPitch : Detector -> list R -> R -> result (R * R * Detector);
  storeAnalysis : AudioAnalysisResult -> string -> result unit
}.

Definition NOTE_NAMES : list string :=
  ["C"; "C#"; "D"; "D#"; "E"; "F"; "F#"; "G"; "G#"; "A"; "A#"; "B"]%string.
Definition MAX_DURATION_SECONDS : R := 60.
Definition MIN_NOTE_DURATION_SECONDS : R := 12 / 100.

Definition majorProfile : list R :=
  [635/100; 223/100; 348/100; 233/100; 438/100; 409/100;
   252/100; 519/100; 239/100; 366/100; 229/100; 288/100].
Definition minorProfile : list R :=
  [633/100; 268/100; 352/100; 538/100; 260/100; 353/100;
   254/100; 475/100; 398/100; 269/100; 334/100; 317/100].

Definition normalizeProfile (profile : list R) : list R :=
  let sum := fold_left (fun acc val => acc + val) profile 0 in
  map (fun val => if Req_dec_T sum 0 then 0 else val / sum) profile.

Definition normalizedMajorProfile : list R := normalizeProfile majorProfile.
Definition normalizedMinorProfile : list R := normalizeProfile minorProfile.

(** [NOTE_NAMES[i]] inside a template literal. *)
Definition nameAt (i : nat) : string := nth i NOTE_NAMES "undefined"%string.

(** ** SignalUtil: [calculateRMS], [median] *)

Definition calculateRMS (buffer : list R) : R :=
  let sumOfSquares := fold_left (fun acc x => acc + x * x) buffer 0 in
  sqrt (sumOfSquares / INR (if (List.length buffer =? 0)%nat then 1 else List.length buffer)).

Definition median (values : list R) : R :=
  if (List.length values =? 0)%nat then 0
  else
    let sorted := JS.sortBy (fun v => v) values in
    let mid := (List.length sorted / 2)%nat in
    if negb (List.length sorted mod 2 =? 0)%nat then nth mid sorted 0
    else (nth (mid - 1) sorted 0 + nth mid sorted 0) / 2.

(** ** PitchNamer: [frequencyToNoteName] *)

Definition frequencyToNoteName (frequency : R) : string :=
  if Req_dec_T frequency 0 then ""%string
  else if Rle_dec frequency 10 then ""%string
  else
    let midiNumber := 12 * JS.log2 (frequency / 440) + 69 in
    let roundedMidi := JS.round midiNumber in
    if ((roundedMidi <? 21) || (108 <? roundedMidi))%Z then ""%string
    else
      let octave := (roundedMidi / 12 - 1)%Z in
      let noteIndex := Z.rem roundedMidi 12 in
      let centsDeviation :=
        1200 * JS.log2 (frequency / (440 * JS.pow2 (IZR (roundedMidi - 69) / 12))) in
      if Rlt_dec 50 (Rabs centsDeviation) then ""%string
      else (nameAt (Z.to_nat noteIndex) ++ JS.string_of_Z octave)%string.

(** ** The synthetic placeholder notes and the buffer helpers *)

Definition syntheticPitches : list string :=
  ["C4"; "D4"; "E4"; "F4"; "G4"; "A4"; "B4"; "C5"]%string.

Definition createSyntheticNotes (duration : R) : list Note :=
  let noteDuration := 5 / 10 in
  let noteCount := Z.max 8 (JS.floor (duration / noteDuration)) in
  map (fun i : nat =>
         mkNote (nth (i mod List.length syntheticPitches) syntheticPitches "undefined"%string)
                (INR i * noteDuration)
                (noteDuration * (9 / 10))
                80)
      (seq 0 (Z.to_nat noteCount)).

(** [context.createBuffer] refuses an empty buffer; the new channels start
    zero-filled and receive the first [newLength] samples of the old ones. *)
Definition truncateAudioBuffer (buffer : AudioBuffer.t) (duration : R)
  : result AudioBuffer.t :=
  let numberOfChannels := AudioBuffer.numberOfChannels buffer in
  let sampleRate := AudioBuffer.sampleRate buffer in
  let newLength := JS.floor (duration * sampleRate) in
  if ((newLength <=? 0)%Z || (numberOfChannels =? 0)%nat)%bool
  then Throw "NotSupportedError"%string
  else
    let n := Z.to_nat newLength in
    Ok (AudioBuffer.make sampleRate n
          (map (fun oldData => JS.setInto n (JS.slice oldData 0 n))
               (AudioBuffer.channels buffer))).

(** The [null] of [if (!audioBuffer) return null] is [None]; an
    [AudioBuffer] value is never null, so the function returns [Some]. *)
Definition mixDownToMono (audioBuffer : AudioBuffer.t) : option (list R) :=
  let numChannels := AudioBuffer.numberOfChannels audioBuffer in
  let length := AudioBuffer.length audioBuffer in
  if (numChannels =? 1)%nat
  then Some (JS.setInto length (AudioBuffer.getChannelData audioBuffer 0))
  else
    let channels := AudioBuffer.channels audioBuffer in
    Some (map (fun i =>
                 let sum := fold_left (fun sum ch => sum + nth i ch 0) channels 0 in
                 sum / INR numChannels)
              (seq 0 length)).

(** ** NoteDetector: [detectNotes] *)

(** The [Partial<Note>] held in [currentNote]: a confirmed note that is
    still sounding. *)
Record OpenNote : Type := mkOpen {
  openPitch : string;
  openStart : R;
  openVelocity : Z
}.

(** The mutable locals of [detectNotes]. *)
Record DetectState : Type := mkDetect {
  emitted : list Note;
  currentNote : option OpenNote;
  lastPitchName : string;
  consecutiveFramesCount : nat;
  potentialNoteStart : option R;
  recentFrequencies : list R
}.

Definition detectInit : DetectState := mkDetect [] None ""%string 0 None [].

Definition minConsecutiveFrames : nat := 3.
Definition clarityThreshold : R := 88 / 100.
Definition pitchFilterWindowSize : nat := 3.
(** The floor local to [detectNotes], which shadows the module constant. *)
Definition detectMinDuration : R := 7 / 100.

(** [if (currentNote && consecutiveFramesCount >= minConsecutiveFrames)]
    followed by the duration test and [notes.push({...currentNote, duration})]. *)
Definition closeNote (st : DetectState) (endTime : R) : list Note :=
  match currentNote st with
  | Some cur =>
      if (minConsecutiveFrames <=? consecutiveFramesCount st)%nat then
        let duration := endTime - openStart cur in
        if Rle_dec detectMinDuration duration
        then emitted st ++ [mkNote (openPitch cur) (openStart cur) duration (openVelocity cur)]
        else emitted st
      else emitted st
  | None => emitted st
  end.

(** The state machine, advanced by one frame that measured [noteName],
    [clarity] and [velocity] at [time]; [recent] is the smoothing window
    after this frame's push. *)
Definition advance (st : DetectState) (time : R) (noteName : string)
    (clarity : R) (velocity : Z) (recent : list R) : DetectState :=
  if (negb (noteName =? "")%string && JS.leb clarityThreshold clarity)%bool then
    let st1 :=
      if (noteName =? lastPitchName st)%string
      then mkDetect (emitted st) (currentNote st) (lastPitchName st)
                    (S (consecutiveFramesCount st)) (potentialNoteStart st) recent
      else mkDetect (closeNote st time) None noteName 1 (Some time) recent in
    match (if (consecutiveFramesCount st1 =? minConsecutiveFrames)%nat
           then potentialNoteStart st1 else None) with
    | Some start =>
        mkDetect (emitted st1) (Some (mkOpen noteName start velocity))
                 (lastPitchName st1) (consecutiveFramesCount st1)
                 (potentialNoteStart st1) recent
    | None =>
        match currentNote st1 with
        | Some cur =>
            mkDetect (emitted st1)
                     (Some (mkOpen (openPitch cur) (openStart cur)
                                   (Z.max (openVelocity cur) velocity)))
                     (lastPitchName st1) (consecutiveFramesCount st1)
                     (potentialNoteStart st1) recent
        | None => st1
        end
    end
  else mkDetect (closeNote st time) None ""%string 0 None [].

Section NoteDetector.

Context `{Platform}.

Definition frameSize : nat := 2048.
Definition hopSize : nat := 441.

(** One iteration of the frame loop, at sample offset [i], over the locals
    and the detector object. *)
Definition detectFrame (monoBufferData : list R) (sampleRate overallRMS : R)
    (s : DetectState * Detector) (i : nat) : result (DetectState * Detector) :=
  let (st, detector) := s in
  let silenceThreshold := overallRMS * (8 / 100) in
  let frame := JS.slice monoBufferData i (i + frameSize) in
  let time := INR i / sampleRate in
  let frameRMS := calculateRMS frame in
  '(frequency, clarity, detector') <-
     (if Rlt_dec silenceThreshold frameRMS then findPitch detector frame sampleRate
      else Ok (0, 0, detector)) ;;
  let recent :=
    if Rlt_dec 0 frequency
    then JS.pushWindow pitchFilterWindowSize frequency (recentFrequencies st)
    else JS.pushWindow pitchFilterWindowSize 0 (recentFrequencies st) in
  let filteredFrequency := median recent in
  let noteName := frequencyToNoteName filteredFrequency in
  let velocity :=
    Z.min 127 (Z.max 0 (JS.round (frameRMS / (overallRMS + 1 / 1000000) * 90 + 30))) in
  Ok (advance st time noteName clarity velocity recent, detector').

Definition detectNotes (monoBufferData : list R) (sampleRate : R) : result (list Note) :=
  let detector := forFloat32Array frameSize in
  let overallRMS := calculateRMS monoBufferData in
  '(st, _) <- JS.forEachM (detectFrame monoBufferData sampleRate overallRMS)
                (JS.frameStarts (List.length monoBufferData) frameSize hopSize)
                (detectInit, detector) ;;
  let finalTime := INR (List.length monoBufferData) / sampleRate in
  Ok (closeNote st finalTime).

End NoteDetector.

(** ** TempoEstimator: [detectTempo] *)

Definition minTempo : Z := 60.
Definition maxTempo : Z := 180.

(** The locals of the onset loop. *)
Record OnsetState : Type := mkOnset {
  previousRMS : R;
  onsetTimes : list R;
  rmsHistory : list R
}.

Definition onsetFrame (buffer : list R) (sampleRate : R) (st : OnsetState) (i : nat)
  : OnsetState :=
  let frame := JS.slice buffer i (i + 1024) in
  let currentRMS := calculateRMS frame in
  let history := JS.pushWindow 10 currentRMS (rmsHistory st) in
  let localAverageRMS :=
    fold_left (fun sum val => sum + val) history 0 / INR (List.length history) in
  let onsets :=
    if (JS.ltb (previousRMS st * (15 / 10)) currentRMS
        && JS.ltb (localAverageRMS * (11 / 10)) currentRMS
        && JS.ltb (1 / 100) currentRMS)%bool
    then onsetTimes st ++ [INR i / sampleRate]
    else onsetTimes st in
  mkOnset currentRMS onsets history.

Definition detectOnsets (buffer : list R) (sampleRate : R) : list R :=
  onsetTimes
    (fold_left (onsetFrame buffer sampleRate)
               (JS.frameStarts (List.length buffer) 1024 256)
               (mkOnset 0 [] [])).

Definition tempoRangeCheck (val : R) : bool :=
  (JS.leb (60 / IZR maxTempo) val && JS.leb val (60 / IZR minTempo))%bool.

(** The loop [for (let i = 1; i < onsetTimes.length; i++)], with [prev]
    the onset at [i - 1], [rest] the onsets from [i] on and [iois] the
    array filled so far. *)
Fixpoint ioiLoop (prev : R) (rest : list R) (iois : list R) : list R :=
  match rest with
  | [] => iois
  | cur :: rest' =>
      let ioi := cur - prev in
      let iois1 := if tempoRangeCheck ioi then iois ++ [ioi] else iois in
      let iois2 := if tempoRangeCheck (ioi * 2) then iois1 ++ [ioi * 2] else iois1 in
      let iois3 := if tempoRangeCheck (ioi / 2) then iois2 ++ [ioi / 2] else iois2 in
      ioiLoop cur rest' iois3
  end.

Definition ioiCandidates (onsets : list R) : list R :=
  match onsets with
  | [] => []
  | first :: rest => ioiLoop first rest []
  end.

Definition tempoFromOnsets (onsets : list R) : Z :=
  if (List.length onsets <? 10)%nat then 120%Z
  else
    let iois := ioiCandidates onsets in
    if (List.length iois <? 5)%nat then 120%Z
    else
      let sorted := JS.sortBy (fun v => v) iois in
      let medianIOI := median sorted in
      if Req_dec_T medianIOI 0 then 120%Z
      else
        let tempo := 60 / medianIOI in
        Z.max minTempo (Z.min maxTempo (JS.round tempo)).

Definition detectTempo (buffer : list R) (sampleRate : R) : Z :=
  tempoFromOnsets (detectOnsets buffer sampleRate).

(** ** KeyEstimator: [detectKey] *)

(** [note.pitch.match(/^([A-G]#?)/)]: the captured pitch-class name. *)
Definition pitchClassMatch (p : string) : option string :=
  match p with
  | String c rest =>
      if ((65 <=? nat_of_ascii c) && (nat_of_ascii c <=? 71))%nat
      then match rest with
           | String "#"%char _ => Some (String c (String "#"%char EmptyString))
           | _ => Some (String c EmptyString)
           end
      else None
  | EmptyString => None
  end.

(** The object [pitchClasses], filled with [NOTE_NAMES.forEach]: the
    index of a name, [None] for [undefined]. *)
Fixpoint indexOfName (name : string) (names : list string) (index : nat) : option nat :=
  match names with
  | [] => None
  | n :: names' =>
      if (n =? name)%string then Some index else indexOfName name names' (S index)
  end.

Definition pitchClasses (name : string) : option nat := indexOfName name NOTE_NAMES 0.

(** [a[index] += weight]. *)
Fixpoint addAt (index : nat) (weight : R) (a : list R) : list R :=
  match a, index with
  | [], _ => []
  | x :: a', O => (x + weight) :: a'
  | x :: a', S index' => x :: addAt index' weight a'
  end.

(** The body of [notes.forEach] over the pair [(pitchCounts, totalDuration)]. *)
Definition countNote (acc : list R * R) (note : Note) : list R * R :=
  let (pitchCounts, totalDuration) := acc in
  if (pitch note =? "")%string then acc
  else
    match pitchClassMatch (pitch note) with
    | Some pitchName =>
        match pitchClasses pitchName with
        | Some pitchClassIndex =>
            let weight := duration note * (5 / 10 + IZR (velocity note) / 254) in
            (addAt pitchClassIndex weight pitchCounts, totalDuration + weight)
        | None => acc
        end
    | None => acc
    end.

(** The running best of the correlation loop; [maxCorrelation = None] is
    the initial [-Infinity]. *)
Record KeyBest : Type := mkBest {
  bestKeyIndex : nat;
  bestKeyIsMajor : bool;
  maxCorrelation : option R
}.

Definition exceeds (corr : R) (best : option R) : bool :=
  match best with
  | None => true
  | Some m => JS.ltb m corr
  end.

(** The inner loop over [j]: the histogram against [profile] rotated to
    root [i]. *)
Definition correlate (normalizedPitchCounts profile : list R) (i : nat) : R :=
  fold_left
    (fun corr j =>
       corr + nth j normalizedPitchCounts 0
              * nth (Z.to_nat (Z.rem (Z.of_nat j - Z.of_nat i + 12) 12)) profile 0)
    (seq 0 12) 0.

Definition keyStep (normalizedPitchCounts : list R) (best : KeyBest) (i : nat) : KeyBest :=
  let majorCorr := correlate normalizedPitchCounts normalizedMajorProfile i in
  let minorCorr := correlate normalizedPitchCounts normalizedMinorProfile i in
  let best1 :=
    if exceeds majorCorr (maxCorrelation best) then mkBest i true (Some majorCorr)
    else best in
  if exceeds minorCorr (maxCorrelation best1) then mkBest i false (Some minorCorr)
  else best1.

Definition bestKey (normalizedPitchCounts : list R) : KeyBest :=
  fold_left (keyStep normalizedPitchCounts) (seq 0 12) (mkBest 0 true None).

Definition detectKey (notes : list Note) : string :=
  if (List.length notes =? 0)%nat then "N/A"%string
  else
    let (pitchCounts, totalDuration) := fold_left countNote notes (repeat 0 12, 0) in
    if Req_dec_T totalDuration 0 then "N/A"%string
    else
      let normalizedPitchCounts := map (fun count => count / totalDuration) pitchCounts in
      let best := bestKey normalizedPitchCounts in
      let rootNoteName := nameAt (bestKeyIndex best) in
      let mode := if bestKeyIsMajor best then "Major"%string else "Minor"%string in
      (rootNoteName ++ " " ++ mode)%string.

(** ** TimeSignatureEstimator: [detectTimeSignature] *)

Definition nearBoundary (timeSinceStart period tolerance : R) : bool :=
  (JS.ltb (JS.fmod timeSinceStart period) tolerance
   || JS.ltb (period - tolerance) (JS.fmod timeSinceStart period))%bool.

Definition scoreNote (beatDuration tolerance : R) (scores : R * R) (note : Note) : R * R :=
  let (commonTimeScore, compoundTimeScore) := scores in
  let timeSinceStart := startTime note in
  let common1 :=
    if nearBoundary timeSinceStart beatDuration tolerance
    then commonTimeScore + 1 else commonTimeScore in
  let halfBeat := beatDuration / 2 in
  let common2 :=
    if nearBoundary timeSinceStart halfBeat tolerance then common1 + 5 / 10 else common1 in
  let dottedQuarter := beatDuration * (15 / 10) in
  let compound1 :=
    if nearBoundary timeSinceStart dottedQuarter tolerance
    then compoundTimeScore + 1 else compoundTimeScore in
  let eighthNote := beatDuration / 2 in
  let compound2 :=
    if nearBoundary timeSinceStart (eighthNote * 3) tolerance
    then compound1 + 5 / 10 else compound1 in
  (common2, compound2).

Definition detectTimeSignature (notes : list Note) (tempo : Z) : string :=
  if ((List.length notes <? 5)%nat || (tempo <=? 0)%Z)%bool then "4/4"%string
  else
    let beatDuration := 60 / IZR tempo in
    let tolerance := beatDuration * (2 / 10) in
    let (commonTimeScore, compoundTimeScore) :=
      fold_left (scoreNote beatDuration tolerance) notes (0, 0) in
    if Rlt_dec (commonTimeScore * (11 / 10)) compoundTimeScore
    then "6/8"%string else "4/4"%string.

(** ** AnalysisPipeline: [analyzeAudio] *)

(** The predicate of [notes.filter]. *)
Definition keepNote (note : Note) : bool :=
  if Rlt_dec (duration note) MIN_NOTE_DURATION_SECONDS then false
  else if JS.isBlank (pitch note) then false
  else true.

(** The gap between the end of [currentNote] and the start of [nextNote]. *)
Definition gap (currentNote nextNote : Note) : R :=
  startTime nextNote - (startTime currentNote + duration currentNote).

Definition mergeThreshold : R := 5 / 100.

(** The merge loop.  The source walks [finalNotes] by index [i], reads
    [finalNotes[i]] and [finalNotes[i + 1]], and steps over the next note
    with [i++] after a merge; here the list is the suffix from [i] on, and
    the result is what the pushes leave in [mergedNotes]. *)
Fixpoint mergeNotes (finalNotes : list Note) : list Note :=
  match finalNotes with
  | [] => []
  | currentNote :: rest =>
      match rest with
      | [] => [currentNote]
      | nextNote :: rest' =>
          if Rlt_dec mergeThreshold (gap currentNote nextNote)
          then currentNote :: mergeNotes rest
          else if ((pitch nextNote =? pitch currentNote)%string
                   && JS.ltb (gap currentNote nextNote) mergeThreshold)%bool
          then
            mkNote (pitch currentNote) (startTime currentNote)
                   (startTime nextNote + duration nextNote - startTime currentNote)
                   (velocity currentNote)
            :: mergeNotes rest'
          else currentNote :: mergeNotes rest
      end
  end.

Definition orDefault (s default : string) : string :=
  if (s =? "")%string then default else s.

(** The result of the [catch] block. *)
Definition safeDefault : AudioAnalysisResult :=
  mkResult 120 "C Major" "4/4" (createSyntheticNotes 5) false.

Section Pipeline.

Context `{Platform}.

(** The [try] block of [analyzeAudio]. *)
Definition analyzeBody (audioFile : File) : result AudioAnalysisResult :=
  originalAudioBuffer <- decodeAudioData audioFile ;;
  '(truncated, processedBuffer) <-
     (if Rlt_dec MAX_DURATION_SECONDS (AudioBuffer.duration originalAudioBuffer)
      then b <- truncateAudioBuffer originalAudioBuffer MAX_DURATION_SECONDS ;;
           Ok (true, b)
      else Ok (false, originalAudioBuffer)) ;;
  monoBufferData <-
     match mixDownToMono processedBuffer with
     | Some m => Ok m
     | None => Throw "Failed to process audio channels into mono."%string
     end ;;
  let sampleRate := AudioBuffer.sampleRate processedBuffer in
  detected <- detectNotes monoBufferData sampleRate ;;
  let notes :=
    if (List.length detected =? 0)%nat
    then createSyntheticNotes (AudioBuffer.duration processedBuffer)
    else detected in
  let tempo := detectTempo monoBufferData sampleRate in
  let key := detectKey notes in
  let timeSignature := detectTimeSignature notes tempo in
  let finalNotes := filter keepNote notes in
  if (List.length finalNotes =? 0)%nat then
    Ok (mkResult (Z.max 60 (JS.round (IZR tempo))) key (orDefault timeSignature "4/4")
                 (createSyntheticNotes (AudioBuffer.duration processedBuffer))
                 truncated)
  else
    let sorted := JS.sortBy startTime finalNotes in
    let mergedNotes := mergeNotes sorted in
    let result :=
      mkResult (Z.max 60 (JS.round (IZR tempo))) key (orDefault timeSignature "4/4")
               mergedNotes truncated in
    (* try { await storeAnalysisInSupabase(...) } catch (e) { } *)
    match storeAnalysis result (fileName audioFile) with
    | Ok _ => Ok result
    | Throw _ => Ok result
    end.

(** [analyzeAudio]: the [try] block, and the [catch] block that turns
    any exception into [safeDefault].  The [finally] block only closes the
    [AudioContext] and catches the rejection of [close] itself. *)
Definition analyzeAudio (audioFile : File) : AudioAnalysisResult :=
  match analyzeBody audioFile with
  | Ok result => result
  | Throw _ => safeDefault
  end.

End Pipeline.

(** ** Vocabulary of the properties *)

(** Ascending order of the sort keys. *)
Definition keyLe {A : Type} (key : A -> R) (a b : A) : Prop := key a <= key b.

(** The floor and pitch condition on the notes of a result. *)
Definition wellFormed (n : Note) : Prop :=
  MIN_NOTE_DURATION_SECONDS <= duration n /\ pitch n <> ""%string.

Definition startsLe (a b : Note) : Prop := startTime a <= startTime b.

Definition noteEnd (n : Note) : R := startTime n + duration n.

(** [a] has ended when [b] starts. *)
Definition precedes (a b : Note) : Prop := noteEnd a <= startTime b.

(** What holds of the locals of [detectNotes] after a frame at time [t]:
    the emitted notes follow one another without overlap, each lasts at
    least the detector's floor and has ended by [t], and a pending or
    confirmed onset lies after all of them. *)
Record DetectInv (t : R) (st : DetectState) : Prop := mkInv {
  inv_chain : Sorted precedes (emitted st);
  inv_ended : Forall (fun n => noteEnd n <= t) (emitted st);
  inv_floor : Forall (fun n => detectMinDuration <= duration n) (emitted st);
  inv_open : forall cur, currentNote st = Some cur ->
             Forall (fun n => noteEnd n <= openStart cur) (emitted st);
  inv_pending : forall p, potentialNoteStart st = Some p ->
                Forall (fun n => noteEnd n <= p) (emitted st)
}.

(** The same locals under a sample rate that is not positive (frame times
    do not increase): nothing is ever emitted, and a pending or confirmed
    onset is no earlier than the current frame time [t]. *)
Record DetectIdle (t : R) (st : DetectState) : Prop := mkIdle {
  idle_none : emitted st = [];
  idle_open : forall cur, currentNote st = Some cur -> t <= openStart cur;
  idle_pending : forall p, potentialNoteStart st = Some p -> t <= p
}.

(** The notes the pipeline filters: the detected ones, or the placeholders. *)
Definition candidateNotes (detected : list Note) (processed : AudioBuffer.t) : list Note :=
  if (List.length detected =? 0)%nat
  then createSyntheticNotes (AudioBuffer.duration processed)
  else detected.

(** Two neighbours the merge loop joins: same pitch, gap under 50 ms. *)
Definition mergeable (currentNote nextNote : Note) : Prop :=
  pitch nextNote = pitch currentNote /\ gap currentNote nextNote < mergeThreshold.

(** One note that two one-frame dropouts cut into three fragments, ten
    milliseconds apart. *)
Definition threeFragments : list Note :=
  [ mkNote "A4" 0 (19 / 100) 80;
    mkNote "A4" (20 / 100) (19 / 100) 80;
    mkNote "A4" (40 / 100) (19 / 100) 80 ].

(** ** Concrete platforms for the examples *)

(** A decoder that rejects every file. *)
Definition rejectingPlatform : Platform := {|
  File := unit;
  fileName := fun _ => "take.wav"%string;
  decodeAudioData := fun _ => Throw "EncodingError"%string;
  Detector := unit;
  forFloat32Array := fun _ => tt;
  findPitch := fun detector _ _ => Ok (0, 0, detector);
  storeAnalysis := fun _ _ => Ok tt
|}.

(** Ninety seconds of silence, one channel, one sample per second; the
    detector finds no pitch. *)
Definition ninetySeconds : AudioBuffer.t := AudioBuffer.make 1 90 [repeat 0 90].

Definition silentPlatform : Platform := {|
  File := unit;
  fileName := fun _ => "silence.wav"%string;
  decodeAudioData := fun _ => Ok ninetySeconds;
  Detector := unit;
  forFloat32Array := fun _ => tt;
  findPitch := fun detector _ _ => Ok (0, 0, detector);
  storeAnalysis := fun _ _ => Ok tt
|}.

(** ** The tempo rule in the words of the specification *)

(** The intervals between consecutive onsets. *)
Fixpoint interOnsetIntervals (onsets : list R) : list R :=
  match onsets with
  | [] => []
  | a :: rest =>
      match rest with
      | [] => []
      | b :: _ => (b - a) :: interOnsetIntervals rest
      end
  end.

(** Each interval, its double and its half, kept when it is a plausible
    beat period. *)
Definition survivingCandidates (onsets : list R) : list R :=
  filter tempoRangeCheck
         (flat_map (fun ioi => [ioi; ioi * 2; ioi / 2]) (interOnsetIntervals onsets)).

Definition clamp (lo hi x : Z) : Z := Z.max lo (Z.min hi x).

(** The default on fewer than 10 onsets or fewer than 5 candidates, else
    the clamped, rounded rate of the median interval. *)
Definition specTempo (onsets : list R) : Z :=
  if ((List.length onsets <? 10)%nat
      || (List.length (survivingCandidates onsets) <? 5)%nat)%bool
  then 120%Z
  else clamp 60 180 (JS.round (60 / median (survivingCandidates onsets))).

(** ** The candidates of the key search *)

(** The 24 (root, major?) pairs in the order the loop of [detectKey]
    meets them. *)
Definition keyCandidates : list (nat * bool) :=
  flat_map (fun i => [(i, true); (i, false)]) (seq 0 12).

(** The correlation score of one candidate. *)
Definition correlationOf (normalizedPitchCounts : list R) (c : nat * bool) : R :=
  correlate normalizedPitchCounts
            (if snd c then normalizedMajorProfile else normalizedMinorProfile)
            (fst c).

(** One comparison of the loop body. *)
Definition compareCandidate (normalizedPitchCounts : list R) (best : KeyBest)
    (c : nat * bool) : KeyBest :=
  if exceeds (correlationOf normalizedPitchCounts c) (maxCorrelation best)
  then mkBest (fst c) (snd c) (Some (correlationOf normalizedPitchCounts c))
  else best.

Definition chosen (best : KeyBest) : nat * bool := (bestKeyIndex best, bestKeyIsMajor best).

(** A single note C4 of one second at velocity 80, and its normalised
    pitch-class histogram. *)
Definition soloC4 : list Note := [mkNote "C4" 0 1 80].

Definition soloC4Weight : R := 1 * (5 / 10 + 80 / 254).

Definition soloC4Histogram : list R :=
  map (fun count => count / (0 + soloC4Weight)) (addAt 0 soloC4Weight (repeat 0 12)).

(** ** Vocabulary of the further properties *)

(** The name [frequencyToNoteName] spells for the rounded pitch number
    [roundedMidi]. *)
Definition midiName (roundedMidi : Z) : string :=
  (nameAt (Z.to_nat (Z.rem roundedMidi 12)) ++ JS.string_of_Z (roundedMidi / 12 - 1))%string.


(** The pitch numbers of the 88 piano keys. *)
Definition pianoKeys : list Z := map Z.of_nat (seq 21 88).

(** The check run on every key of the piano: its name is not blank, the
    capture of [detectKey] reads the pitch class back, and the table of
    pitch classes holds it at the index of the key. *)
Definition keyNameReadable (r : Z) : bool :=
  let index := Z.to_nat (Z.rem r 12) in
  (negb (JS.isBlank (midiName r))
   && match pitchClassMatch (midiName r) with
      | Some name =>
          (name =? nameAt index)%string
          && match pitchClasses name with
             | Some i => (i =? index)%nat
             | None => false
             end
      | None => false
      end
   && (index <? 12)%nat)%bool.


(** A name the note namer produced. *)
Definition pianoName (s : string) : Prop :=
  s <> ""%string /\ exists f, s = frequencyToNoteName f.

(** What every note of the detector looks like. *)
Definition noteShape (n : Note) : Prop :=
  pianoName (pitch n) /\ (0 <= velocity n <= 127)%Z /\ 0 <= startTime n.

(** The locals of [detectNotes] hold notes of that shape only. *)
Record DetectShape (st : DetectState) : Prop := mkShape {
  shape_emitted : Forall noteShape (emitted st);
  shape_open : forall cur, currentNote st = Some cur ->
               pianoName (openPitch cur) /\ (0 <= openVelocity cur <= 127)%Z
               /\ 0 <= openStart cur;
  shape_pending : forall p, potentialNoteStart st = Some p -> 0 <= p
}.

(** What one frame hands to the state machine. *)
Record FrameReading : Type := mkReading {
  readTime : R;
  readName : string;
  readClarity : R;
  readVelocity : Z;
  readRecent : list R
}.

Definition feed (st : DetectState) (fr : FrameReading) : DetectState :=
  advance st (readTime fr) (readName fr) (readClarity fr) (readVelocity fr) (readRecent fr).

(** A frame the machine takes as a clear reading of pitch [name]. *)
Definition confidentOf (name : string) (fr : FrameReading) : Prop :=
  readName fr = name /\ clarityThreshold <= readClarity fr.

(** A frame the machine takes as silence or as unclear. *)
Definition unconfident (fr : FrameReading) : Prop :=
  readName fr = ""%string \/ readClarity fr < clarityThreshold.

(** The locals while a run of [count] clear frames of pitch [name], begun
    at [start], is being tracked and nothing has been emitted: the note
    is confirmed from the third frame on. *)
Definition trackingState (name : string) (start : R) (count : nat) (loudest : Z)
    (recent : list R) : DetectState :=
  mkDetect [] (if (minConsecutiveFrames <=? count)%nat
               then Some (mkOpen name start loudest) else None)
           name count (Some start) recent.

(** A clear reading of A4 at time [t] with velocity [v]. *)
Definition a4Reading (t : R) (v : Z) : FrameReading :=
  mkReading t "A4" (95 / 100) v [440; 440; 440].

(** The velocity [detectNotes] gives a frame of RMS [frameRMS] in a buffer
    of RMS [overallRMS]. *)
Definition frameVelocity (frameRMS overallRMS : R) : Z :=
  Z.min 127 (Z.max 0 (JS.round (frameRMS / (overallRMS + 1 / 1000000) * 90 + 30))).

(** A detector that reports 440 Hz with full clarity on every frame. *)
Definition steadyPlatform : Platform := {|
  File := unit;
  fileName := fun _ => "tone.wav"%string;
  decodeAudioData := fun _ => Ok (AudioBuffer.make 44100 4096 [repeat 1 4096]);
  Detector := unit;
  forFloat32Array := fun _ => tt;
  findPitch := fun detector _ _ => Ok (440, 1, detector);
  storeAnalysis := fun _ _ => Ok tt
|}.

(** Ten onsets half a second apart: pulses at 120 per minute. *)
Definition halfSecondPulses : list R :=
  [0; 1 / 2; 1; 3 / 2; 2; 5 / 2; 3; 7 / 2; 4; 9 / 2].

(** A note the histogram of [detectKey] counts with positive weight. *)
Definition countedNote (note : Note) : Prop :=
  pitch note <> ""%string
  /\ (exists name index, pitchClassMatch (pitch note) = Some name
                         /\ pitchClasses name = Some index)
  /\ 0 < duration note
  /\ (0 <= velocity note)%Z.

(** The 24 strings [detectKey] can print besides "N/A". *)
Definition keyNames : list string :=
  flat_map (fun i => [(nameAt i ++ " Major")%string; (nameAt i ++ " Minor")%string])
           (seq 0 12).

(** A note the histogram of [detectKey] counts in pitch class [p]: a
    readable pitch of that class, a duration between a millisecond and a
    day, and a MIDI velocity. *)
Definition countedIn (p : nat) (note : Note) : Prop :=
  pitch note <> ""%string
  /\ (exists name, pitchClassMatch (pitch note) = Some name /\ pitchClasses name = Some p)
  /\ 1 / 1000 <= duration note <= 86400
  /\ (0 <= velocity note <= 127)%Z.

(** Three A's in three octaves. *)
Definition threeAs : list Note :=
  [mkNote "A4" 0 1 80; mkNote "A5" 1 (1 / 2) 100; mkNote "A3" 2 (1 / 4) 0].

(** Five notes on consecutive beats at 120 per minute, and five notes a
    dotted quarter after every second dotted quarter (at 0.75 s, 2.25 s,
    ...). *)
Definition onBeatNotes : list Note :=
  map (fun t => mkNote "C4" t (1 / 4) 80) [0; 1 / 2; 1; 3 / 2; 2].

Definition dottedNotes : list Note :=
  map (fun t => mkNote "C4" t (1 / 4) 80) [3 / 4; 9 / 4; 15 / 4; 21 / 4; 27 / 4].

(** The name of one of the 88 piano keys, as the note namer prints it. *)
Definition pianoKeyName (s : string) : Prop :=
  exists roundedMidi, (21 <= roundedMidi <= 108)%Z /\ s = midiName roundedMidi.

(** Two seconds of silence, one channel of 4096 samples. *)
Definition twoSilentSeconds : AudioBuffer.t := AudioBuffer.make 2048 4096 [repeat 0 4096].

(** A file that decodes to that silence, on a platform whose pitch
    detector and store both fail. *)
Definition quietPlatform : Platform := {|
  File := unit;
  fileName := fun _ => "quiet.wav"%string;
  decodeAudioData := fun _ => Ok twoSilentSeconds;
  Detector := unit;
  forFloat32Array := fun _ => tt;
  findPitch := fun detector _ _ => Throw "unreachable"%string;
  storeAnalysis := fun _ _ => Throw "offline"%string
|}.

(** ** The caller: the ABC helpers of [pages/Home.tsx] *)

(** [s.includes(sub)]. *)
Definition includes (s sub : string) : bool :=
  match String.index 0 sub s with
  | Some _ => true
  | None => false
  end.

Definition isDigit (c : ascii) : bool :=
  ((48 <=? nat_of_ascii c) && (nat_of_ascii c <=? 57))%nat.

(** The value of a string made of decimal digits only; [None] when
    another character occurs. *)
Fixpoint digitsValue (s : string) (acc : Z) : option Z :=
  match s with
  | EmptyString => Some acc
  | String c rest =>
      if isDigit c
      then digitsValue rest (10 * acc + (Z.of_nat (nat_of_ascii c) - 48))%Z
      else None
  end.

(** The group [(-?\d+)] up to the end of the string, read by
    [parseInt(_, 10)]. *)
Definition parseOctave (s : string) : option Z :=
  match s with
  | EmptyString => None
  | String "-"%char EmptyString => None
  | String "-"%char rest => option_map Z.opp (digitsValue rest 0)
  | _ => digitsValue s 0
  end.

(** [pitch.match(/^([A-G])([#b]?)(-?\d+)$/)]: the letter, the accidental
    and the octave, [None] for [null]. *)
Definition matchPitch (pitch : string) : option (string * string * Z) :=
  match pitch with
  | String letter rest =>
      if ((65 <=? nat_of_ascii letter) && (nat_of_ascii letter <=? 71))%nat
      then
        let note := String letter EmptyString in
        match rest with
        | String "#"%char rest' =>
            option_map (fun octave => (note, "#"%string, octave)) (parseOctave rest')
        | String "b"%char rest' =>
            option_map (fun octave => (note, "b"%string, octave)) (parseOctave rest')
        | _ => option_map (fun octave => (note, ""%string, octave)) (parseOctave rest)
        end
      else None
  | EmptyString => None
  end.

(** [s.repeat(n)]. *)
Fixpoint repeatString (s : string) (n : nat) : string :=
  match n with
  | O => EmptyString
  | S n' => (s ++ repeatString s n')%string
  end.

(** [s.toLowerCase()] on ASCII. *)
Definition lowerChar (c : ascii) : ascii :=
  let n := nat_of_ascii c in
  if ((65 <=? n) && (n <=? 90))%nat then ascii_of_nat (n + 32) else c.

Fixpoint toLowerCase (s : string) : string :=
  match s with
  | EmptyString => EmptyString
  | String c rest => String (lowerChar c) (toLowerCase rest)
  end.

(** [noteNameToAbc]: the ABC pitch of a note name, the rest [z] for a
    name it does not read.  The octave is an exact integer and [repeat]
    has no length limit here. *)
Definition noteNameToAbc (pitch : string) : string :=
  if JS.isBlank pitch then "z"%string
  else if (includes pitch "undefined" || includes pitch "pitchindefined")%bool then "z"%string
  else
    match matchPitch pitch with
    | None => "z"%string
    | Some (note, accidental, octave) =>
        let abcNote :=
          if (accidental =? "#")%string then ("^" ++ note)%string
          else if (accidental =? "b")%string then ("_" ++ note)%string
          else note in
        if (octave <? 4)%Z
        then (abcNote ++ repeatString "," (Z.to_nat (4 - octave)))%string
        else if (4 <? octave)%Z
        then
          let lowered := toLowerCase abcNote in
          if (5 <? octave)%Z
          then (lowered ++ repeatString "'" (Z.to_nat (octave - 5)))%string
          else lowered
        else abcNote
    end.


(** The ABC pitch of a piano key, and the check that no key is
    transcribed as a rest or as another key is. *)
Definition abcOfKey (roundedMidi : Z) : string := noteNameToAbc (midiName roundedMidi).

Definition abcKeysDistinct : bool :=
  forallb (fun r1 =>
             negb (abcOfKey r1 =? "z")%string
             && forallb (fun r2 => (r1 =? r2)%Z || negb (abcOfKey r1 =? abcOfKey r2)%string)
                        pianoKeys)
          pianoKeys.

(** * The code's own arithmetic

    The definitions above take JavaScript numbers as real numbers.  Where
    a property turns on the rounding of binary64 arithmetic, the same
    source lines are taken here over the kernel's binary64 floats. *)

Module Double.

Import PrimFloat.
Local Open Scope float_scope.
Set Warnings "-inexact-float".

(** The non-negative integer [z] (below 2^63) and the integer [z] as
    numbers. *)
Definition ofZ (z : Z) : float :=
  if (z <? 0)%Z then - of_uint63 (Uint63.of_Z (- z)) else of_uint63 (Uint63.of_Z z).
Definition ofNat (n : nat) : float := ofZ (Z.of_nat n).

Definition isNaN (x : float) : bool := negb (x =? x).

(** The value of a finite number in units of 2^-1074, of which every
    finite number is a whole multiple. *)
Definition units (x : float) : Z :=
  match FloatOps.Prim2SF x with
  | SpecFloat.S754_finite s m e =>
      ((if s then Z.neg m else Z.pos m) * 2 ^ (e + 1074))%Z
  | _ => 0%Z
  end.

(** [Math.round]: the nearest integer, ties towards plus infinity;
    [None] for NaN and the infinities, which it returns unchanged. *)
Definition round (x : float) : option Z :=
  match FloatOps.Prim2SF x with
  | SpecFloat.S754_zero _ => Some 0%Z
  | SpecFloat.S754_finite s m e =>
      let n := if s then Z.neg m else Z.pos m in
      Some (if (0 <=? e)%Z then n * 2 ^ e
            else (2 * n + 2 ^ (- e)) / 2 ^ (- e + 1))%Z
  | _ => None
  end.

(** [Math.max] and [Math.min] of two numbers. *)
Definition max (a b : float) : float :=
  if (isNaN a || isNaN b)%bool then nan else if a <? b then b else a.
Definition min (a b : float) : float :=
  if (isNaN a || isNaN b)%bool then nan else if b <? a then b else a.

(** [Math.log2] and [Math.pow], which ECMAScript leaves to the engine
    (implementation-approximated). *)
Class MathLibrary : Type := {
  log2 : float -> float;
  pow : float -> float -> float
}.

Record Note : Type := mkNote {
  pitch : string;
  startTime : float;
  duration : float;
  velocity : float
}.

Definition calculateRMS (buffer : list float) : float :=
  let sumOfSquares := fold_left (fun acc x => acc + x * x) buffer 0 in
  sqrt (sumOfSquares
        / ofNat (if (List.length buffer =? 0)%nat then 1 else List.length buffer)).

(** [sort((a, b) => a - b)] on numbers. *)
Fixpoint insert (x : float) (l : list float) : list float :=
  match l with
  | [] => [x]
  | y :: l' => if x <=? y then x :: l else y :: insert x l'
  end.

Definition sort (l : list float) : list float := fold_right insert [] l.

(** [a.push(x); if (a.length > size) a.shift()]. *)
Definition pushWindow (size : nat) (x : float) (a : list float) : list float :=
  let a' := a ++ [x] in
  if (size <? List.length a')%nat then tl a' else a'.

Definition median (values : list float) : float :=
  if (List.length values =? 0)%nat then 0
  else
    let sorted := sort values in
    let mid := (List.length sorted / 2)%nat in
    if negb (List.length sorted mod 2 =? 0)%nat then nth mid sorted nan
    else (nth (mid - 1) sorted nan + nth mid sorted nan) / 2.

Section PitchNamer.

Context `{MathLibrary}.

Definition midiNumberOf (frequency : float) : float :=
  12 * log2 (frequency / 440) + 69.

Definition centsDeviationOf (frequency roundedMidi : float) : float :=
  1200 * log2 (frequency / (440 * pow 2 ((roundedMidi - 69) / 12))).

Definition frequencyToNoteName (frequency : float) : string :=
  if ((frequency =? 0) || isNaN frequency || (frequency <=? 10))%bool then ""%string
  else
    let midiNumber := midiNumberOf frequency in
    match round midiNumber with
    | Some roundedMidi =>
        if ((roundedMidi <? 21) || (108 <? roundedMidi))%Z then ""%string
        else
          let octave := (roundedMidi / 12 - 1)%Z in
          let noteIndex := Z.rem roundedMidi 12 in
          let centsDeviation := centsDeviationOf frequency (ofZ roundedMidi) in
          if 50 <? abs centsDeviation then ""%string
          else (nameAt (Z.to_nat noteIndex) ++ JS.string_of_Z octave)%string
    | None =>
        (* Math.round returned NaN, which passes both range tests, or an
           infinity, which fails one *)
        if isNaN midiNumber
        then (if 50 <? abs (centsDeviationOf frequency midiNumber)
              then ""%string else "undefinedNaN"%string)
        else ""%string
    end.

End PitchNamer.

(** The [Partial<Note>] held in [currentNote]. *)
Record OpenNote : Type := mkOpen {
  openPitch : string;
  openStart : float;
  openVelocity : float
}.

(** The mutable locals of [detectNotes]. *)
Record DetectState : Type := mkDetect {
  emitted : list Note;
  currentNote : option OpenNote;
  lastPitchName : string;
  consecutiveFramesCount : nat;
  potentialNoteStart : option float;
  recentFrequencies : list float
}.

Definition detectInit : DetectState := mkDetect [] None ""%string 0 None [].

Definition closeNote (st : DetectState) (endTime : float) : list Note :=
  match currentNote st with
  | Some cur =>
      if (minConsecutiveFrames <=? consecutiveFramesCount st)%nat then
        let duration := endTime - openStart cur in
        if 0.07 <=? duration
        then emitted st ++ [mkNote (openPitch cur) (openStart cur) duration (openVelocity cur)]
        else emitted st
      else emitted st
  | None => emitted st
  end.

Definition advance (st : DetectState) (time : float) (noteName : string)
    (clarity velocity : float) (recent : list float) : DetectState :=
  if (negb (noteName =? "")%string && (0.88 <=? clarity))%bool then
    let st1 :=
      if (noteName =? lastPitchName st)%string
      then mkDetect (emitted st) (currentNote st) (lastPitchName st)
                    (S (consecutiveFramesCount st)) (potentialNoteStart st) recent
      else mkDetect (closeNote st time) None noteName 1 (Some time) recent in
    match (if (consecutiveFramesCount st1 =? minConsecutiveFrames)%nat
           then potentialNoteStart st1 else None) with
    | Some start =>
        mkDetect (emitted st1) (Some (mkOpen noteName start velocity))
                 (lastPitchName st1) (consecutiveFramesCount st1)
                 (potentialNoteStart st1) recent
    | None =>
        match currentNote st1 with
        | Some cur =>
            mkDetect (emitted st1)
                     (Some (mkOpen (openPitch cur) (openStart cur)
                                   (max (if (openVelocity cur =? 0) || isNaN (openVelocity cur)
                                         then 0 else openVelocity cur)
                                        velocity)))
                     (lastPitchName st1) (consecutiveFramesCount st1)
                     (potentialNoteStart st1) recent
        | None => st1
        end
    end
  else mkDetect (closeNote st time) None ""%string 0 None [].

(** [pitchy]'s detector object, as in [Platform], over the code's numbers. *)
Class Pitchy : Type := {
  Detector : Type;
  forFloat32Array : nat -> Detector;
  findPitch : Detector -> list float -> float -> result (float * float * Detector)
}.

Section NoteDetector.

Context `{MathLibrary} `{Pitchy}.

Definition detectFrame (monoBufferData : list float) (sampleRate overallRMS : float)
    (s : DetectState * Detector) (i : nat) : result (DetectState * Detector) :=
  let (st, detector) := s in
  let silenceThreshold := overallRMS * 0.08 in
  let frame := JS.slice monoBufferData i (i + frameSize) in
  let time := ofNat i / sampleRate in
  let frameRMS := calculateRMS frame in
  '(frequency, clarity, detector') <-
     (if silenceThreshold <? frameRMS then findPitch detector frame sampleRate
      else Ok (0, 0, detector)) ;;
  let recent :=
    if 0 <? frequency
    then pushWindow pitchFilterWindowSize frequency (recentFrequencies st)
    else pushWindow pitchFilterWindowSize 0 (recentFrequencies st) in
  let filteredFrequency := median recent in
  let noteName := frequencyToNoteName filteredFrequency in
  let scaled := frameRMS / (overallRMS + 1e-6) * 90 + 30 in
  let velocity :=
    min 127 (max 0 (match round scaled with Some z => ofZ z | None => scaled end)) in
  Ok (advance st time noteName clarity velocity recent, detector').

Definition detectNotes (monoBufferData : list float) (sampleRate : float)
  : result (list Note) :=
  let detector := forFloat32Array frameSize in
  let overallRMS := calculateRMS monoBufferData in
  '(st, _) <- JS.forEachM (detectFrame monoBufferData sampleRate overallRMS)
                (JS.frameStarts (List.length monoBufferData) frameSize hopSize)
                (detectInit, detector) ;;
  let finalTime := ofNat (List.length monoBufferData) / sampleRate in
  Ok (closeNote st finalTime).

End NoteDetector.

(** An engine that answers [l] for the logarithm of 0.9715319411536056;
    [log2(1) = 0] and [pow(2, 0) = 1] are fixed by ECMAScript,
    [log2(2) = 1] and [pow(2, 1) = 2] are exact.  The arguments of the two
    traces below end there; elsewhere the table answers NaN. *)
Definition mathAnswering (l : float) : MathLibrary := {|
  log2 := fun x =>
    if x =? 1 then 0
    else if x =? 2 then 1
    else if x =? 0.9715319411536056 then l
    else nan;
  pow := fun base exponent =>
    if exponent =? 0 then 1
    else if exponent =? 1 then base
    else nan
|}.

(** The logarithm of 0.9715319411536056 to base 2, correctly rounded: its
    exact value is -1/24 - 3.4e-16. *)
Definition tracedLogarithm : float := -0.04166666666666701.

Definition tracedMath : MathLibrary := mathAnswering tracedLogarithm.

(** The numbers up to [k] units in the last place around [x]. *)
Definition around (x : float) (k : nat) : list float :=
  rev (tl (map (fun i => Nat.iter i next_down x) (seq 0 (S k))))
  ++ map (fun i => Nat.iter i next_up x) (seq 0 (S k)).

(** A frequency a quarter tone below A4 (within 4e-14 Hz of
    440 * 2^(-1/24)). *)
Definition quarterToneBelowA4 : float := 427.4740541075865.

(** A detector that finds nothing in its first three frames, then 440 Hz
    for 25 frames, then 880 Hz, always with clarity 0.95. *)
Definition twoToneDetector : Pitchy := {|
  Detector := nat;
  forFloat32Array := fun _ => 0%nat;
  findPitch := fun calls _ _ =>
    Ok (if (calls <? 3)%nat then (0, 0)
        else if (calls <? 28)%nat then (440, 0.95)
        else (880, 0.95),
        S calls)
|}.

(** 0.4 s at 44.1 kHz, every sample 0.5. *)
Definition halfAmplitude : list float := repeat 0.5 (40 * 441).

(** What [detectNotes] returns for that detector on that buffer. *)
Definition twoToneNotes : list Note :=
  [mkNote "A4" 0.03 0.26 120; mkNote "A5" 0.29 0.11000000000000004 120].

(** [b] starts before [a] has ended: in the code's addition, and in the
    exact sum of the two numbers. *)
Definition startsBeforeEndOf (a b : Note) : Prop :=
  (startTime b <? startTime a + duration a) = true
  /\ (units (startTime b) < units (startTime a) + units (duration a))%Z.

End Double.

(** A detector that reports 440 Hz for six frames and 880 Hz afterwards,
    always with full clarity, and a file of 0.15 s at 44.1 kHz. *)
Definition twoTonePlatform : Platform := {|
  File := unit;
  fileName := fun _ => "octave.wav"%string;
  decodeAudioData := fun _ => Ok (AudioBuffer.make 44100 (15 * 441) [repeat 1 (15 * 441)]);
  Detector := nat;
  forFloat32Array := fun _ => 0%nat;
  findPitch := fun calls _ _ => Ok (if (calls <? 6)%nat then 440 else 880, 1, S calls);
  storeAnalysis := fun _ _ => Ok tt
|}.

(** * Sanity checks of the executable definitions *)

Example pitchClassMatch_sharp : pitchClassMatch "C#4" = Some "C#"%string.
Proof. reflexivity. Qed.

Example pitchClasses_sharp : pitchClasses "C#" = Some 1%nat.
Proof. reflexivity. Qed.

(** The capture accepts a sharp that the chromatic table does not hold. *)
Example pitchClasses_E_sharp :
  pitchClassMatch "E#4" = Some "E#"%string /\ pitchClasses "E#" = None.
Proof. split; reflexivity. Qed.

Example frameStarts_three : JS.frameStarts 2930 2048 441 = [0; 441; 882]%nat.
Proof. reflexivity. Qed.

Example frameStarts_short_buffer : JS.frameStarts 2047 2048 441 = [].
Proof. reflexivity. Qed.

Example isBlank_examples : JS.isBlank "  " = true /\ JS.isBlank "A4" = false.
Proof. split; reflexivity. Qed.

Example string_of_Z_examples :
  JS.string_of_Z 4 = "4"%string /\ JS.string_of_Z (-1) = "-1"%string.
Proof. split; reflexivity. Qed.

Example pushWindow_shifts : JS.pushWindow 3 4 [1; 2; 3] = [2; 3; 4].
Proof. reflexivity. Qed.

Example interOnsetIntervals_three : interOnsetIntervals [1; 3; 6] = [3 - 1; 6 - 3].
Proof. reflexivity. Qed.

(** * Properties *)

(** ** Facts about the JavaScript primitives *)

Lemma ltb_true a b : JS.ltb a b = true <-> a < b.
Proof. unfold JS.ltb; destruct (Rlt_dec a b); split; intros; auto; discriminate. Qed.

Lemma ltb_false a b : JS.ltb a b = false <-> b <= a.
Proof.
  unfold JS.ltb; destruct (Rlt_dec a b); split; intros; auto; try discriminate; lra.
Qed.

Lemma leb_true a b : JS.leb a b = true <-> a <= b.
Proof. unfold JS.leb; destruct (Rle_dec a b); split; intros; auto; discriminate. Qed.

Lemma leb_false a b : JS.leb a b = false <-> b < a.
Proof.
  unfold JS.leb; destruct (Rle_dec a b); split; intros; auto; try discriminate; lra.
Qed.

Lemma round_spec x z : JS.round x = z <-> IZR z - / 2 <= x < IZR z + / 2.
Proof.
  unfold JS.round; split.
  - intros <-. pose proof (Zfloor_bound (x + / 2)). lra.
  - intros Hx. apply Zfloor_eq. lra.
Qed.

Lemma round_IZR z : JS.round (IZR z) = z.
Proof. apply round_spec; lra. Qed.

Lemma ln2_pos : 0 < ln 2.
Proof. rewrite <- ln_1. apply ln_increasing; lra. Qed.

(** [log2 x] against a rational [p / q]: compare [x ^ q] with [2 ^ p]. *)
Lemma log2_lt_ratio x (p q : nat) :
  0 < x -> (0 < q)%nat -> x ^ q < 2 ^ p -> JS.log2 x < INR p / INR q.
Proof.
  intros Hx Hq Hpow. unfold JS.log2.
  assert (Hq' : 0 < INR q) by (apply lt_0_INR; exact Hq).
  pose proof ln2_pos as H2.
  assert (Hln : INR q * ln x < INR p * ln 2).
  { rewrite <- !ln_pow by lra. apply ln_increasing; [apply pow_lt; lra | exact Hpow]. }
  apply (Rmult_lt_reg_r (INR q * ln 2)); [apply Rmult_lt_0_compat; lra|].
  replace (ln x / ln 2 * (INR q * ln 2)) with (INR q * ln x) by (field; lra).
  replace (INR p / INR q * (INR q * ln 2)) with (INR p * ln 2) by (field; lra).
  exact Hln.
Qed.

Lemma log2_ge_ratio x (p q : nat) :
  0 < x -> (0 < q)%nat -> 2 ^ p <= x ^ q -> INR p / INR q <= JS.log2 x.
Proof.
  intros Hx Hq Hpow. unfold JS.log2.
  assert (Hq' : 0 < INR q) by (apply lt_0_INR; exact Hq).
  pose proof ln2_pos as H2.
  assert (Hln : INR p * ln 2 <= INR q * ln x).
  { rewrite <- !ln_pow by lra.
    destruct Hpow as [Hlt | Heq].
    - left; apply ln_increasing; [apply pow_lt; lra | exact Hlt].
    - rewrite Heq; apply Rle_refl. }
  apply (Rmult_le_reg_r (INR q * ln 2)); [apply Rmult_lt_0_compat; lra|].
  replace (ln x / ln 2 * (INR q * ln 2)) with (INR q * ln x) by (field; lra).
  replace (INR p / INR q * (INR q * ln 2)) with (INR p * ln 2) by (field; lra).
  exact Hln.
Qed.

(** The logarithm undoes the power of two that rebuilds a semitone. *)
Lemma log2_div_pow2 f y : 0 < f -> JS.log2 (f / JS.pow2 y) = JS.log2 f - y.
Proof.
  intros Hf. unfold JS.log2, JS.pow2, Rpower.
  assert (Hln : ln (f / exp (y * ln 2)) = ln f - y * ln 2).
  { unfold Rdiv. rewrite ln_mult, ln_Rinv, ln_exp; auto using exp_pos, Rinv_0_lt_compat. }
  rewrite Hln. pose proof ln2_pos. field; lra.
Qed.

(** ** PitchNamer *)

Section PitchNamerFacts.

(** The cents deviation is one hundred times the rounding error. *)
Lemma cents_is_rounding_error f r :
  0 < f ->
  1200 * JS.log2 (f / (440 * JS.pow2 (IZR (r - 69) / 12)))
  = 100 * (12 * JS.log2 (f / 440) + 69 - IZR r).
Proof.
  intros Hf.
  replace (f / (440 * JS.pow2 (IZR (r - 69) / 12)))
    with (f / 440 / JS.pow2 (IZR (r - 69) / 12)).
  - rewrite log2_div_pow2 by lra. rewrite minus_IZR. field.
  - assert (0 < JS.pow2 (IZR (r - 69) / 12)) by apply exp_pos.
    field; lra.
Qed.

Lemma cents_gate_open f :
  0 < f ->
  let r := JS.round (12 * JS.log2 (f / 440) + 69) in
  Rabs (1200 * JS.log2 (f / (440 * JS.pow2 (IZR (r - 69) / 12)))) <= 50.
Proof.
  intros Hf r. rewrite cents_is_rounding_error by exact Hf.
  assert (Hr : JS.round (12 * JS.log2 (f / 440) + 69) = r) by reflexivity.
  apply round_spec in Hr.
  apply Rabs_le. lra.
Qed.



(** Once the rounded pitch number is known and in the piano range, the
    name is read off the chromatic table. *)
Lemma name_of_rounded f r :
  10 < f ->
  JS.round (12 * JS.log2 (f / 440) + 69) = r ->
  (21 <= r <= 108)%Z ->
  frequencyToNoteName f
  = (nameAt (Z.to_nat (Z.rem r 12)) ++ JS.string_of_Z (r / 12 - 1))%string.
Proof.
  intros Hf Hr Hrange. unfold frequencyToNoteName.
  destruct (Req_dec_T f 0); [lra|].
  destruct (Rle_dec f 10); [lra|].
  rewrite Hr.
  replace ((r <? 21) || (108 <? r))%Z with false
    by (symmetry; apply orb_false_iff; split; apply Z.ltb_ge; lia).
  destruct (Rlt_dec 50 _) as [Hgate|_]; [|reflexivity].
  exfalso. pose proof (cents_gate_open f ltac:(lra)) as Hc.
  cbv zeta in Hc. rewrite Hr in Hc. lra.
Qed.

Lemma name_below_10 f : f <= 10 -> frequencyToNoteName f = ""%string.
Proof.
  intros Hf. unfold frequencyToNoteName.
  destruct (Req_dec_T f 0); [reflexivity|].
  destruct (Rle_dec f 10); [reflexivity | lra].
Qed.

Lemma name_440 : frequencyToNoteName 440 = "A4"%string.
Proof.
  rewrite (name_of_rounded 440 69); [reflexivity | lra | | lia].
  apply round_spec.
  pose proof (log2_ge_ratio (440 / 440) 0 1 ltac:(lra) ltac:(lia) ltac:(simpl; lra)) as Hlo.
  pose proof (log2_lt_ratio (440 / 440) 1 24 ltac:(lra) ltac:(lia) ltac:(simpl; lra)) as Hhi.
  simpl in Hlo, Hhi. lra.
Qed.

Lemma name_452 : frequencyToNoteName 452 = "A4"%string.
Proof.
  rewrite (name_of_rounded 452 69); [reflexivity | lra | | lia].
  apply round_spec.
  pose proof (log2_ge_ratio (452 / 440) 0 1 ltac:(lra) ltac:(lia) ltac:(simpl; lra)) as Hlo.
  pose proof (log2_lt_ratio (452 / 440) 1 24 ltac:(lra) ltac:(lia) ltac:(simpl; lra)) as Hhi.
  simpl in Hlo, Hhi. lra.
Qed.

(** 466.5 Hz lies one cent above A#4 (466.16 Hz), not on the boundary
    between A4 and A#4 (452.89 Hz). *)
Lemma name_466_5 : frequencyToNoteName (4665 / 10) = "A#4"%string.
Proof.
  rewrite (name_of_rounded (4665 / 10) 70); [reflexivity | lra | | lia].
  apply round_spec.
  pose proof (log2_ge_ratio (4665 / 10 / 440) 1 24 ltac:(lra) ltac:(lia) ltac:(simpl; lra))
    as Hlo.
  pose proof (log2_lt_ratio (4665 / 10 / 440) 1 8 ltac:(lra) ltac:(lia) ltac:(simpl; lra))
    as Hhi.
  simpl in Hlo, Hhi. lra.
Qed.

End PitchNamerFacts.

(** C3, as the claim states it, fails: [nameOf(466.5)] is not empty. *)
Lemma nameOf_test_vectors_refuted :
  ~ (frequencyToNoteName 440 = "A4"%string
     /\ frequencyToNoteName 5 = ""%string
     /\ frequencyToNoteName 452 = "A4"%string
     /\ frequencyToNoteName (4665 / 10) = ""%string).
Proof.
  intros (_ & _ & _ & H466). rewrite name_466_5 in H466. discriminate.
Qed.

(** C3 (amended): [nameOf(440.0) = "A4"], [nameOf(5)] is empty,
    [nameOf(452) = "A4"] (about 45 cents above A4), and
    [nameOf(466.5) = "A#4"]: 466.5 Hz is about one cent above A#4, its
    rounded pitch number is 70, and the 50-cent gate does not reject it. *)
Theorem nameOf_test_vectors :
  frequencyToNoteName 440 = "A4"%string
  /\ frequencyToNoteName 5 = ""%string
  /\ frequencyToNoteName 452 = "A4"%string
  /\ frequencyToNoteName (4665 / 10) = "A#4"%string.
Proof.
  repeat split.
  - exact name_440.
  - apply name_below_10; lra.
  - exact name_452.
  - exact name_466_5.
Qed.


(** ** The stable sort *)

Section SortFacts.

Context {A : Type} (key : A -> R).


Lemma insertBy_perm x l : Permutation (JS.insertBy key x l) (x :: l).
Proof.
  induction l as [|y l IH]; simpl; [reflexivity|].
  destruct (Rle_dec (key x) (key y)); [reflexivity|].
  rewrite IH. apply perm_swap.
Qed.

Lemma sortBy_perm l : Permutation (JS.sortBy key l) l.
Proof.
  induction l as [|x l IH]; simpl; [reflexivity|].
  rewrite insertBy_perm. now constructor.
Qed.

Lemma sortBy_In x l : In x (JS.sortBy key l) <-> In x l.
Proof.
  split; apply Permutation_in; [|symmetry]; apply sortBy_perm.
Qed.

Lemma sortBy_length l : List.length (JS.sortBy key l) = List.length l.
Proof. apply Permutation_length, sortBy_perm. Qed.

Lemma insertBy_sorted x l :
  StronglySorted (keyLe key) l -> StronglySorted (keyLe key) (JS.insertBy key x l).
Proof.
  induction 1 as [|y l Hs IH Hall]; simpl.
  - repeat constructor.
  - destruct (Rle_dec (key x) (key y)) as [Hle|Hgt].
    + constructor; [constructor; assumption|].
      constructor; [exact Hle|].
      eapply Forall_impl; [|exact Hall]. unfold keyLe; intros; lra.
    + constructor; [exact IH|].
      eapply Permutation_Forall; [symmetry; apply insertBy_perm|].
      constructor; [unfold keyLe; lra | exact Hall].
Qed.

Lemma sortBy_sorted l : StronglySorted (keyLe key) (JS.sortBy key l).
Proof.
  induction l as [|x l IH]; simpl; [constructor | now apply insertBy_sorted].
Qed.

(** Sorting a sorted array changes nothing. *)
Lemma sortBy_of_sorted l : StronglySorted (keyLe key) l -> JS.sortBy key l = l.
Proof.
  induction 1 as [|x l Hs IH Hall]; simpl; [reflexivity|].
  rewrite IH. destruct l as [|y l]; simpl; [reflexivity|].
  inversion Hall; subst.
  destruct (Rle_dec (key x) (key y)); [reflexivity | contradiction].
Qed.

Lemma sortBy_idempotent l : JS.sortBy key (JS.sortBy key l) = JS.sortBy key l.
Proof. apply sortBy_of_sorted, sortBy_sorted. Qed.

End SortFacts.

(** ** The synthetic notes *)


Section SyntheticFacts.

Lemma synthetic_length d : (8 <= List.length (createSyntheticNotes d))%nat.
Proof. unfold createSyntheticNotes. rewrite length_map, length_seq. lia. Qed.

Lemma synthetic_nonempty d : createSyntheticNotes d <> [].
Proof.
  intros Hnil. pose proof (synthetic_length d) as Hlen.
  rewrite Hnil in Hlen. simpl in Hlen. lia.
Qed.

Lemma synthetic_pitch_nonempty i :
  nth (i mod List.length syntheticPitches) syntheticPitches "undefined"%string <> ""%string.
Proof.
  generalize (i mod List.length syntheticPitches)%nat. intros k.
  unfold syntheticPitches.
  do 8 (destruct k as [|k]; [discriminate|]). destruct k; discriminate.
Qed.

Lemma synthetic_In d n :
  In n (createSyntheticNotes d) ->
  exists i : nat,
    (i < Z.to_nat (Z.max 8 (JS.floor (d / (5 / 10)))))%nat
    /\ n = mkNote (nth (i mod List.length syntheticPitches) syntheticPitches "undefined"%string)
                  (INR i * (5 / 10)) (5 / 10 * (9 / 10)) 80.
Proof.
  unfold createSyntheticNotes. intros Hin.
  apply in_map_iff in Hin. destruct Hin as (i & <- & Hi).
  apply in_seq in Hi. exists i. split; [lia | reflexivity].
Qed.

Lemma synthetic_wellFormed d : Forall wellFormed (createSyntheticNotes d).
Proof.
  apply Forall_forall. intros n Hin.
  apply synthetic_In in Hin. destruct Hin as (i & _ & ->).
  split; simpl.
  - unfold MIN_NOTE_DURATION_SECONDS. lra.
  - apply synthetic_pitch_nonempty.
Qed.

Lemma map_seq_sorted (f : nat -> Note) :
  (forall i j, (i <= j)%nat -> startTime (f i) <= startTime (f j)) ->
  forall len start, StronglySorted startsLe (map f (seq start len)).
Proof.
  intros Hmono len. induction len as [|len IH]; intros start; simpl; constructor.
  - apply IH.
  - apply Forall_forall. intros n Hin.
    apply in_map_iff in Hin. destruct Hin as (j & <- & Hj).
    apply in_seq in Hj. apply Hmono. lia.
Qed.

Lemma synthetic_sorted d : StronglySorted startsLe (createSyntheticNotes d).
Proof.
  unfold createSyntheticNotes. apply map_seq_sorted.
  intros i j Hij. simpl. apply le_INR in Hij. lra.
Qed.

(** The placeholder onsets stay below the analysed duration, and below
    four seconds when the floor of eight notes applies. *)
Lemma synthetic_start_bound d n :
  In n (createSyntheticNotes d) -> startTime n < Rmax d 4.
Proof.
  intros Hin. apply synthetic_In in Hin. destruct Hin as (i & Hi & ->). simpl.
  pose proof (Zfloor_bound (d / (5 / 10))) as [Hfl _].
  unfold JS.floor in Hi.
  destruct (Z.max_spec 8 (Zfloor (d / (5 / 10)))) as [[Hlt Hmax]|[Hge Hmax]];
    rewrite Hmax in Hi.
  - assert (Hi' : (Z.of_nat i < Zfloor (d / (5 / 10)))%Z) by lia.
    apply IZR_lt in Hi'. rewrite <- INR_IZR_INZ in Hi'.
    apply Rlt_le_trans with d; [|apply Rmax_l].
    replace d with (d / (5 / 10) * (5 / 10)) at 2 by field. lra.
  - assert (Hi' : (i < 8)%nat) by lia.
    apply lt_INR in Hi'. simpl in Hi'.
    apply Rlt_le_trans with 4; [lra | apply Rmax_r].
Qed.

End SyntheticFacts.

(** ** Filter and merge *)

Section MergeFacts.

Lemma isBlank_empty : JS.isBlank ""%string = true.
Proof. reflexivity. Qed.

Lemma keepNote_wellFormed n : keepNote n = true -> wellFormed n.
Proof.
  unfold keepNote, wellFormed. intros Hkeep.
  destruct (Rlt_dec (duration n) MIN_NOTE_DURATION_SECONDS); [discriminate|].
  destruct (JS.isBlank (pitch n)) eqn:Hblank; [discriminate|].
  split; [lra|]. intros Hempty. rewrite Hempty in Hblank. discriminate.
Qed.

(** The two-step unfolding of the merge loop. *)
Lemma mergeNotes_step x y l :
  mergeNotes (x :: y :: l) =
  if Rlt_dec mergeThreshold (gap x y) then x :: mergeNotes (y :: l)
  else if ((pitch y =? pitch x)%string && JS.ltb (gap x y) mergeThreshold)%bool
  then mkNote (pitch x) (startTime x) (startTime y + duration y - startTime x) (velocity x)
       :: mergeNotes l
  else x :: mergeNotes (y :: l).
Proof. reflexivity. Qed.

(** Induction that follows the loop: it advances by one note or by two. *)
Lemma merge_induction (P : list Note -> Prop) :
  P [] ->
  (forall x, P [x]) ->
  (forall x y l, P (y :: l) -> P l -> P (x :: y :: l)) ->
  forall l, P l.
Proof.
  intros Hnil Hone Hstep l.
  assert (Hboth : P l /\ forall x, P (x :: l)).
  { induction l as [|y l [IHl IHcons]].
    - split; [exact Hnil | exact Hone].
    - split; [apply IHcons|]. intros x. apply Hstep; [apply IHcons | exact IHl]. }
  exact (proj1 Hboth).
Qed.

Lemma mergeNotes_nonempty l : l <> [] -> mergeNotes l <> [].
Proof.
  destruct l as [|x [|y l]]; [congruence | discriminate |].
  intros _. rewrite mergeNotes_step.
  destruct (Rlt_dec _ _); [discriminate|].
  destruct (_ && _)%bool; discriminate.
Qed.

(** Every merged note keeps the pitch and onset of a note of the input. *)
Lemma mergeNotes_origin l :
  forall n, In n (mergeNotes l) ->
  exists m, In m l /\ startTime n = startTime m /\ pitch n = pitch m.
Proof.
  induction l as [|x|x y l IHy IHl] using merge_induction; intros n Hin.
  - contradiction.
  - exists n. destruct Hin as [<-|[]]. simpl; auto.
  - rewrite mergeNotes_step in Hin.
    assert (Hkeep : In n (x :: mergeNotes (y :: l)) ->
                    exists m, In m (x :: y :: l)
                              /\ startTime n = startTime m /\ pitch n = pitch m).
    { intros [<-|Htl]; [exists x; simpl; auto|].
      destruct (IHy n Htl) as (m & Hm & Heq). exists m. simpl in *; tauto. }
    destruct (Rlt_dec _ _) as [Hfar|Hnear]; [auto|].
    destruct (_ && _)%bool; [|auto].
    destruct Hin as [<-|Htl]; [exists x; simpl; auto|].
    destruct (IHl n Htl) as (m & Hm & Heq). exists m. simpl; tauto.
Qed.

Lemma mergeNotes_sorted l :
  StronglySorted startsLe l -> StronglySorted startsLe (mergeNotes l).
Proof.
  induction l as [|x|x y l IHy IHl] using merge_induction; intros Hs.
  - constructor.
  - exact Hs.
  - inversion Hs as [|? ? Hs' Hall]; subst.
    inversion Hs' as [|? ? Hs'' Hall']; subst.
    assert (Hhd : forall h rest,
               startTime h = startTime x ->
               (forall n, In n rest -> exists m, In m (y :: l)
                                                 /\ startTime n = startTime m) ->
               Forall (startsLe h) rest).
    { intros h rest Hh Hrest. apply Forall_forall. intros n Hn.
      destruct (Hrest n Hn) as (m & Hm & Heq).
      rewrite Forall_forall in Hall. specialize (Hall m Hm).
      unfold startsLe in *. lra. }
    assert (Horig : forall l' n, In n (mergeNotes l') ->
                      (forall m, In m l' -> In m (y :: l)) ->
                      exists m, In m (y :: l) /\ startTime n = startTime m).
    { intros l' n Hn Hsub. destruct (mergeNotes_origin l' n Hn) as (m & Hm & Heq & _).
      exists m. auto. }
    rewrite mergeNotes_step.
    destruct (Rlt_dec _ _) as [Hfar|Hnear];
      [constructor; [auto|]; apply Hhd; [reflexivity|]; intros n Hn;
       apply (Horig (y :: l)); auto|].
    destruct (_ && _)%bool.
    + constructor; [auto|]. apply Hhd; [reflexivity|]. intros n Hn.
      apply (Horig l); [exact Hn|]. intros m Hm. right; exact Hm.
    + constructor; [auto|]. apply Hhd; [reflexivity|]. intros n Hn.
      apply (Horig (y :: l)); auto.
Qed.

(** On a list sorted by onset the merged duration covers the next
    note's, so the duration floor survives the merge. *)
Lemma mergeNotes_wellFormed l :
  StronglySorted startsLe l -> Forall wellFormed l -> Forall wellFormed (mergeNotes l).
Proof.
  induction l as [|x|x y l IHy IHl] using merge_induction; intros Hs Hwf.
  - constructor.
  - exact Hwf.
  - inversion Hs as [|? ? Hs' Hall]; subst.
    inversion Hs' as [|? ? Hs'' Hall']; subst.
    inversion Hwf as [|? ? Hx Hwf']; subst.
    inversion Hwf' as [|? ? Hy Hwf'']; subst.
    inversion Hall as [|? ? Hxy _]; subst.
    rewrite mergeNotes_step.
    destruct (Rlt_dec _ _) as [Hfar|Hnear]; [constructor; auto|].
    destruct (_ && _)%bool; [|constructor; auto].
    constructor; [|auto].
    destruct Hx as [_ Hpx], Hy as [Hdy _]. unfold startsLe in Hxy.
    split; simpl; [lra | exact Hpx].
Qed.

(** Filter, sort and merge, on any note list. *)
Lemma postprocess_wellFormed l :
  Forall wellFormed (mergeNotes (JS.sortBy startTime (filter keepNote l))).
Proof.
  apply mergeNotes_wellFormed; [apply sortBy_sorted|].
  apply Forall_forall. intros n Hin.
  apply sortBy_In, filter_In in Hin. apply keepNote_wellFormed, Hin.
Qed.

Lemma postprocess_sorted l :
  StronglySorted startsLe (mergeNotes (JS.sortBy startTime (filter keepNote l))).
Proof. apply mergeNotes_sorted, sortBy_sorted. Qed.

Lemma postprocess_origin l n :
  In n (mergeNotes (JS.sortBy startTime (filter keepNote l))) ->
  exists m, In m l /\ startTime n = startTime m.
Proof.
  intros Hin. destruct (mergeNotes_origin _ _ Hin) as (m & Hm & Heq & _).
  apply sortBy_In, filter_In in Hm. exists m. tauto.
Qed.

(** The pass changes nothing on a list without mergeable neighbours. *)
Lemma mergeNotes_noop l :
  Sorted (fun a b => ~ mergeable a b) l -> mergeNotes l = l.
Proof.
  induction l as [|x|x y l IHy IHl] using merge_induction; intros Hs;
    [reflexivity | reflexivity |].
  inversion Hs as [|? ? Hs' Hhd]; subst. inversion Hhd as [|? ? Hxy]; subst.
  rewrite mergeNotes_step, (IHy Hs').
  destruct (Rlt_dec _ _) as [Hfar|Hnear]; [reflexivity|].
  destruct (pitch y =? pitch x)%string eqn:Hpitch; [|reflexivity].
  destruct (JS.ltb (gap x y) mergeThreshold) eqn:Hgap; [|reflexivity].
  exfalso. apply Hxy. split; [apply String.eqb_eq, Hpitch | apply ltb_true, Hgap].
Qed.

End MergeFacts.


Ltac merge_pair :=
  rewrite mergeNotes_step; unfold gap, mergeThreshold; simpl;
  destruct (Rlt_dec _ _) as [Hfar|_]; [exfalso; lra|];
  match goal with
  | |- context [JS.ltb ?a ?b] =>
      let Hlt := fresh "Hlt" in
      assert (Hlt : JS.ltb a b = true) by (apply ltb_true; lra);
      rewrite Hlt
  end; simpl.

Lemma merge_threeFragments :
  mergeNotes threeFragments
  = [ mkNote "A4" 0 (20 / 100 + 19 / 100 - 0) 80; mkNote "A4" (40 / 100) (19 / 100) 80 ].
Proof. unfold threeFragments. merge_pair. reflexivity. Qed.

Lemma merge_twice_threeFragments :
  mergeNotes (mergeNotes threeFragments)
  = [ mkNote "A4" 0 (40 / 100 + 19 / 100 - 0) 80 ].
Proof. rewrite merge_threeFragments. merge_pair. reflexivity. Qed.

(** C4: the merge pass is not idempotent.  On three fragments of one note
    (same pitch, gaps of 10 ms) the loop merges the first two and steps
    over the third; the output still holds two notes of the same pitch
    10 ms apart, and a second pass merges them into one. *)
Theorem merge_pass_not_idempotent :
  Forall wellFormed threeFragments
  /\ StronglySorted startsLe threeFragments
  /\ mergeNotes threeFragments
     = [ mkNote "A4" 0 (20 / 100 + 19 / 100 - 0) 80; mkNote "A4" (40 / 100) (19 / 100) 80 ]
  /\ mergeNotes (mergeNotes threeFragments) = [ mkNote "A4" 0 (40 / 100 + 19 / 100 - 0) 80 ]
  /\ List.length (mergeNotes threeFragments) = 2%nat
  /\ List.length (mergeNotes (mergeNotes threeFragments)) = 1%nat
  /\ mergeNotes (mergeNotes threeFragments) <> mergeNotes threeFragments.
Proof.
  split; [|split; [|split; [|split; [|split; [|split]]]]].
  - unfold threeFragments, wellFormed, MIN_NOTE_DURATION_SECONDS.
    repeat constructor; simpl; try lra; discriminate.
  - unfold threeFragments, startsLe. repeat constructor; simpl; lra.
  - exact merge_threeFragments.
  - exact merge_twice_threeFragments.
  - rewrite merge_threeFragments. reflexivity.
  - rewrite merge_twice_threeFragments. reflexivity.
  - rewrite merge_twice_threeFragments, merge_threeFragments. discriminate.
Qed.

(** ** NoteDetector: the invariant of the state machine *)


(** The invariant of a state built from parts that satisfy it. *)
Ltac inv_cases :=
  constructor; simpl; auto;
  let Heq := fresh "Heq" in
  intros ? Heq;
  first [discriminate Heq | congruence | injection Heq as <-; simpl; auto].

Section DetectorFacts.

Lemma Sorted_snoc {A} (Rel : A -> A -> Prop) l x :
  Sorted Rel l -> Forall (fun a => Rel a x) l -> Sorted Rel (l ++ [x]).
Proof.
  induction 1 as [|a l Hs IH Hhd]; intros Hall; simpl.
  - repeat constructor.
  - inversion Hall as [|? ? Hax Hall']; subst.
    constructor; [apply IH; exact Hall'|].
    destruct l as [|b l]; simpl; constructor; [exact Hax|].
    inversion Hhd; assumption.
Qed.

Lemma Sorted_adjacent {A} (Rel : A -> A -> Prop) l :
  Sorted Rel l ->
  forall i a b, nth_error l i = Some a -> nth_error l (S i) = Some b -> Rel a b.
Proof.
  induction 1 as [|x l Hs IH Hhd]; intros i a b Ha Hb.
  - destruct i; discriminate.
  - destruct i as [|i]; simpl in Ha, Hb.
    + injection Ha as <-. destruct l as [|y l]; [discriminate|].
      injection Hb as <-. inversion Hhd; assumption.
    + eapply IH; eassumption.
Qed.

Lemma ended_weaken t t' l :
  t <= t' -> Forall (fun n => noteEnd n <= t) l -> Forall (fun n => noteEnd n <= t') l.
Proof. intros Hle. apply Forall_impl. intros n Hn. lra. Qed.

Lemma DetectInv_weaken t t' st : t <= t' -> DetectInv t st -> DetectInv t' st.
Proof.
  intros Hle [Hc He Hf Ho Hp]. constructor; auto. eapply ended_weaken; eauto.
Qed.

Lemma DetectInv_init : DetectInv 0 detectInit.
Proof. constructor; simpl; try constructor; intros; discriminate. Qed.

(** Closing the open note at [endTime] keeps the chain, and the notes have
    ended by [endTime]. *)
Lemma closeNote_inv t st endTime :
  DetectInv t st -> t <= endTime ->
  Sorted precedes (closeNote st endTime)
  /\ Forall (fun n => noteEnd n <= endTime) (closeNote st endTime)
  /\ Forall (fun n => detectMinDuration <= duration n) (closeNote st endTime).
Proof.
  intros [Hc He Hf Ho Hp] Hle.
  assert (Hkeep : Sorted precedes (emitted st)
                  /\ Forall (fun n => noteEnd n <= endTime) (emitted st)
                  /\ Forall (fun n => detectMinDuration <= duration n) (emitted st))
    by (repeat split; eauto using ended_weaken).
  unfold closeNote.
  destruct (currentNote st) as [cur|] eqn:Hcur; [|exact Hkeep].
  destruct (minConsecutiveFrames <=? consecutiveFramesCount st)%nat; [|exact Hkeep].
  destruct (Rle_dec detectMinDuration (endTime - openStart cur)) as [Hlong|_];
    [|exact Hkeep].
  specialize (Ho cur eq_refl).
  repeat split.
  - apply Sorted_snoc; [exact Hc|]. exact Ho.
  - apply Forall_app; split; [eauto using ended_weaken|].
    constructor; [|constructor]. unfold noteEnd; simpl. lra.
  - apply Forall_app; split; [exact Hf|]. constructor; [|constructor]. exact Hlong.
Qed.

(** One frame of the state machine keeps the invariant, whatever the
    frame measured. *)
Lemma advance_inv t st time noteName clarity velocity recent :
  DetectInv t st -> t <= time ->
  DetectInv time (advance st time noteName clarity velocity recent).
Proof.
  intros Hinv Hle.
  destruct (closeNote_inv t st time Hinv Hle) as (Hcc & Hce & Hcf).
  pose proof Hinv as [Hc He Hf Ho Hp].
  pose proof (ended_weaken t time _ Hle He) as He'.
  unfold advance.
  destruct (negb (noteName =? "")%string && JS.leb clarityThreshold clarity)%bool.
  - destruct (noteName =? lastPitchName st)%string; cbn [potentialNoteStart
      consecutiveFramesCount currentNote emitted lastPitchName].
    + destruct (S (consecutiveFramesCount st) =? minConsecutiveFrames)%nat;
        [destruct (potentialNoteStart st) as [p|] eqn:Hpot|];
        try (destruct (currentNote st) as [cur|] eqn:Hcur);
        inv_cases.
    + change (1 =? minConsecutiveFrames)%nat with false. cbv iota. inv_cases.
  - inv_cases.
Qed.

Context `{Platform}.

Lemma detectFrame_inv mono sr rms t st detector i st' detector' :
  DetectInv t st -> t <= INR i / sr ->
  detectFrame mono sr rms (st, detector) i = Ok (st', detector') ->
  DetectInv (INR i / sr) st'.
Proof.
  intros Hinv Hle. unfold detectFrame.
  destruct (if Rlt_dec _ _ then _ else _) as [[[frequency clarity] next]|e]; simpl;
    [|discriminate].
  intros [= <- _]. eapply advance_inv; eauto.
Qed.

(** The frame loop over ascending sample offsets. *)
Lemma detect_loop_inv mono sr rms (Hsr : 0 < sr) :
  forall offsets lo st detector st' detector' hi,
    DetectInv (INR lo / sr) st ->
    StronglySorted le offsets ->
    Forall (fun i => lo <= i <= hi)%nat offsets ->
    (lo <= hi)%nat ->
    JS.forEachM (detectFrame mono sr rms) offsets (st, detector) = Ok (st', detector') ->
    DetectInv (INR hi / sr) st'.
Proof.
  assert (Hmono : forall a b : nat, (a <= b)%nat -> INR a / sr <= INR b / sr).
  { intros a b Hab. apply le_INR in Hab. unfold Rdiv.
    apply Rmult_le_compat_r; [left; apply Rinv_0_lt_compat; exact Hsr | exact Hab]. }
  induction offsets as [|i offsets IH];
    intros lo st detector st' detector' hi Hinv Hsorted Hrange Hlohi Hrun.
  - simpl in Hrun. injection Hrun as <- _.
    eapply DetectInv_weaken; [|exact Hinv]. auto.
  - cbn [JS.forEachM] in Hrun.
    destruct (detectFrame mono sr rms (st, detector) i) as [[st1 detector1]|e] eqn:Hframe;
      cbn [JS.bind] in Hrun; [|discriminate].
    inversion Hrange as [|? ? [Hlo Hhi] Hrange']; subst.
    inversion Hsorted as [|? ? Hsorted' Hall]; subst.
    apply (IH i st1 detector1 st' detector' hi); auto.
    + eapply detectFrame_inv; eauto.
    + rewrite Forall_forall in *. intros j Hj.
      specialize (Hall j Hj). specialize (Hrange' j Hj). lia.
Qed.

Lemma multiples_sorted hop count :
  forall start, StronglySorted le (map (fun k => (k * hop)%nat) (seq start count)).
Proof.
  induction count as [|count IH]; intros start; simpl; constructor; [apply IH|].
  apply Forall_forall. intros j Hj. apply in_map_iff in Hj.
  destruct Hj as (k & <- & Hk). apply in_seq in Hk.
  apply Nat.mul_le_mono_r. lia.
Qed.

Lemma frameStarts_sorted len fs hop : StronglySorted le (JS.frameStarts len fs hop).
Proof.
  unfold JS.frameStarts. destruct (len <? fs)%nat; [constructor|].
  apply multiples_sorted.
Qed.

Lemma frameStarts_bound len fs hop :
  Forall (fun i => 0 <= i <= len)%nat (JS.frameStarts len fs hop).
Proof.
  unfold JS.frameStarts. destruct (len <? fs)%nat eqn:Hshort; [constructor|].
  apply Forall_forall. intros j Hj. apply in_map_iff in Hj.
  destruct Hj as (k & <- & Hk). apply in_seq in Hk.
  split; [lia|].
  destruct hop as [|hop]; [lia|].
  assert (Hk' : (k <= (len - fs) / S hop)%nat) by lia.
  apply (Nat.mul_le_mono_r _ _ (S hop)) in Hk'.
  pose proof (Nat.Div0.mul_div_le (len - fs) (S hop)) as Hdiv.
  lia.
Qed.

(** What [detectNotes] returns, when it returns. *)
Lemma detectNotes_inv mono sr notes :
  0 < sr ->
  detectNotes mono sr = Ok notes ->
  Sorted precedes notes
  /\ Forall (fun n => noteEnd n <= INR (List.length mono) / sr) notes
  /\ Forall (fun n => detectMinDuration <= duration n) notes.
Proof.
  intros Hsr. unfold detectNotes.
  destruct (JS.forEachM _ _ _) as [[st detector]|e] eqn:Hloop; simpl; [|discriminate].
  intros [= <-].
  apply (closeNote_inv (INR (List.length mono) / sr)); [|lra].
  eapply (detect_loop_inv mono sr _ Hsr _ 0%nat); try exact Hloop.
  - simpl. unfold Rdiv. rewrite Rmult_0_l. exact DetectInv_init.
  - apply frameStarts_sorted.
  - apply frameStarts_bound.
  - lia.
Qed.

Lemma forEachM_total {S A} (body : S -> A -> result S) :
  (forall s a, exists s', body s a = Ok s') ->
  forall l s, exists s', JS.forEachM body l s = Ok s'.
Proof.
  intros Hbody. induction l as [|a l IH]; intros s; simpl; [eauto|].
  destruct (Hbody s a) as (s1 & ->). simpl. apply IH.
Qed.

(** [detectNotes] returns whenever the pitch detector does. *)
Lemma detectNotes_total mono sr :
  (forall detector frame, exists out, findPitch detector frame sr = Ok out) ->
  exists notes, detectNotes mono sr = Ok notes.
Proof.
  intros Hdet. unfold detectNotes.
  destruct (forEachM_total (detectFrame mono sr (calculateRMS mono))) with
    (l := JS.frameStarts (List.length mono) frameSize hopSize)
    (s := (detectInit, forFloat32Array frameSize))
    as ([st detector] & ->).
  - intros [s detector] i. unfold detectFrame.
    destruct (Rlt_dec _ _).
    + destruct (Hdet detector (JS.slice mono i (i + frameSize))) as ([[f c] next] & ->).
      simpl. eauto.
    + simpl. eauto.
  - simpl. eauto.
Qed.

End DetectorFacts.

(** *** A sample rate that is not positive *)

Ltac idle_cases :=
  constructor; simpl; auto;
  let Heq := fresh "Heq" in
  intros ? Heq;
  first [discriminate Heq | congruence | injection Heq as <-; simpl; auto; lra].

Section IdleDetector.

Lemma DetectIdle_weaken t t' st : t' <= t -> DetectIdle t st -> DetectIdle t' st.
Proof.
  intros Hle [Hn Ho Hp]. constructor; auto.
  - intros cur Hcur. specialize (Ho cur Hcur). lra.
  - intros p Hpot. specialize (Hp p Hpot). lra.
Qed.

(** No open note is long enough to be emitted. *)
Lemma closeNote_idle t st endTime :
  DetectIdle t st -> endTime <= t -> closeNote st endTime = [].
Proof.
  intros [Hn Ho Hp] Hle. unfold closeNote.
  destruct (currentNote st) as [cur|] eqn:Hcur; [|exact Hn].
  destruct (minConsecutiveFrames <=? consecutiveFramesCount st)%nat; [|exact Hn].
  destruct (Rle_dec detectMinDuration (endTime - openStart cur)) as [Hlong|_];
    [|exact Hn].
  exfalso. specialize (Ho cur eq_refl). unfold detectMinDuration in Hlong. lra.
Qed.

Lemma advance_idle t st time noteName clarity velocity recent :
  DetectIdle t st -> time <= t ->
  DetectIdle time (advance st time noteName clarity velocity recent).
Proof.
  intros Hidle Hle.
  pose proof (closeNote_idle t st time Hidle Hle) as Hclose.
  pose proof (DetectIdle_weaken t time st Hle Hidle) as [Hn Ho Hp].
  unfold advance.
  destruct (negb (noteName =? "")%string && JS.leb clarityThreshold clarity)%bool.
  - destruct (noteName =? lastPitchName st)%string; cbn [potentialNoteStart
      consecutiveFramesCount currentNote emitted lastPitchName].
    + destruct (S (consecutiveFramesCount st) =? minConsecutiveFrames)%nat;
        [destruct (potentialNoteStart st) as [p|] eqn:Hpot|];
        try (destruct (currentNote st) as [cur|] eqn:Hcur);
        idle_cases.
    + change (1 =? minConsecutiveFrames)%nat with false. cbv iota. idle_cases.
  - idle_cases.
Qed.

Context `{Platform}.

Lemma detect_loop_idle mono sr rms (Hsr : sr <= 0) :
  forall offsets lo st detector st' detector' hi,
    DetectIdle (INR lo / sr) st ->
    StronglySorted le offsets ->
    Forall (fun i => lo <= i <= hi)%nat offsets ->
    (lo <= hi)%nat ->
    JS.forEachM (detectFrame mono sr rms) offsets (st, detector) = Ok (st', detector') ->
    DetectIdle (INR hi / sr) st'.
Proof.
  assert (Hinv : / sr <= 0).
  { destruct Hsr as [Hneg|Hzero]; [left; apply Rinv_lt_0_compat; exact Hneg|].
    rewrite Hzero, Rinv_0. lra. }
  assert (Hmono : forall a b : nat, (a <= b)%nat -> INR b / sr <= INR a / sr).
  { intros a b Hab. apply le_INR in Hab. unfold Rdiv.
    rewrite (Rmult_comm (INR b)), (Rmult_comm (INR a)).
    apply Rmult_le_compat_neg_l; assumption. }
  induction offsets as [|i offsets IH];
    intros lo st detector st' detector' hi Hidle Hsorted Hrange Hlohi Hrun.
  - simpl in Hrun. injection Hrun as <- _.
    eapply DetectIdle_weaken; [|exact Hidle]. auto.
  - cbn [JS.forEachM] in Hrun.
    destruct (detectFrame mono sr rms (st, detector) i) as [[st1 detector1]|e] eqn:Hframe;
      cbn [JS.bind] in Hrun; [|discriminate].
    inversion Hrange as [|? ? [Hlo Hhi] Hrange']; subst.
    inversion Hsorted as [|? ? Hsorted' Hall]; subst.
    apply (IH i st1 detector1 st' detector' hi); auto.
    + unfold detectFrame in Hframe.
      destruct (if Rlt_dec _ _ then _ else _) as [[[frequency clarity] next]|e];
        simpl in Hframe; [|discriminate].
      injection Hframe as <- _. eapply advance_idle; eauto.
    + rewrite Forall_forall in *. intros j Hj.
      specialize (Hall j Hj). specialize (Hrange' j Hj). lia.
Qed.

Lemma detectNotes_idle mono sr notes :
  sr <= 0 -> detectNotes mono sr = Ok notes -> notes = [].
Proof.
  intros Hsr. unfold detectNotes.
  destruct (JS.forEachM _ _ _) as [[st detector]|e] eqn:Hloop; simpl; [|discriminate].
  intros [= <-].
  apply (closeNote_idle (INR (List.length mono) / sr)); [|lra].
  eapply (detect_loop_idle mono sr _ Hsr _ 0%nat); try exact Hloop.
  - constructor; simpl; auto; intros; discriminate.
  - apply frameStarts_sorted.
  - apply frameStarts_bound.
  - lia.
Qed.

End IdleDetector.


(** ** TempoEstimator: the band *)

Lemma tempoFromOnsets_band onsets : (60 <= tempoFromOnsets onsets <= 180)%Z.
Proof.
  unfold tempoFromOnsets, minTempo, maxTempo.
  destruct (List.length onsets <? 10)%nat; [lia|].
  destruct (List.length (ioiCandidates onsets) <? 5)%nat; [lia|].
  destruct (Req_dec_T _ 0); lia.
Qed.

Lemma detectTempo_band buffer sampleRate : (60 <= detectTempo buffer sampleRate <= 180)%Z.
Proof. apply tempoFromOnsets_band. Qed.

(** The final [Math.max(60, Math.round(tempo))] leaves the estimate as it is. *)
Lemma final_tempo buffer sampleRate :
  Z.max 60 (JS.round (IZR (detectTempo buffer sampleRate))) = detectTempo buffer sampleRate.
Proof. rewrite round_IZR. pose proof (detectTempo_band buffer sampleRate). lia. Qed.

(** ** AnalysisPipeline *)

Section PipelineFacts.

Context `{Platform}.


(** Reading a returned result back through the [try] block. *)
Lemma analyzeBody_Ok audioFile r :
  analyzeBody audioFile = Ok r ->
  exists original processed mono detected,
    decodeAudioData audioFile = Ok original
    /\ (if Rlt_dec MAX_DURATION_SECONDS (AudioBuffer.duration original)
        then truncateAudioBuffer original MAX_DURATION_SECONDS = Ok processed
             /\ truncated r = true
        else processed = original /\ truncated r = false)
    /\ mixDownToMono processed = Some mono
    /\ detectNotes mono (AudioBuffer.sampleRate processed) = Ok detected
    /\ tempo r = detectTempo mono (AudioBuffer.sampleRate processed)
    /\ (notes r = createSyntheticNotes (AudioBuffer.duration processed)
        \/ notes r = mergeNotes (JS.sortBy startTime
                                   (filter keepNote (candidateNotes detected processed)))
           /\ filter keepNote (candidateNotes detected processed) <> []).
Proof.
  unfold analyzeBody. intros Hrun.
  destruct (decodeAudioData audioFile) as [original|e] eqn:Hdecode; simpl in Hrun;
    [|discriminate].
  exists original.
  assert (Hrest : forall trunc processed,
    (mono <- match mixDownToMono processed with
             | Some m => Ok m
             | None => Throw "Failed to process audio channels into mono."%string
             end ;;
     detected <- detectNotes mono (AudioBuffer.sampleRate processed) ;;
     (let notes0 := if (List.length detected =? 0)%nat
                    then createSyntheticNotes (AudioBuffer.duration processed)
                    else detected in
      let tempo0 := detectTempo mono (AudioBuffer.sampleRate processed) in
      let key0 := detectKey notes0 in
      let ts := detectTimeSignature notes0 tempo0 in
      let finalNotes := filter keepNote notes0 in
      if (List.length finalNotes =? 0)%nat
      then Ok (mkResult (Z.max 60 (JS.round (IZR tempo0))) key0 (orDefault ts "4/4")
                        (createSyntheticNotes (AudioBuffer.duration processed)) trunc)
      else
        let result0 :=
          mkResult (Z.max 60 (JS.round (IZR tempo0))) key0 (orDefault ts "4/4")
                   (mergeNotes (JS.sortBy startTime finalNotes)) trunc in
        match storeAnalysis result0 (fileName audioFile) with
        | Ok _ => Ok result0
        | Throw _ => Ok result0
        end)) = Ok r ->
    exists mono detected,
      mixDownToMono processed = Some mono
      /\ detectNotes mono (AudioBuffer.sampleRate processed) = Ok detected
      /\ truncated r = trunc
      /\ tempo r = detectTempo mono (AudioBuffer.sampleRate processed)
      /\ (notes r = createSyntheticNotes (AudioBuffer.duration processed)
          \/ notes r = mergeNotes (JS.sortBy startTime
                                     (filter keepNote (candidateNotes detected processed)))
             /\ filter keepNote (candidateNotes detected processed) <> [])).
  { intros trunc processed Hbody.
    destruct (mixDownToMono processed) as [mono|] eqn:Hmono; simpl in Hbody;
      [|discriminate].
    destruct (detectNotes mono (AudioBuffer.sampleRate processed)) as [detected|e]
      eqn:Hdetect; simpl in Hbody; [|discriminate].
    exists mono, detected. fold (candidateNotes detected processed) in Hbody.
    destruct (List.length (filter keepNote (candidateNotes detected processed)) =? 0)%nat
      eqn:Hempty.
    - injection Hbody as <-. simpl. rewrite final_tempo. auto 10.
    - assert (Hr : r = mkResult
                (Z.max 60 (JS.round (IZR (detectTempo mono (AudioBuffer.sampleRate processed)))))
                (detectKey (candidateNotes detected processed))
                (orDefault (detectTimeSignature (candidateNotes detected processed)
                              (detectTempo mono (AudioBuffer.sampleRate processed))) "4/4")
                (mergeNotes (JS.sortBy startTime
                               (filter keepNote (candidateNotes detected processed))))
                trunc).
      { cbv zeta in Hbody. destruct (storeAnalysis _ _); congruence. }
      subst r. simpl. rewrite final_tempo.
      repeat split; auto. right. split; [reflexivity|].
      intros Hnil. rewrite Hnil in Hempty. discriminate. }
  destruct (Rlt_dec MAX_DURATION_SECONDS (AudioBuffer.duration original)) as [Hlong|Hshort].
  - destruct (truncateAudioBuffer original MAX_DURATION_SECONDS) as [processed|e]
      eqn:Htrunc; simpl in Hrun; [|discriminate].
    destruct (Hrest true processed Hrun) as (mono & detected & Hm & Hd & Ht & Hrest').
    exists processed, mono, detected. tauto.
  - simpl in Hrun.
    destruct (Hrest false original Hrun) as (mono & detected & Hm & Hd & Ht & Hrest').
    exists original, mono, detected. tauto.
Qed.

Lemma analyzed_notes_nonempty audioFile : notes (analyzeAudio audioFile) <> [].
Proof.
  unfold analyzeAudio.
  destruct (analyzeBody audioFile) as [r|e] eqn:Hrun; [|apply synthetic_nonempty].
  apply analyzeBody_Ok in Hrun.
  destruct Hrun as (original & processed & mono & detected & _ & _ & _ & _ & _ & Hnotes).
  destruct Hnotes as [-> | [-> Hne]]; [apply synthetic_nonempty|].
  apply mergeNotes_nonempty. intros Hnil. apply Hne.
  apply length_zero_iff_nil. rewrite <- (sortBy_length startTime), Hnil. reflexivity.
Qed.

Lemma analyzed_tempo_band audioFile : (60 <= tempo (analyzeAudio audioFile) <= 180)%Z.
Proof.
  unfold analyzeAudio.
  destruct (analyzeBody audioFile) as [r|e] eqn:Hrun; [|simpl; lia].
  apply analyzeBody_Ok in Hrun.
  destruct Hrun as (original & processed & mono & detected & _ & _ & _ & _ & -> & _).
  apply detectTempo_band.
Qed.

Lemma analyzed_notes_shape audioFile :
  Forall wellFormed (notes (analyzeAudio audioFile))
  /\ StronglySorted startsLe (notes (analyzeAudio audioFile)).
Proof.
  unfold analyzeAudio.
  destruct (analyzeBody audioFile) as [r|e] eqn:Hrun;
    [|split; [apply synthetic_wellFormed | apply synthetic_sorted]].
  apply analyzeBody_Ok in Hrun.
  destruct Hrun as (original & processed & mono & detected & _ & _ & _ & _ & _ & Hnotes).
  destruct Hnotes as [-> | [-> _]].
  - split; [apply synthetic_wellFormed | apply synthetic_sorted].
  - split; [apply postprocess_wellFormed | apply postprocess_sorted].
Qed.

End PipelineFacts.

(** C1: for every input, [analyzeAudio] returns a result whose note list is
    non-empty and whose tempo is an integer between 60 and 180; the result
    of the [catch] block and the two synthetic-note fallbacks included. *)
Theorem analyze_notes_nonempty_tempo_in_band `{Platform} (audioFile : File) :
  notes (analyzeAudio audioFile) <> []
  /\ (60 <= tempo (analyzeAudio audioFile) <= 180)%Z.
Proof.
  split; [apply analyzed_notes_nonempty | apply analyzed_tempo_band].
Qed.

(** C5: every note of the result of [analyzeAudio] lasts at least
    [MIN_NOTE_DURATION_SECONDS] = 0.12 s and has a non-empty pitch, and the
    notes are sorted by [startTime], ascending.  A result the [try] block
    returns is the result of [analyzeAudio], so this covers the non-error
    path (filter, sort, merge and both placeholder fallbacks); it holds of
    the [catch] block's result as well. *)
Theorem result_notes_well_formed_sorted `{Platform} (audioFile : File) :
  MIN_NOTE_DURATION_SECONDS = 12 / 100
  /\ (forall r, analyzeBody audioFile = Ok r -> analyzeAudio audioFile = r)
  /\ Forall (fun n => MIN_NOTE_DURATION_SECONDS <= duration n /\ pitch n <> ""%string)
            (notes (analyzeAudio audioFile))
  /\ StronglySorted (fun a b => startTime a <= startTime b) (notes (analyzeAudio audioFile)).
Proof.
  split; [reflexivity|]. split.
  - intros r Hrun. unfold analyzeAudio. rewrite Hrun. reflexivity.
  - apply analyzed_notes_shape.
Qed.

(** ** Truncation *)

Section TruncationFacts.

Context `{Platform}.

Lemma setInto_length len source : List.length (JS.setInto len source) = len.
Proof.
  unfold JS.setInto. rewrite length_app, repeat_length.
  pose proof (firstn_le_length len source). lia.
Qed.

Lemma mixDownToMono_length b mono :
  mixDownToMono b = Some mono -> List.length mono = AudioBuffer.length b.
Proof.
  unfold mixDownToMono.
  destruct (AudioBuffer.numberOfChannels b =? 1)%nat; intros [= <-].
  - apply setInto_length.
  - rewrite length_map, length_seq. reflexivity.
Qed.

(** A buffer of positive duration has a positive sample rate. *)
Lemma positive_duration_rate b :
  0 < AudioBuffer.duration b -> 0 < AudioBuffer.sampleRate b.
Proof.
  unfold AudioBuffer.duration, Rdiv. intros Hdur.
  destruct (Rlt_dec 0 (AudioBuffer.sampleRate b)) as [Hpos|Hneg]; [exact Hpos|].
  exfalso.
  assert (Hinv : / AudioBuffer.sampleRate b <= 0).
  { destruct (Req_dec_T (AudioBuffer.sampleRate b) 0) as [Hzero|Hnz].
    - rewrite Hzero, Rinv_0. lra.
    - left. apply Rinv_lt_0_compat. lra. }
  pose proof (pos_INR (AudioBuffer.length b)) as Hlen.
  assert (INR (AudioBuffer.length b) * / AudioBuffer.sampleRate b <= 0)
    by (rewrite <- (Rmult_0_r (INR (AudioBuffer.length b)));
        apply Rmult_le_compat_l; lra).
  lra.
Qed.

(** The truncated buffer keeps the sample rate and is no longer than the cap. *)
Lemma truncate_Ok b cap processed :
  0 < AudioBuffer.sampleRate b ->
  truncateAudioBuffer b cap = Ok processed ->
  AudioBuffer.sampleRate processed = AudioBuffer.sampleRate b
  /\ AudioBuffer.duration processed <= cap.
Proof.
  intros Hsr. unfold truncateAudioBuffer.
  destruct (JS.floor (cap * AudioBuffer.sampleRate b) <=? 0)%Z eqn:Hlen;
    [simpl; discriminate|].
  destruct (AudioBuffer.numberOfChannels b =? 0)%nat; simpl; [discriminate|].
  intros [= <-]. split; [reflexivity|].
  unfold AudioBuffer.duration; simpl.
  apply Z.leb_gt in Hlen.
  rewrite INR_IZR_INZ, Z2Nat.id by lia.
  pose proof (Zfloor_bound (cap * AudioBuffer.sampleRate b)) as [Hfloor _].
  unfold JS.floor.
  apply (Rmult_le_reg_r (AudioBuffer.sampleRate b)); [exact Hsr|].
  replace (IZR (Zfloor (cap * AudioBuffer.sampleRate b)) / AudioBuffer.sampleRate b
           * AudioBuffer.sampleRate b)
    with (IZR (Zfloor (cap * AudioBuffer.sampleRate b))) by (field; lra).
  exact Hfloor.
Qed.

(** Every onset in a returned result lies before the end of the processed
    buffer, or before four seconds when the eight placeholders apply. *)
Lemma result_onsets_bounded audioFile r original processed :
  analyzeBody audioFile = Ok r ->
  decodeAudioData audioFile = Ok original ->
  (if Rlt_dec MAX_DURATION_SECONDS (AudioBuffer.duration original)
   then truncateAudioBuffer original MAX_DURATION_SECONDS = Ok processed
   else processed = original) ->
  0 < AudioBuffer.sampleRate processed ->
  forall n, In n (notes r) -> startTime n < Rmax (AudioBuffer.duration processed) 4.
Proof.
  intros Hrun Hdecode Hproc Hsr n Hin.
  apply analyzeBody_Ok in Hrun.
  destruct Hrun as (original' & processed' & mono & detected & Hdecode' & Hproc' & Hmono
                    & Hdetect & _ & Hnotes).
  rewrite Hdecode in Hdecode'. injection Hdecode' as <-.
  assert (processed' = processed) as ->.
  { destruct (Rlt_dec _ _); [|destruct Hproc'; congruence].
    destruct Hproc' as [Hproc' _]. congruence. }
  assert (Hcand : forall m, In m (candidateNotes detected processed) ->
                    startTime m < Rmax (AudioBuffer.duration processed) 4).
  { intros m Hm. unfold candidateNotes in Hm.
    destruct (List.length detected =? 0)%nat; [apply synthetic_start_bound; exact Hm|].
    destruct (detectNotes_inv _ _ _ Hsr Hdetect) as (_ & Hended & Hfloor).
    rewrite Forall_forall in Hended, Hfloor.
    specialize (Hended m Hm). specialize (Hfloor m Hm).
    rewrite (mixDownToMono_length _ _ Hmono) in Hended.
    unfold noteEnd, detectMinDuration in *.
    apply Rlt_le_trans with (AudioBuffer.duration processed); [|apply Rmax_l].
    unfold AudioBuffer.duration. lra. }
  destruct Hnotes as [Hsyn | [Hpost _]].
  - rewrite Hsyn in Hin. apply synthetic_start_bound. exact Hin.
  - rewrite Hpost in Hin. apply postprocess_origin in Hin.
    destruct Hin as (m & Hm & ->). apply Hcand. exact Hm.
Qed.

(** The [try] block returns when the decoder and the detector do and the
    truncated buffer is not empty. *)
Lemma analyzeBody_returns audioFile original :
  decodeAudioData audioFile = Ok original ->
  (forall detector frame sr, exists out, findPitch detector frame sr = Ok out) ->
  (MAX_DURATION_SECONDS < AudioBuffer.duration original ->
   1 <= MAX_DURATION_SECONDS * AudioBuffer.sampleRate original
   /\ AudioBuffer.channels original <> []) ->
  exists r, analyzeBody audioFile = Ok r.
Proof.
  intros Hdecode Hdet Hlong. unfold analyzeBody. rewrite Hdecode. simpl.
  assert (Hrest : forall trunc processed, exists r,
    (mono <- match mixDownToMono processed with
             | Some m => Ok m
             | None => Throw "Failed to process audio channels into mono."%string
             end ;;
     detected <- detectNotes mono (AudioBuffer.sampleRate processed) ;;
     (let notes0 := if (List.length detected =? 0)%nat
                    then createSyntheticNotes (AudioBuffer.duration processed)
                    else detected in
      let tempo0 := detectTempo mono (AudioBuffer.sampleRate processed) in
      let key0 := detectKey notes0 in
      let ts := detectTimeSignature notes0 tempo0 in
      let finalNotes := filter keepNote notes0 in
      if (List.length finalNotes =? 0)%nat
      then Ok (mkResult (Z.max 60 (JS.round (IZR tempo0))) key0 (orDefault ts "4/4")
                        (createSyntheticNotes (AudioBuffer.duration processed)) trunc)
      else
        let result0 :=
          mkResult (Z.max 60 (JS.round (IZR tempo0))) key0 (orDefault ts "4/4")
                   (mergeNotes (JS.sortBy startTime finalNotes)) trunc in
        match storeAnalysis result0 (fileName audioFile) with
        | Ok _ => Ok result0
        | Throw _ => Ok result0
        end)) = Ok r).
  { intros trunc processed.
    assert (Hmono : exists mono, mixDownToMono processed = Some mono)
      by (unfold mixDownToMono; destruct (_ =? 1)%nat; eauto).
    destruct Hmono as (mono & ->). simpl.
    destruct (detectNotes_total mono (AudioBuffer.sampleRate processed)) as (detected & ->);
      [intros detector frame; apply Hdet|]. simpl.
    destruct (_ =? 0)%nat; [eauto|].
    destruct (storeAnalysis _ _); eauto. }
  destruct (Rlt_dec MAX_DURATION_SECONDS (AudioBuffer.duration original)) as [Hgt|Hle].
  - destruct (Hlong Hgt) as [Hone Hch].
    unfold truncateAudioBuffer.
    assert (Hlen : (JS.floor (MAX_DURATION_SECONDS * AudioBuffer.sampleRate original) <=? 0)%Z
                   = false).
    { apply Z.leb_gt. unfold JS.floor.
      assert (1 <= Zfloor (MAX_DURATION_SECONDS * AudioBuffer.sampleRate original))%Z
        by (apply Zfloor_lub; exact Hone).
      lia. }
    rewrite Hlen.
    assert (Hnum : (AudioBuffer.numberOfChannels original =? 0)%nat = false).
    { apply Nat.eqb_neq. unfold AudioBuffer.numberOfChannels.
      destruct (AudioBuffer.channels original); [congruence | simpl; lia]. }
    rewrite Hnum. cbn [orb].
    set (processed := AudioBuffer.make _ _ _). clearbody processed.
    simpl. apply Hrest.
  - simpl. apply Hrest.
Qed.

End TruncationFacts.

(** C8: a decoded buffer of 90 seconds is truncated: every result the
    [try] block returns for it has [truncated = true] and no note, detected
    or synthetic, with [startTime >= 60]; and the block does return when
    the detector does not throw and the buffer holds at least one channel
    and one sample per minute. *)
Theorem truncation_of_90s_buffer `{Platform} (audioFile : File) (original : AudioBuffer.t) :
  decodeAudioData audioFile = Ok original ->
  AudioBuffer.duration original = 90 ->
  (forall r, analyzeBody audioFile = Ok r ->
             truncated r = true /\ forall n, In n (notes r) -> ~ (60 <= startTime n))
  /\ ((forall detector frame sr, exists out, findPitch detector frame sr = Ok out) ->
      1 <= 60 * AudioBuffer.sampleRate original ->
      AudioBuffer.channels original <> [] ->
      exists r, analyzeBody audioFile = Ok r).
Proof.
  intros Hdecode Hdur.
  assert (Hsr : 0 < AudioBuffer.sampleRate original)
    by (apply positive_duration_rate; lra).
  split.
  - intros r Hrun.
    pose proof Hrun as Hinv. apply analyzeBody_Ok in Hinv.
    destruct Hinv as (original' & processed & mono & detected & Hdecode' & Hproc & _).
    rewrite Hdecode in Hdecode'. injection Hdecode' as <-.
    unfold MAX_DURATION_SECONDS in Hproc.
    destruct (Rlt_dec 60 (AudioBuffer.duration original)) as [_|Hshort]; [|lra].
    destruct Hproc as [Htrunc Hflag]. split; [exact Hflag|].
    destruct (truncate_Ok _ _ _ Hsr Htrunc) as [Hrate Hcap].
    intros n Hin.
    assert (Hbound : startTime n < Rmax (AudioBuffer.duration processed) 4).
    { apply (result_onsets_bounded audioFile r original processed); auto.
      - unfold MAX_DURATION_SECONDS.
        destruct (Rlt_dec 60 (AudioBuffer.duration original)); [exact Htrunc | lra].
      - rewrite Hrate. exact Hsr. }
    assert (Rmax (AudioBuffer.duration processed) 4 <= 60)
      by (apply Rmax_lub; lra).
    lra.
  - intros Hdet Hone Hch. apply (analyzeBody_returns audioFile original); auto.
Qed.

Lemma INR_90 : INR 90 = 90.
Proof. rewrite INR_IZR_INZ. reflexivity. Qed.

Lemma truncation_of_90s_buffer_witness :
  @decodeAudioData silentPlatform tt = Ok ninetySeconds
  /\ AudioBuffer.duration ninetySeconds = 90
  /\ (forall r, @analyzeBody silentPlatform tt = Ok r ->
                truncated r = true /\ forall n, In n (notes r) -> ~ (60 <= startTime n))
  /\ exists r, @analyzeBody silentPlatform tt = Ok r.
Proof.
  assert (Hdur : AudioBuffer.duration ninetySeconds = 90).
  { unfold AudioBuffer.duration, ninetySeconds, AudioBuffer.length, AudioBuffer.sampleRate.
    rewrite INR_90. lra. }
  destruct (@truncation_of_90s_buffer silentPlatform tt ninetySeconds eq_refl Hdur)
    as [Hsafe Hreturns].
  repeat split; auto.
  - apply Hsafe; assumption.
  - intros n Hin. eapply Hsafe; eassumption.
  - apply Hreturns.
    + intros detector frame sr. exists (0, 0, detector). reflexivity.
    + simpl. lra.
    + discriminate.
Defined.

(** ** The [catch] block *)

Section CatchFacts.

Context `{Platform}.

Lemma safeDefault_note_count : List.length (createSyntheticNotes 5) = 10%nat.
Proof.
  unfold createSyntheticNotes. rewrite length_map, length_seq.
  assert (Hfloor : JS.floor (5 / (5 / 10)) = 10%Z)
    by (apply Zfloor_eq; lra).
  rewrite Hfloor. reflexivity.
Qed.

(** A decoder failure reaches the [catch] block. *)
Lemma decode_failure_caught audioFile e :
  decodeAudioData audioFile = Throw e -> analyzeBody audioFile = Throw e.
Proof. intros Hdecode. unfold analyzeBody. rewrite Hdecode. reflexivity. Qed.

(** A failure of the pitch detector inside [detectNotes] reaches it too. *)
Lemma detector_failure_caught audioFile original mono e :
  decodeAudioData audioFile = Ok original ->
  ~ MAX_DURATION_SECONDS < AudioBuffer.duration original ->
  mixDownToMono original = Some mono ->
  detectNotes mono (AudioBuffer.sampleRate original) = Throw e ->
  analyzeBody audioFile = Throw e.
Proof.
  intros Hdecode Hshort Hmono Hdetect. unfold analyzeBody.
  rewrite Hdecode. simpl.
  destruct (Rlt_dec MAX_DURATION_SECONDS (AudioBuffer.duration original)); [contradiction|].
  simpl. rewrite Hmono. simpl. rewrite Hdetect. reflexivity.
Qed.

(** A failure of the optional store is swallowed where it happens: the
    [try] block returns whatever [storeAnalysis] does. *)
Lemma store_failure_ignored audioFile original :
  decodeAudioData audioFile = Ok original ->
  ~ MAX_DURATION_SECONDS < AudioBuffer.duration original ->
  (forall detector frame sr, exists out, findPitch detector frame sr = Ok out) ->
  exists r, analyzeBody audioFile = Ok r.
Proof.
  intros Hdecode Hshort Hdet.
  apply (analyzeBody_returns audioFile original); auto. intros Hlong. contradiction.
Qed.

End CatchFacts.

(** C2: whenever a step of the [try] block of [analyzeAudio] throws, the
    caller receives the safe default: tempo 120, key "C Major", time
    signature "4/4", the synthetic notes of [createSyntheticNotes(5)] (ten
    of them) and [truncated = false].  [analyzeAudio] itself is a total
    function into results: no failure leaves it. *)
Theorem analyze_catches_errors `{Platform} (audioFile : File) (e : string) :
  analyzeBody audioFile = Throw e ->
  analyzeAudio audioFile = safeDefault
  /\ tempo (analyzeAudio audioFile) = 120%Z
  /\ key (analyzeAudio audioFile) = "C Major"%string
  /\ timeSignature (analyzeAudio audioFile) = "4/4"%string
  /\ notes (analyzeAudio audioFile) = createSyntheticNotes 5
  /\ List.length (notes (analyzeAudio audioFile)) = 10%nat
  /\ truncated (analyzeAudio audioFile) = false.
Proof.
  intros Hthrow. unfold analyzeAudio. rewrite Hthrow.
  repeat split. apply safeDefault_note_count.
Qed.

Lemma analyze_catches_errors_witness :
  @analyzeBody rejectingPlatform tt = Throw "EncodingError"%string
  /\ @analyzeAudio rejectingPlatform tt = safeDefault
  /\ tempo (@analyzeAudio rejectingPlatform tt) = 120%Z
  /\ truncated (@analyzeAudio rejectingPlatform tt) = false.
Proof.
  assert (Hthrow : @analyzeBody rejectingPlatform tt = Throw "EncodingError"%string)
    by reflexivity.
  destruct (@analyze_catches_errors rejectingPlatform tt _ Hthrow)
    as (Hdefault & Htempo & _ & _ & _ & _ & Htrunc).
  repeat split; assumption.
Defined.

(** ** TempoEstimator: the estimate *)

Section TempoFacts.

Lemma tempoRangeCheck_spec val :
  tempoRangeCheck val = true <-> 60 / 180 <= val <= 60 / 60.
Proof.
  unfold tempoRangeCheck, maxTempo, minTempo.
  rewrite andb_true_iff, !leb_true. tauto.
Qed.

(** The loop appends, for each interval in turn, those of the interval,
    its double and its half that pass the range check. *)
Lemma ioiLoop_spec rest :
  forall prev iois,
    ioiLoop prev rest iois
    = iois ++ filter tempoRangeCheck
                (flat_map (fun ioi => [ioi; ioi * 2; ioi / 2])
                          (interOnsetIntervals (prev :: rest))).
Proof.
  induction rest as [|cur rest IH]; intros prev iois.
  - simpl. rewrite app_nil_r. reflexivity.
  - cbn [ioiLoop]. cbv zeta. rewrite IH.
    change (interOnsetIntervals (prev :: cur :: rest))
      with ((cur - prev) :: interOnsetIntervals (cur :: rest)).
    cbn [flat_map]. rewrite <- app_comm_cons. cbn [app filter].
    destruct (tempoRangeCheck (cur - prev));
      destruct (tempoRangeCheck ((cur - prev) * 2));
      destruct (tempoRangeCheck ((cur - prev) / 2));
      rewrite <- ?app_assoc; reflexivity.
Qed.

Lemma ioiCandidates_spec onsets : ioiCandidates onsets = survivingCandidates onsets.
Proof.
  unfold ioiCandidates, survivingCandidates.
  destruct onsets as [|first rest]; [reflexivity|].
  rewrite ioiLoop_spec. reflexivity.
Qed.

(** [median] sorts a copy, so sorting its argument first changes nothing. *)
Lemma median_sorted values : median (JS.sortBy (fun v => v) values) = median values.
Proof.
  unfold median. rewrite sortBy_idempotent, sortBy_length. reflexivity.
Qed.

(** The median of positive numbers is positive. *)
Lemma median_pos values :
  values <> [] -> Forall (fun v => 0 < v) values -> 0 < median values.
Proof.
  intros Hne Hpos. unfold median.
  assert (Hlen : (0 < List.length values)%nat)
    by (destruct values; [congruence | simpl; lia]).
  destruct (List.length values =? 0)%nat eqn:Hzero;
    [apply Nat.eqb_eq in Hzero; lia|].
  assert (Hnth : forall i, (i < List.length values)%nat ->
                   0 < nth i (JS.sortBy (fun v => v) values) 0).
  { intros i Hi. rewrite Forall_forall in Hpos. apply Hpos.
    apply (sortBy_In (fun v => v)). apply nth_In. rewrite sortBy_length. exact Hi. }
  rewrite sortBy_length.
  assert (Hmid : (List.length values / 2 < List.length values)%nat)
    by (apply Nat.div_lt; lia).
  destruct (negb _).
  - apply Hnth. exact Hmid.
  - pose proof (Hnth _ Hmid). pose proof (Hnth (List.length values / 2 - 1)%nat ltac:(lia)).
    lra.
Qed.

Lemma candidates_positive onsets : Forall (fun v => 0 < v) (survivingCandidates onsets).
Proof.
  apply Forall_forall. intros v Hv. unfold survivingCandidates in Hv.
  apply filter_In in Hv. destruct Hv as [_ Hcheck].
  apply tempoRangeCheck_spec in Hcheck. lra.
Qed.

Lemma tempoFromOnsets_spec onsets : tempoFromOnsets onsets = specTempo onsets.
Proof.
  unfold tempoFromOnsets, specTempo, clamp, minTempo, maxTempo.
  rewrite ioiCandidates_spec.
  destruct (List.length onsets <? 10)%nat; [reflexivity|].
  destruct (List.length (survivingCandidates onsets) <? 5)%nat eqn:Hfew; [reflexivity|].
  cbn [orb]. rewrite median_sorted.
  destruct (Req_dec_T (median (survivingCandidates onsets)) 0) as [Hzero|_];
    [|reflexivity].
  exfalso.
  assert (Hpos : 0 < median (survivingCandidates onsets)).
  { apply median_pos; [|apply candidates_positive].
    intros Hnil. rewrite Hnil in Hfew. discriminate. }
  lra.
Qed.

End TempoFacts.

(** C6: [detectTempo] returns the default 120 when fewer than 10 onsets
    were detected or fewer than 5 candidates survive the range check
    [60/180 <= v <= 60/60] applied to each inter-onset interval, its
    double and its half; otherwise it returns
    [clamp(60, 180, round(60 / medianIOI))], with [medianIOI] the median
    of the surviving candidates. *)
Theorem detectTempo_rule (buffer : list R) (sampleRate : R) :
  let onsets := detectOnsets buffer sampleRate in
  let candidates :=
    filter tempoRangeCheck
           (flat_map (fun ioi => [ioi; ioi * 2; ioi / 2]) (interOnsetIntervals onsets)) in
  (forall v, tempoRangeCheck v = true <-> 60 / 180 <= v <= 60 / 60)
  /\ ((List.length onsets < 10)%nat \/ (List.length candidates < 5)%nat ->
      detectTempo buffer sampleRate = 120%Z)
  /\ (~ ((List.length onsets < 10)%nat \/ (List.length candidates < 5)%nat) ->
      detectTempo buffer sampleRate
      = Z.max 60 (Z.min 180 (JS.round (60 / median candidates)))).
Proof.
  intros onsets candidates.
  assert (Hspec : detectTempo buffer sampleRate = specTempo onsets)
    by apply tempoFromOnsets_spec.
  unfold specTempo, clamp in Hspec. fold candidates in Hspec.
  change (survivingCandidates onsets) with candidates in Hspec.
  split; [exact tempoRangeCheck_spec|]. split.
  - intros Hfew. rewrite Hspec.
    destruct Hfew as [Hfew|Hfew]; apply Nat.ltb_lt in Hfew; rewrite Hfew;
      [|rewrite orb_true_r]; reflexivity.
  - intros Henough. rewrite Hspec.
    destruct (List.length onsets <? 10)%nat eqn:Honsets;
      [apply Nat.ltb_lt in Honsets; tauto|].
    destruct (List.length candidates <? 5)%nat eqn:Hcands;
      [apply Nat.ltb_lt in Hcands; tauto|].
    reflexivity.
Qed.

Lemma detectTempo_rule_witness :
  (List.length (detectOnsets [] 44100) < 10)%nat /\ detectTempo [] 44100 = 120%Z.
Proof.
  assert (Hfew : (List.length (detectOnsets [] 44100) < 10)%nat) by (simpl; lia).
  split; [exact Hfew|].
  apply (proj1 (proj2 (detectTempo_rule [] 44100))). left. exact Hfew.
Defined.

(** ** KeyEstimator: the choice among the candidates *)

Section KeyFacts.

Variable npc : list R.

Lemma keyStep_compares best i :
  keyStep npc best i
  = compareCandidate npc (compareCandidate npc best (i, true)) (i, false).
Proof. reflexivity. Qed.

Lemma fold_left_flat_map {A B C} (f : A -> B -> A) (g : C -> list B) l :
  forall a, fold_left f (flat_map g l) a = fold_left (fun a c => fold_left f (g c) a) l a.
Proof.
  induction l as [|c l IH]; intros a; simpl; [reflexivity|].
  rewrite fold_left_app. apply IH.
Qed.

(** The nested loop is one pass over the 24 candidates. *)
Lemma bestKey_one_pass :
  bestKey npc = fold_left (compareCandidate npc) keyCandidates (mkBest 0 true None).
Proof.
  unfold bestKey, keyCandidates. rewrite fold_left_flat_map. reflexivity.
Qed.

(** A pass that starts from a best score [m]: either nothing exceeds [m],
    or the pass ends on the first candidate that attains the largest
    score. *)
Lemma pass_from_best l :
  forall best m best',
    maxCorrelation best = Some m ->
    fold_left (compareCandidate npc) l best = best' ->
    (best' = best /\ forall c, In c l -> correlationOf npc c <= m)
    \/ (exists before after,
          l = before ++ chosen best' :: after
          /\ m < correlationOf npc (chosen best')
          /\ (forall c, In c before -> correlationOf npc c < correlationOf npc (chosen best'))
          /\ (forall c, In c after -> correlationOf npc c <= correlationOf npc (chosen best'))).
Proof.
  induction l as [|c l IH]; intros best m best' Hm Hrun; cbn [fold_left] in Hrun.
  - left. split; [congruence | intros c []].
  - destruct (JS.ltb m (correlationOf npc c)) eqn:Hcmp.
    + assert (Hstep : compareCandidate npc best c
                      = mkBest (fst c) (snd c) (Some (correlationOf npc c)))
        by (unfold compareCandidate; rewrite Hm; cbn [exceeds]; rewrite Hcmp; reflexivity).
      rewrite Hstep in Hrun. apply ltb_true in Hcmp.
      destruct (IH (mkBest (fst c) (snd c) (Some (correlationOf npc c)))
                   (correlationOf npc c) best' eq_refl Hrun)
        as [[Hsame Hrest] | (before & after & Hsplit & Hgt & Hbefore & Hafter)].
      * right. exists [], l. rewrite Hsame.
        unfold chosen; cbn [bestKeyIndex bestKeyIsMajor].
        rewrite <- surjective_pairing.
        repeat split; auto. intros c' [].
      * right. exists (c :: before), after.
        repeat split; auto.
        -- simpl. f_equal. exact Hsplit.
        -- lra.
        -- intros c' [<- | Hc']; [lra | auto].
    + assert (Hstep : compareCandidate npc best c = best)
        by (unfold compareCandidate; rewrite Hm; cbn [exceeds]; rewrite Hcmp; reflexivity).
      rewrite Hstep in Hrun. apply ltb_false in Hcmp.
      destruct (IH _ m _ Hm Hrun)
        as [[Hsame Hrest] | (before & after & Hsplit & Hgt & Hbefore & Hafter)].
      * left. split; [exact Hsame|]. intros c' [<- | Hc']; auto.
      * right. exists (c :: before), after.
        repeat split; auto.
        -- simpl. f_equal. exact Hsplit.
        -- intros c' [<- | Hc']; [lra | auto].
Qed.

(** A pass from [-Infinity]: the first candidate is always taken. *)
Lemma pass_from_start c l best' :
  fold_left (compareCandidate npc) (c :: l) (mkBest 0 true None) = best' ->
  exists before after,
    c :: l = before ++ chosen best' :: after
    /\ (forall c', In c' before -> correlationOf npc c' < correlationOf npc (chosen best'))
    /\ (forall c', In c' after -> correlationOf npc c' <= correlationOf npc (chosen best')).
Proof.
  intros Hrun. cbn [fold_left] in Hrun.
  change (compareCandidate npc (mkBest 0 true None) c)
    with (mkBest (fst c) (snd c) (Some (correlationOf npc c))) in Hrun.
  destruct (pass_from_best l (mkBest (fst c) (snd c) (Some (correlationOf npc c)))
                           (correlationOf npc c) best' eq_refl Hrun)
    as [[Hsame Hrest] | (before & after & Hsplit & Hgt & Hbefore & Hafter)].
  - exists [], l. rewrite Hsame.
    unfold chosen; cbn [bestKeyIndex bestKeyIsMajor]. rewrite <- surjective_pairing.
    repeat split; auto. intros c' [].
  - exists (c :: before), after. repeat split; auto.
    + simpl. f_equal. exact Hsplit.
    + intros c' [<- | Hc']; [lra | auto].
Qed.

End KeyFacts.

(** What [detectKey] prints is the candidate [bestKey] chose. *)
Lemma detectKey_prints_bestKey notes pitchCounts totalDuration :
  notes <> [] ->
  fold_left countNote notes (repeat 0 12, 0) = (pitchCounts, totalDuration) ->
  totalDuration <> 0 ->
  let best := bestKey (map (fun count => count / totalDuration) pitchCounts) in
  detectKey notes
  = (nameAt (bestKeyIndex best) ++ " "
     ++ (if bestKeyIsMajor best then "Major" else "Minor"))%string.
Proof.
  intros Hne Hhist Htotal. unfold detectKey.
  destruct notes as [|n notes]; [congruence|].
  change (List.length (n :: notes) =? 0)%nat with false. cbv iota.
  rewrite Hhist.
  destruct (Req_dec_T totalDuration 0); [contradiction | reflexivity].
Qed.

(** C7: the key search returns a (root, mode) pair of maximum correlation
    among the 24 candidates, and among several of maximum correlation the
    first in iteration order: roots 0 to 11 ascending, major before minor
    for each root.  Every candidate before the chosen one scores strictly
    less, every candidate after it scores at most as much; and [detectKey]
    prints the chosen pair whenever the notes carry weight. *)
Theorem key_is_first_maximum (normalizedPitchCounts : list R) :
  let best := bestKey normalizedPitchCounts in
  let score := correlationOf normalizedPitchCounts in
  keyCandidates
  = [ (0, true); (0, false); (1, true); (1, false); (2, true); (2, false);
      (3, true); (3, false); (4, true); (4, false); (5, true); (5, false);
      (6, true); (6, false); (7, true); (7, false); (8, true); (8, false);
      (9, true); (9, false); (10, true); (10, false); (11, true); (11, false) ]%nat
  /\ (exists before after,
        keyCandidates = before ++ (bestKeyIndex best, bestKeyIsMajor best) :: after
        /\ (forall c, In c before -> score c < score (bestKeyIndex best, bestKeyIsMajor best))
        /\ (forall c, In c after -> score c <= score (bestKeyIndex best, bestKeyIsMajor best)))
  /\ (forall notes pitchCounts totalDuration,
        notes <> [] ->
        fold_left countNote notes (repeat 0 12, 0) = (pitchCounts, totalDuration) ->
        totalDuration <> 0 ->
        normalizedPitchCounts = map (fun count => count / totalDuration) pitchCounts ->
        detectKey notes
        = (nameAt (bestKeyIndex best) ++ " "
           ++ (if bestKeyIsMajor best then "Major" else "Minor"))%string).
Proof.
  intros best score. split; [reflexivity|]. split.
  - apply (pass_from_start normalizedPitchCounts (0%nat, true) (tl keyCandidates)).
    symmetry. apply bestKey_one_pass.
  - intros notes pitchCounts totalDuration Hne Hhist Htotal Hnpc.
    subst best normalizedPitchCounts.
    apply detectKey_prints_bestKey; assumption.
Qed.

Lemma key_is_first_maximum_witness :
  detectKey soloC4
  = (nameAt (bestKeyIndex (bestKey soloC4Histogram)) ++ " "
     ++ (if bestKeyIsMajor (bestKey soloC4Histogram) then "Major" else "Minor"))%string.
Proof.
  apply (proj2 (proj2 (key_is_first_maximum soloC4Histogram))
           soloC4 (addAt 0 soloC4Weight (repeat 0 12)) (0 + soloC4Weight)).
  - discriminate.
  - reflexivity.
  - unfold soloC4Weight. lra.
  - reflexivity.
Defined.

(** * Further properties of the analysis engine *)

(** ** SignalUtil: [calculateRMS] *)

Section RmsFacts.

Lemma sumOfSquares_shift buffer :
  forall acc, fold_left (fun acc x => acc + x * x) buffer acc
              = acc + fold_left (fun acc x => acc + x * x) buffer 0.
Proof.
  induction buffer as [|x buffer IH]; intros acc; simpl; [lra|].
  rewrite IH, (IH (0 + x * x)). lra.
Qed.

Lemma sumOfSquares_nonneg buffer :
  0 <= fold_left (fun acc x => acc + x * x) buffer 0.
Proof.
  induction buffer as [|x buffer IH]; simpl; [lra|].
  rewrite sumOfSquares_shift. pose proof (Rle_0_sqr x) as Hsq. unfold Rsqr in Hsq. lra.
Qed.

Lemma sumOfSquares_bound buffer M :
  Forall (fun x => Rabs x <= M) buffer ->
  fold_left (fun acc x => acc + x * x) buffer 0 <= INR (List.length buffer) * (M * M).
Proof.
  induction 1 as [|x buffer Hx Hall IH].
  - simpl. lra.
  - cbn [fold_left]. rewrite sumOfSquares_shift.
    cbn [List.length]. rewrite S_INR.
    assert (Hsq : x * x <= M * M).
    { pose proof (Rabs_pos x) as Hpos.
      replace (x * x) with (Rabs x * Rabs x)
        by (unfold Rabs; destruct (Rcase_abs x); lra).
      apply Rmult_le_compat; lra. }
    lra.
Qed.

Lemma sumOfSquares_zero buffer :
  fold_left (fun acc x => acc + x * x) buffer 0 = 0 -> Forall (fun x => x = 0) buffer.
Proof.
  induction buffer as [|x buffer IH]; intros Hsum; [constructor|].
  cbn [fold_left] in Hsum. rewrite sumOfSquares_shift in Hsum.
  pose proof (sumOfSquares_nonneg buffer) as Hrest.
  pose proof (Rle_0_sqr x) as Hsq. unfold Rsqr in Hsq.
  constructor; [|apply IH; lra].
  assert (Hx : x * x = 0) by lra.
  apply Rmult_integral in Hx. tauto.
Qed.

Lemma sumOfSquares_of_zeros buffer :
  Forall (fun x => x = 0) buffer -> fold_left (fun acc x => acc + x * x) buffer 0 = 0.
Proof.
  induction 1 as [|x buffer Hx Hall IH]; [reflexivity|].
  cbn [fold_left]. rewrite sumOfSquares_shift, IH, Hx. lra.
Qed.

(** The divisor [buffer.length || 1]. *)
Lemma rms_divisor_pos (buffer : list R) :
  0 < INR (if (List.length buffer =? 0)%nat then 1 else List.length buffer).
Proof.
  destruct (List.length buffer =? 0)%nat eqn:Hlen.
  - simpl. lra.
  - apply Nat.eqb_neq in Hlen. apply lt_0_INR. lia.
Qed.


Lemma calculateRMS_le buffer M :
  0 <= M -> Forall (fun x => Rabs x <= M) buffer -> calculateRMS buffer <= M.
Proof.
  intros HM Hall. unfold calculateRMS.
  rewrite <- (sqrt_square M) by exact HM.
  apply sqrt_le_1_alt.
  pose proof (rms_divisor_pos buffer) as Hdiv.
  pose proof (sumOfSquares_bound buffer M Hall) as Hsum.
  pose proof (sumOfSquares_nonneg buffer) as Hpos.
  apply (Rmult_le_reg_r (INR (if (List.length buffer =? 0)%nat then 1 else List.length buffer)));
    [exact Hdiv|].
  unfold Rdiv. rewrite Rmult_assoc, Rinv_l, Rmult_1_r by lra.
  destruct (List.length buffer =? 0)%nat eqn:Hlen.
  - apply Nat.eqb_eq in Hlen. rewrite Hlen in Hsum. simpl in Hsum |- *.
    assert (0 <= M * M) by (apply Rmult_le_pos; lra). lra.
  - lra.
Qed.

Lemma calculateRMS_zero buffer :
  calculateRMS buffer = 0 <-> Forall (fun x => x = 0) buffer.
Proof.
  unfold calculateRMS. pose proof (rms_divisor_pos buffer) as Hdiv.
  pose proof (sumOfSquares_nonneg buffer) as Hpos.
  split.
  - intros Hrms. apply sumOfSquares_zero.
    apply sqrt_eq_0 in Hrms.
    + unfold Rdiv in Hrms. apply Rmult_integral in Hrms.
      destruct Hrms as [Hsum|Hinv]; [exact Hsum|].
      exfalso. apply Rinv_neq_0_compat in Hinv; [exact Hinv | lra].
    + unfold Rdiv. apply Rmult_le_pos; [exact Hpos|].
      left. apply Rinv_0_lt_compat. exact Hdiv.
  - intros Hzeros. rewrite (sumOfSquares_of_zeros buffer Hzeros).
    unfold Rdiv. rewrite Rmult_0_l. apply sqrt_0.
Qed.

End RmsFacts.



(** X2: the RMS is zero exactly on silence: [calculateRMS buffer = 0] if
    and only if every sample of the buffer is zero. *)
Theorem calculateRMS_zero_iff_silent (buffer : list R) :
  calculateRMS buffer = 0 <-> Forall (fun x => x = 0) buffer.
Proof. apply calculateRMS_zero. Qed.

(** ** SignalUtil: [median] *)

Section MedianFacts.

(** Two sorted arrays with the same elements are the same array. *)
Lemma sorted_perm_eq (l1 : list R) :
  forall l2,
    StronglySorted (keyLe (fun v => v)) l1 ->
    StronglySorted (keyLe (fun v => v)) l2 ->
    Permutation l1 l2 -> l1 = l2.
Proof.
  induction l1 as [|a t1 IH]; intros l2 Hs1 Hs2 Hperm.
  - apply Permutation_nil in Hperm. congruence.
  - destruct l2 as [|b t2];
      [apply Permutation_sym, Permutation_nil in Hperm; discriminate|].
    inversion Hs1 as [|? ? Hs1' Hall1]; subst.
    inversion Hs2 as [|? ? Hs2' Hall2]; subst.
    rewrite Forall_forall in Hall1, Hall2. unfold keyLe in Hall1, Hall2.
    assert (Hab : a <= b).
    { assert (Hin : In b (a :: t1))
        by (apply (Permutation_in b (Permutation_sym Hperm)); left; reflexivity).
      destruct Hin as [->|Hin]; [lra | auto]. }
    assert (Hba : b <= a).
    { assert (Hin : In a (b :: t2)) by (apply (Permutation_in a Hperm); left; reflexivity).
      destruct Hin as [->|Hin]; [lra | auto]. }
    assert (a = b) by lra. subst b.
    f_equal. apply IH; auto. eapply Permutation_cons_inv; eauto.
Qed.

Lemma sortBy_perm_eq (l l' : list R) :
  Permutation l l' -> JS.sortBy (fun v => v) l = JS.sortBy (fun v => v) l'.
Proof.
  intros Hperm. apply sorted_perm_eq; try apply sortBy_sorted.
  rewrite (sortBy_perm (fun v => v) l), (sortBy_perm (fun v => v) l'). exact Hperm.
Qed.

Lemma median_perm l l' : Permutation l l' -> median l = median l'.
Proof.
  intros Hperm. unfold median.
  rewrite (sortBy_perm_eq l l' Hperm), (Permutation_length Hperm). reflexivity.
Qed.

Lemma median_within lo hi values :
  values <> [] -> Forall (fun v => lo <= v <= hi) values -> lo <= median values <= hi.
Proof.
  intros Hne Hall. unfold median.
  assert (Hlen : (0 < List.length values)%nat)
    by (destruct values; [congruence | simpl; lia]).
  destruct (List.length values =? 0)%nat eqn:Hzero;
    [apply Nat.eqb_eq in Hzero; lia|].
  assert (Hnth : forall i, (i < List.length values)%nat ->
                   lo <= nth i (JS.sortBy (fun v => v) values) 0 <= hi).
  { intros i Hi. rewrite Forall_forall in Hall. apply Hall.
    apply (sortBy_In (fun v => v)). apply nth_In. rewrite sortBy_length. exact Hi. }
  rewrite sortBy_length.
  assert (Hmid : (List.length values / 2 < List.length values)%nat)
    by (apply Nat.div_lt; lia).
  destruct (negb _).
  - apply Hnth. exact Hmid.
  - pose proof (Hnth _ Hmid). pose proof (Hnth (List.length values / 2 - 1)%nat ltac:(lia)).
    lra.
Qed.

Lemma median_sorted_three a b c : a <= b <= c -> median [a; b; c] = b.
Proof.
  intros [Hab Hbc]. unfold median.
  rewrite sortBy_of_sorted; [reflexivity|].
  unfold keyLe.
  apply SSorted_cons; [apply SSorted_cons; [apply SSorted_cons; [apply SSorted_nil|]|]|].
  - apply Forall_nil.
  - apply Forall_cons; [lra | apply Forall_nil].
  - apply Forall_cons; [lra | apply Forall_cons; [lra | apply Forall_nil]].
Qed.

End MedianFacts.

(** X3: the median of a non-empty array lies between its smallest and
    largest value: if every value is in [lo, hi], so is the median (also
    when the two middle values are averaged); the median of the empty
    array is 0. *)
Theorem median_between_extremes (lo hi : R) (values : list R) :
  values <> [] ->
  Forall (fun v => lo <= v <= hi) values ->
  lo <= median values <= hi /\ median [] = 0.
Proof.
  intros Hne Hall. split; [apply median_within; assumption | reflexivity].
Qed.

Lemma median_between_extremes_witness : 1 <= median [3; 1; 2; 3] <= 3.
Proof.
  apply (median_between_extremes 1 3 [3; 1; 2; 3]); [discriminate|].
  repeat (constructor; [lra|]). constructor.
Defined.

(** X4: [median] does not depend on the order of its argument: two arrays
    with the same values in any order have the same median (the function
    sorts a copy and leaves the caller's array alone). *)
Theorem median_order_independent (values values' : list R) :
  Permutation values values' -> median values = median values'.
Proof. apply median_perm. Qed.

Lemma median_order_independent_witness : median [3; 1; 2] = median [1; 2; 3].
Proof.
  apply median_order_independent.
  apply perm_trans with [1; 3; 2]; [apply perm_swap | apply perm_skip, perm_swap].
Defined.

(** X5: on the three-sample window of the pitch filter the median is the
    middle value, wherever it stands in the window; so one outlier among
    three frames (a glitch above, or a dropout to 0 below, two agreeing
    frequencies) never reaches the note namer. *)
Theorem median_of_three_is_middle (a b c : R) (window : list R) :
  a <= b <= c ->
  Permutation window [a; b; c] ->
  median window = b.
Proof.
  intros Horder Hperm. rewrite (median_perm _ _ Hperm).
  apply median_sorted_three. exact Horder.
Qed.

Lemma median_of_three_is_middle_witness : median [440; 0; 440] = 440.
Proof.
  apply (median_of_three_is_middle 0 440 440); [lra|].
  apply perm_swap.
Defined.

(** ** PitchNamer: further properties *)

Section PitchBand.











(** Reading a non-empty name back. *)
Lemma name_nonempty_inv f :
  frequencyToNoteName f <> ""%string ->
  10 < f
  /\ (21 <= JS.round (12 * JS.log2 (f / 440) + 69) <= 108)%Z
  /\ frequencyToNoteName f = midiName (JS.round (12 * JS.log2 (f / 440) + 69)).
Proof.
  intros Hne.
  assert (Hf : 10 < f).
  { destruct (Rle_dec f 10) as [Hle|Hgt]; [|lra].
    exfalso. apply Hne, name_below_10, Hle. }
  assert (Hrange : (21 <= JS.round (12 * JS.log2 (f / 440) + 69) <= 108)%Z).
  { unfold frequencyToNoteName in Hne.
    destruct (Req_dec_T f 0); [congruence|].
    destruct (Rle_dec f 10); [congruence|].
    destruct ((JS.round (12 * JS.log2 (f / 440) + 69) <? 21)
              || (108 <? JS.round (12 * JS.log2 (f / 440) + 69)))%Z eqn:Hout;
      [congruence|].
    apply orb_false_iff in Hout. destruct Hout as [Hlo Hhi].
    apply Z.ltb_ge in Hlo, Hhi. lia. }
  repeat split; try lia; try exact Hf.
  apply name_of_rounded; auto.
Qed.

End PitchBand.


Section PitchRoundTrip.

Lemma log2_double x : 0 < x -> JS.log2 (2 * x) = 1 + JS.log2 x.
Proof.
  intros Hx. unfold JS.log2. rewrite ln_mult by lra. pose proof ln2_pos. field; lra.
Qed.



Lemma pianoKeys_readable : forallb keyNameReadable pianoKeys = true.
Proof. vm_compute. reflexivity. Qed.

Lemma pianoKeys_In r : (21 <= r <= 108)%Z -> In r pianoKeys.
Proof.
  intros Hr. unfold pianoKeys. apply in_map_iff.
  exists (Z.to_nat r). split; [lia|]. apply in_seq. lia.
Qed.

Lemma keyName_readable r :
  (21 <= r <= 108)%Z ->
  let index := Z.to_nat (Z.rem r 12) in
  JS.isBlank (midiName r) = false
  /\ pitchClassMatch (midiName r) = Some (nameAt index)
  /\ pitchClasses (nameAt index) = Some index
  /\ (index < 12)%nat.
Proof.
  intros Hr index.
  pose proof (proj1 (forallb_forall keyNameReadable pianoKeys) pianoKeys_readable r
                (pianoKeys_In r Hr)) as Hcheck.
  unfold keyNameReadable in Hcheck. fold index in Hcheck.
  apply andb_true_iff in Hcheck. destruct Hcheck as [Hcheck Hindex].
  apply andb_true_iff in Hcheck. destruct Hcheck as [Hblank Hparse].
  apply negb_true_iff in Hblank. apply Nat.ltb_lt in Hindex.
  destruct (pitchClassMatch (midiName r)) as [name|]; [|discriminate].
  apply andb_true_iff in Hparse. destruct Hparse as [Hname Hclass].
  apply String.eqb_eq in Hname. subst name.
  destruct (pitchClasses (nameAt index)) as [i|]; [|discriminate].
  apply Nat.eqb_eq in Hclass. subst i. auto.
Qed.

End PitchRoundTrip.





(** X9: every name the note namer produces is one the key estimator can
    read: it is not blank (so the pipeline's filter keeps it), the capture
    [/^([A-G]#?)/] of [detectKey] matches it, and the captured pitch class
    is in the table of [NOTE_NAMES], at the index [roundedMidi % 12]. *)
Theorem named_pitch_is_readable (f : R) :
  frequencyToNoteName f <> ""%string ->
  exists index,
    (index < 12)%nat
    /\ index = Z.to_nat (Z.rem (JS.round (12 * JS.log2 (f / 440) + 69)) 12)
    /\ JS.isBlank (frequencyToNoteName f) = false
    /\ pitchClassMatch (frequencyToNoteName f) = Some (nameAt index)
    /\ pitchClasses (nameAt index) = Some index.
Proof.
  intros Hne. apply name_nonempty_inv in Hne. destruct Hne as (_ & Hrange & ->).
  destruct (keyName_readable _ Hrange) as (Hblank & Hmatch & Hclass & Hindex).
  eexists. repeat split; eauto.
Qed.

Lemma named_pitch_is_readable_witness :
  exists index,
    (index < 12)%nat
    /\ pitchClassMatch (frequencyToNoteName 440) = Some (nameAt index)
    /\ pitchClasses (nameAt index) = Some index.
Proof.
  assert (Hne : frequencyToNoteName 440 <> ""%string) by (rewrite name_440; discriminate).
  destruct (named_pitch_is_readable 440 Hne) as (index & Hlt & _ & _ & Hmatch & Hclass).
  exists index. auto.
Defined.

(** ** The synthetic notes: layout and post-processing *)

Section SyntheticLayout.



(** Neighbours in the scale pattern differ in pitch (C5 is followed by C4). *)
Lemma synthetic_neighbours_differ i :
  nth (i mod List.length syntheticPitches) syntheticPitches "undefined"%string
  <> nth (S i mod List.length syntheticPitches) syntheticPitches "undefined"%string.
Proof.
  change (List.length syntheticPitches) with 8%nat.
  replace (S i) with (i + 1)%nat by lia.
  rewrite <- Nat.Div0.add_mod_idemp_l.
  pose proof (Nat.mod_upper_bound i 8 ltac:(lia)) as Hk.
  destruct (i mod 8)%nat as [|[|[|[|[|[|[|[|k]]]]]]]]; try discriminate. lia.
Qed.


Lemma map_seq_adjacent {A} (Rel : A -> A -> Prop) (f : nat -> A) :
  (forall i, Rel (f i) (f (S i))) ->
  forall len start, Sorted Rel (map f (seq start len)).
Proof.
  intros Hstep len. induction len as [|len IH]; intros start; simpl; constructor.
  - apply IH.
  - destruct len; simpl; constructor. apply Hstep.
Qed.

Lemma filter_all_kept {A} (keep : A -> bool) l :
  Forall (fun a => keep a = true) l -> filter keep l = l.
Proof.
  induction 1 as [|a l Ha Hall IH]; simpl; [reflexivity|].
  rewrite Ha, IH. reflexivity.
Qed.

Lemma synthetic_kept d : Forall (fun n => keepNote n = true) (createSyntheticNotes d).
Proof.
  apply Forall_forall. intros n Hin.
  apply synthetic_In in Hin. destruct Hin as (i & _ & ->).
  unfold keepNote. cbn [duration pitch].
  destruct (Rlt_dec _ _) as [Hshort|_];
    [unfold MIN_NOTE_DURATION_SECONDS in Hshort; lra|].
  change (List.length syntheticPitches) with 8%nat.
  pose proof (Nat.mod_upper_bound i 8 ltac:(lia)) as Hk.
  destruct (i mod 8)%nat as [|[|[|[|[|[|[|[|k]]]]]]]]; try reflexivity. lia.
Qed.

Lemma synthetic_unmergeable d :
  Sorted (fun a b => ~ mergeable a b) (createSyntheticNotes d).
Proof.
  unfold createSyntheticNotes. apply map_seq_adjacent.
  intros i [Hpitch _]. cbn [pitch] in Hpitch.
  apply (synthetic_neighbours_differ i). symmetry. exact Hpitch.
Qed.

Lemma synthetic_postprocess d :
  mergeNotes (JS.sortBy startTime (filter keepNote (createSyntheticNotes d)))
  = createSyntheticNotes d.
Proof.
  rewrite (filter_all_kept keepNote _ (synthetic_kept d)).
  rewrite (sortBy_of_sorted startTime) by apply synthetic_sorted.
  apply mergeNotes_noop, synthetic_unmergeable.
Qed.

End SyntheticLayout.


(** X11: the post-processing of [analyzeAudio] leaves the synthetic notes
    as they are: the filter keeps every one of them, they are already
    sorted, and the merge loop joins none (neighbours differ in pitch). *)
Theorem synthetic_notes_survive_postprocessing (d : R) :
  filter keepNote (createSyntheticNotes d) = createSyntheticNotes d
  /\ mergeNotes (JS.sortBy startTime (filter keepNote (createSyntheticNotes d)))
     = createSyntheticNotes d.
Proof.
  split; [apply filter_all_kept, synthetic_kept | apply synthetic_postprocess].
Qed.

(** ** The buffer helpers: [truncateAudioBuffer], [mixDownToMono] *)

Section BufferFacts.

Lemma setInto_prefix len source :
  (len <= List.length source)%nat -> JS.setInto len (JS.slice source 0 len) = firstn len source.
Proof.
  intros Hlen. unfold JS.setInto, JS.slice. rewrite Nat.sub_0_r. cbn [skipn].
  rewrite firstn_firstn, Nat.min_id, length_firstn, Nat.min_l by exact Hlen.
  rewrite Nat.sub_diag. apply app_nil_r.
Qed.

Lemma setInto_whole source : JS.setInto (List.length source) source = source.
Proof.
  unfold JS.setInto. rewrite firstn_all, Nat.sub_diag. apply app_nil_r.
Qed.

Lemma firstn_subset {A} n (l : list A) x : In x (firstn n l) -> In x l.
Proof.
  intros Hin. rewrite <- (firstn_skipn n l). apply in_or_app. left. exact Hin.
Qed.

Lemma setInto_within len source M :
  0 <= M ->
  Forall (fun x => Rabs x <= M) source ->
  Forall (fun x => Rabs x <= M) (JS.setInto len source).
Proof.
  intros HM Hall. unfold JS.setInto. apply Forall_app. split.
  - apply Forall_forall. intros x Hx. rewrite Forall_forall in Hall.
    apply Hall. eapply firstn_subset; eauto.
  - apply Forall_forall. intros x Hx. apply repeat_spec in Hx. subst x.
    rewrite Rabs_R0. exact HM.
Qed.

Lemma nth_within (ch : list R) i M :
  0 <= M -> Forall (fun x => Rabs x <= M) ch -> Rabs (nth i ch 0) <= M.
Proof.
  intros HM Hall. destruct (Nat.lt_ge_cases i (List.length ch)) as [Hi|Hi].
  - rewrite Forall_forall in Hall. apply Hall, nth_In, Hi.
  - rewrite nth_overflow by exact Hi. rewrite Rabs_R0. exact HM.
Qed.

(** The running sum over the channels at sample [i]. *)
Lemma channel_sum_within channels i M :
  0 <= M ->
  Forall (Forall (fun x => Rabs x <= M)) channels ->
  forall acc,
    Rabs (fold_left (fun sum ch => sum + nth i ch 0) channels acc)
    <= Rabs acc + INR (List.length channels) * M.
Proof.
  intros HM. induction 1 as [|ch channels Hch Hall IH]; intros acc.
  - simpl. lra.
  - cbn [fold_left List.length]. rewrite S_INR.
    pose proof (IH (acc + nth i ch 0)) as Hrest.
    pose proof (Rabs_triang acc (nth i ch 0)) as Htri.
    pose proof (nth_within ch i M HM Hch) as Hnth.
    lra.
Qed.

Lemma mono_within b mono M :
  0 <= M ->
  Forall (Forall (fun x => Rabs x <= M)) (AudioBuffer.channels b) ->
  mixDownToMono b = Some mono ->
  Forall (fun x => Rabs x <= M) mono.
Proof.
  intros HM Hall. unfold mixDownToMono.
  destruct (AudioBuffer.numberOfChannels b =? 1)%nat; intros [= <-].
  - apply setInto_within; [exact HM|].
    unfold AudioBuffer.getChannelData.
    destruct (Nat.lt_ge_cases 0 (List.length (AudioBuffer.channels b))) as [Hi|Hi].
    + rewrite Forall_forall in Hall. apply Hall, nth_In, Hi.
    + rewrite nth_overflow by exact Hi. constructor.
  - apply Forall_forall. intros x Hx. apply in_map_iff in Hx.
    destruct Hx as (i & <- & _).
    pose proof (channel_sum_within (AudioBuffer.channels b) i M HM Hall 0) as Hsum.
    rewrite Rabs_R0, Rplus_0_l in Hsum.
    unfold AudioBuffer.numberOfChannels.
    destruct (AudioBuffer.channels b) as [|ch rest] eqn:Hch.
    + simpl. unfold Rdiv. rewrite Rmult_0_l, Rabs_R0. exact HM.
    + assert (Hk : 0 < INR (List.length (ch :: rest))) by (apply lt_0_INR; simpl; lia).
      unfold Rdiv. rewrite Rabs_mult, (Rabs_right (/ _))
        by (left; apply Rinv_0_lt_compat; exact Hk).
      apply (Rmult_le_reg_r (INR (List.length (ch :: rest)))); [exact Hk|].
      rewrite Rmult_assoc, Rinv_l by lra. lra.
Qed.

Lemma map_nth_seq_id (l : list R) : map (fun i => nth i l 0) (seq 0 (List.length l)) = l.
Proof.
  induction l as [|x l IH]; [reflexivity|].
  cbn [List.length seq map nth]. f_equal.
  rewrite <- seq_shift, map_map. exact IH.
Qed.

End BufferFacts.

(** X12: when [truncateAudioBuffer] returns, the new buffer has the sample
    rate and the channel count of the old one and
    [floor(duration * sampleRate)] sample frames, its duration lies in
    (duration - 1/sampleRate, duration], and each channel that held at
    least that many samples is cut to its first samples; it throws (the
    refusal of [createBuffer]) exactly when that frame count is not
    positive or the buffer has no channel. *)
Theorem truncate_keeps_prefix (buffer : AudioBuffer.t) (cap : R) :
  0 < AudioBuffer.sampleRate buffer ->
  let n := Z.to_nat (JS.floor (cap * AudioBuffer.sampleRate buffer)) in
  ((exists e, truncateAudioBuffer buffer cap = Throw e)
   <-> (JS.floor (cap * AudioBuffer.sampleRate buffer) <= 0)%Z
       \/ AudioBuffer.channels buffer = [])
  /\ (forall processed,
        truncateAudioBuffer buffer cap = Ok processed ->
        AudioBuffer.sampleRate processed = AudioBuffer.sampleRate buffer
        /\ AudioBuffer.numberOfChannels processed = AudioBuffer.numberOfChannels buffer
        /\ AudioBuffer.length processed = n
        /\ cap - / AudioBuffer.sampleRate buffer < AudioBuffer.duration processed <= cap
        /\ (forall i oldData,
              nth_error (AudioBuffer.channels buffer) i = Some oldData ->
              (n <= List.length oldData)%nat ->
              nth_error (AudioBuffer.channels processed) i = Some (firstn n oldData))).
Proof.
  intros Hsr n. unfold truncateAudioBuffer. fold n.
  destruct (JS.floor (cap * AudioBuffer.sampleRate buffer) <=? 0)%Z eqn:Hlen.
  - apply Z.leb_le in Hlen. cbn [orb]. split.
    + split; [intros _; left; exact Hlen | intros _; eexists; reflexivity].
    + intros processed [=].
  - apply Z.leb_gt in Hlen. cbn [orb].
    destruct (AudioBuffer.numberOfChannels buffer =? 0)%nat eqn:Hnum.
    + apply Nat.eqb_eq in Hnum. split.
      * split; [intros _; right | intros _; eexists; reflexivity].
        unfold AudioBuffer.numberOfChannels in Hnum.
        apply length_zero_iff_nil. exact Hnum.
      * intros processed [=].
    + apply Nat.eqb_neq in Hnum. split.
      * split; [intros [e [=]]|].
        intros [Hle|Hnil]; [lia|].
        unfold AudioBuffer.numberOfChannels in Hnum. rewrite Hnil in Hnum.
        simpl in Hnum. congruence.
      * intros processed [= <-]. cbn [AudioBuffer.sampleRate AudioBuffer.length].
        split; [reflexivity|]. split; [|split; [reflexivity|split]].
        -- unfold AudioBuffer.numberOfChannels. cbn [AudioBuffer.channels].
           apply length_map.
        -- unfold AudioBuffer.duration. cbn [AudioBuffer.sampleRate AudioBuffer.length].
           unfold n. rewrite INR_IZR_INZ, Z2Nat.id by lia.
           pose proof (Zfloor_bound (cap * AudioBuffer.sampleRate buffer)) as [Hlo Hhi].
           unfold JS.floor.
           assert (Hinv : 0 < / AudioBuffer.sampleRate buffer)
             by (apply Rinv_0_lt_compat; exact Hsr).
           split.
           ++ apply (Rmult_lt_reg_r (AudioBuffer.sampleRate buffer)); [exact Hsr|].
              replace (IZR (Zfloor (cap * AudioBuffer.sampleRate buffer))
                       / AudioBuffer.sampleRate buffer * AudioBuffer.sampleRate buffer)
                with (IZR (Zfloor (cap * AudioBuffer.sampleRate buffer))) by (field; lra).
              replace ((cap - / AudioBuffer.sampleRate buffer) * AudioBuffer.sampleRate buffer)
                with (cap * AudioBuffer.sampleRate buffer - 1) by (field; lra).
              lra.
           ++ apply (Rmult_le_reg_r (AudioBuffer.sampleRate buffer)); [exact Hsr|].
              replace (IZR (Zfloor (cap * AudioBuffer.sampleRate buffer))
                       / AudioBuffer.sampleRate buffer * AudioBuffer.sampleRate buffer)
                with (IZR (Zfloor (cap * AudioBuffer.sampleRate buffer))) by (field; lra).
              exact Hlo.
        -- intros i oldData Hold Hlong. cbn [AudioBuffer.channels].
           rewrite nth_error_map, Hold. cbn [option_map].
           f_equal. apply setInto_prefix. exact Hlong.
Qed.

Lemma truncate_keeps_prefix_witness :
  exists processed,
    truncateAudioBuffer ninetySeconds 60 = Ok processed
    /\ AudioBuffer.length processed = 60%nat
    /\ AudioBuffer.duration processed <= 60.
Proof.
  assert (Hsr : 0 < AudioBuffer.sampleRate ninetySeconds) by (simpl; lra).
  destruct (truncate_keeps_prefix ninetySeconds 60 Hsr) as [Hthrow Hok].
  assert (Hfloor : JS.floor (60 * AudioBuffer.sampleRate ninetySeconds) = 60%Z)
    by (apply Zfloor_eq; simpl; lra).
  destruct (truncateAudioBuffer ninetySeconds 60) as [processed|e] eqn:Hrun.
  - exists processed. destruct (Hok processed eq_refl) as (_ & _ & Hlen & [_ Hdur] & _).
    rewrite Hfloor in Hlen. auto.
  - exfalso. destruct (proj1 Hthrow (ex_intro _ e eq_refl)) as [Hle|Hnil].
    + rewrite Hfloor in Hle. lia.
    + discriminate.
Defined.

(** X13: [mixDownToMono] never returns [null] on a buffer; the mono data
    has [length] samples, and averaging never exceeds the peak of the
    channels: if every sample of every channel lies within [-M, M], so
    does every mono sample. *)
Theorem mono_mixdown_within_peak (audioBuffer : AudioBuffer.t) (M : R) :
  0 <= M ->
  Forall (Forall (fun x => Rabs x <= M)) (AudioBuffer.channels audioBuffer) ->
  exists mono,
    mixDownToMono audioBuffer = Some mono
    /\ List.length mono = AudioBuffer.length audioBuffer
    /\ Forall (fun x => Rabs x <= M) mono.
Proof.
  intros HM Hall.
  assert (Hsome : exists mono, mixDownToMono audioBuffer = Some mono)
    by (unfold mixDownToMono; destruct (_ =? 1)%nat; eauto).
  destruct Hsome as (mono & Hmono). exists mono.
  split; [exact Hmono|]. split.
  - apply mixDownToMono_length. exact Hmono.
  - eapply mono_within; eauto.
Qed.

Lemma mono_mixdown_within_peak_witness :
  exists mono,
    mixDownToMono (AudioBuffer.make 44100 2 [[1; -1]; [1 / 2; 1]]) = Some mono
    /\ List.length mono = 2%nat
    /\ Forall (fun x => Rabs x <= 1) mono.
Proof.
  apply (mono_mixdown_within_peak (AudioBuffer.make 44100 2 [[1; -1]; [1 / 2; 1]]) 1);
    [lra|].
  assert (Habs : forall x, -1 <= x <= 1 -> Rabs x <= 1)
    by (intros x Hx; apply Rabs_le; lra).
  cbn [AudioBuffer.channels].
  repeat (apply Forall_cons || apply Forall_nil); apply Habs; lra.
Defined.

(** X14: for a buffer with one channel of [length] samples the mono data
    is that channel, sample for sample; for a buffer with two channels of
    [length] samples that hold the same data it is that data as well. *)
Theorem mono_of_single_or_identical_channels (sampleRate : R) (channel : list R) :
  mixDownToMono (AudioBuffer.make sampleRate (List.length channel) [channel]) = Some channel
  /\ mixDownToMono (AudioBuffer.make sampleRate (List.length channel) [channel; channel])
     = Some channel.
Proof.
  split.
  - unfold mixDownToMono, AudioBuffer.numberOfChannels, AudioBuffer.getChannelData.
    cbn [AudioBuffer.channels AudioBuffer.length List.length Nat.eqb nth].
    rewrite setInto_whole. reflexivity.
  - unfold mixDownToMono, AudioBuffer.numberOfChannels.
    cbn [AudioBuffer.channels AudioBuffer.length List.length Nat.eqb fold_left].
    f_equal. transitivity (map (fun i => nth i channel 0) (seq 0 (List.length channel)));
      [|apply map_nth_seq_id].
    apply map_ext. intros i. simpl. field.
Qed.

(** ** NoteDetector: the shape of the notes and the degenerate buffers *)

Ltac shape_cases :=
  constructor; simpl; auto;
  let Heq := fresh "Heq" in
  intros ? Heq;
  first [discriminate Heq | congruence
        | injection Heq as <-; simpl; repeat split; auto; lia].

Section DetectorShape.

Lemma closeNote_shape st endTime :
  DetectShape st -> Forall noteShape (closeNote st endTime).
Proof.
  intros [He Ho Hp]. unfold closeNote.
  destruct (currentNote st) as [cur|] eqn:Hcur; [|exact He].
  destruct (minConsecutiveFrames <=? consecutiveFramesCount st)%nat; [|exact He].
  destruct (Rle_dec _ _); [|exact He].
  apply Forall_app. split; [exact He|].
  constructor; [|constructor]. unfold noteShape. simpl. apply Ho. reflexivity.
Qed.

Lemma advance_shape st time noteName clarity velocity recent :
  DetectShape st -> 0 <= time ->
  (0 <= velocity <= 127)%Z ->
  (exists f, noteName = frequencyToNoteName f) ->
  DetectShape (advance st time noteName clarity velocity recent).
Proof.
  intros Hshape Htime Hvel Hname.
  pose proof (closeNote_shape st time Hshape) as Hclose.
  pose proof Hshape as [He Ho Hp].
  unfold advance.
  destruct (noteName =? "")%string eqn:Hempty; cbn [negb andb].
  - shape_cases.
  - apply String.eqb_neq in Hempty.
    destruct (JS.leb clarityThreshold clarity); [|shape_cases].
    destruct (noteName =? lastPitchName st)%string; cbn [potentialNoteStart
      consecutiveFramesCount currentNote emitted lastPitchName].
    + destruct (S (consecutiveFramesCount st) =? minConsecutiveFrames)%nat;
        [destruct (potentialNoteStart st) as [p|] eqn:Hpot|];
        try (destruct (currentNote st) as [cur|] eqn:Hcur);
        try (pose proof (Ho _ eq_refl) as ([Hcp Hcn] & Hcv & Hcs));
        try (pose proof (Hp _ eq_refl) as Hpp);
        shape_cases.
    + change (1 =? minConsecutiveFrames)%nat with false. cbv iota. shape_cases.
Qed.

Lemma DetectShape_init : DetectShape detectInit.
Proof. constructor; simpl; [constructor | |]; intros; discriminate. Qed.

Context `{Platform}.

Lemma detectFrame_shape mono sr rms st detector i st' detector' :
  0 < sr ->
  DetectShape st ->
  detectFrame mono sr rms (st, detector) i = Ok (st', detector') ->
  DetectShape st'.
Proof.
  intros Hsr Hshape. unfold detectFrame.
  destruct (if Rlt_dec _ _ then _ else _) as [[[frequency clarity] next]|e]; simpl;
    [|discriminate].
  intros [= <- _]. apply advance_shape; auto.
  - apply Rmult_le_pos; [apply pos_INR | left; apply Rinv_0_lt_compat; exact Hsr].
  - lia.
  - eexists. reflexivity.
Qed.

Lemma detect_loop_shape mono sr rms (Hsr : 0 < sr) :
  forall offsets st detector st' detector',
    DetectShape st ->
    JS.forEachM (detectFrame mono sr rms) offsets (st, detector) = Ok (st', detector') ->
    DetectShape st'.
Proof.
  induction offsets as [|i offsets IH]; intros st detector st' detector' Hshape Hrun.
  - simpl in Hrun. injection Hrun as <- _. exact Hshape.
  - cbn [JS.forEachM] in Hrun.
    destruct (detectFrame mono sr rms (st, detector) i) as [[st1 detector1]|e] eqn:Hframe;
      cbn [JS.bind] in Hrun; [|discriminate].
    eapply IH; [|exact Hrun]. eapply detectFrame_shape; eauto.
Qed.

Lemma detectNotes_shape mono sr notes :
  detectNotes mono sr = Ok notes -> Forall noteShape notes.
Proof.
  intros Hrun. destruct (Rlt_dec 0 sr) as [Hsr|Hsr].
  - unfold detectNotes in Hrun.
    destruct (JS.forEachM _ _ _) as [[st detector]|e] eqn:Hloop; simpl in Hrun;
      [|discriminate].
    injection Hrun as <-. apply closeNote_shape.
    eapply (detect_loop_shape mono sr _ Hsr); [|exact Hloop]. apply DetectShape_init.
  - assert (notes = []) as -> by (apply (detectNotes_idle mono sr); [lra | exact Hrun]).
    constructor.
Qed.

(** A frame at or below the silence gate leaves the idle machine idle and
    the detector untouched. *)
Lemma quiet_frame_idle mono sr rms detector i :
  ~ rms * (8 / 100) < calculateRMS (JS.slice mono i (i + frameSize)) ->
  detectFrame mono sr rms (detectInit, detector) i = Ok (detectInit, detector).
Proof.
  intros Hquiet. unfold detectFrame.
  destruct (Rlt_dec _ _) as [Hloud|_]; [contradiction|].
  cbn [JS.bind]. destruct (Rlt_dec 0 0) as [Habs|_]; [lra|].
  unfold advance.
  assert (Hclar : JS.leb clarityThreshold 0 = false)
    by (apply leb_false; unfold clarityThreshold; lra).
  rewrite Hclar, andb_false_r. reflexivity.
Qed.

Lemma quiet_loop_idle mono sr rms detector offsets :
  Forall (fun i => ~ rms * (8 / 100) < calculateRMS (JS.slice mono i (i + frameSize)))
         offsets ->
  JS.forEachM (detectFrame mono sr rms) offsets (detectInit, detector)
  = Ok (detectInit, detector).
Proof.
  induction 1 as [|i offsets Hi Hall IH]; [reflexivity|].
  cbn [JS.forEachM]. rewrite (quiet_frame_idle mono sr rms detector i Hi). exact IH.
Qed.

Lemma slice_of_silence (mono : list R) i j :
  Forall (fun x => x = 0) mono -> Forall (fun x => x = 0) (JS.slice mono i j).
Proof.
  intros Hall. apply Forall_forall. intros x Hx. unfold JS.slice in Hx.
  apply firstn_subset in Hx.
  rewrite Forall_forall in Hall. apply Hall.
  rewrite <- (firstn_skipn i mono). apply in_or_app. right. exact Hx.
Qed.

(** Neither a buffer shorter than one frame nor a silent one moves the
    state machine or reaches the pitch detector. *)
Lemma idle_loop_of_short_or_silent mono sr :
  (List.length mono < 2048)%nat \/ Forall (fun x => x = 0) mono ->
  JS.forEachM (detectFrame mono sr (calculateRMS mono))
              (JS.frameStarts (List.length mono) frameSize hopSize)
              (detectInit, forFloat32Array frameSize)
  = Ok (detectInit, forFloat32Array frameSize).
Proof.
  intros [Hshort|Hsilent].
  - unfold JS.frameStarts.
    replace (List.length mono <? frameSize)%nat with true
      by (symmetry; apply Nat.ltb_lt; exact Hshort).
    reflexivity.
  - apply quiet_loop_idle. apply Forall_forall. intros i _.
    rewrite (proj2 (calculateRMS_zero mono) Hsilent).
    rewrite (proj2 (calculateRMS_zero _) (slice_of_silence mono _ _ Hsilent)).
    lra.
Qed.

End DetectorShape.

(** X15: a buffer shorter than one analysis frame (fewer than 2048
    samples) and a silent buffer (every sample zero) both yield the empty
    note list, at every sample rate and without a call of the pitch
    detector: [detectNotes] returns even when the detector would throw. *)
Theorem detectNotes_of_short_or_silent_buffer `{Platform}
    (monoBufferData : list R) (sampleRate : R) :
  (List.length monoBufferData < 2048)%nat \/ Forall (fun x => x = 0) monoBufferData ->
  detectNotes monoBufferData sampleRate = Ok [].
Proof.
  intros Hcase. unfold detectNotes.
  rewrite (idle_loop_of_short_or_silent monoBufferData sampleRate Hcase). reflexivity.
Qed.

Lemma detectNotes_of_short_or_silent_buffer_witness :
  @detectNotes rejectingPlatform [1; -1; 1] 44100 = Ok []
  /\ @detectNotes rejectingPlatform (repeat 0 4096) 44100 = Ok [].
Proof.
  split.
  - apply (@detectNotes_of_short_or_silent_buffer rejectingPlatform).
    left. simpl. lia.
  - apply (@detectNotes_of_short_or_silent_buffer rejectingPlatform).
    right. apply Forall_forall. intros x Hx. apply repeat_spec in Hx. exact Hx.
Defined.


(** ** NoteDetector: runs of the state machine *)

Section MachineRuns.

Variable name : string.
Hypothesis name_nonempty : name <> ""%string.

Lemma confident_condition fr :
  confidentOf name fr ->
  (negb (readName fr =? "")%string && JS.leb clarityThreshold (readClarity fr))%bool = true.
Proof.
  intros [Hname Hclar]. rewrite Hname.
  apply andb_true_iff. split.
  - apply negb_true_iff. apply String.eqb_neq. exact name_nonempty.
  - apply leb_true. exact Hclar.
Qed.

Lemma unconfident_condition fr :
  unconfident fr ->
  (negb (readName fr =? "")%string && JS.leb clarityThreshold (readClarity fr))%bool = false.
Proof.
  intros [Hname|Hclar].
  - rewrite Hname. reflexivity.
  - apply andb_false_iff. right. apply leb_false. exact Hclar.
Qed.

(** The first clear frame after silence opens a run. *)
Lemma feed_opens_run fr :
  confidentOf name fr ->
  feed detectInit fr = trackingState name (readTime fr) 1 0 (readRecent fr).
Proof.
  intros Hconf. unfold feed, advance. rewrite (confident_condition fr Hconf).
  destruct Hconf as [-> _].
  replace (name =? lastPitchName detectInit)%string with false
    by (symmetry; apply String.eqb_neq; exact name_nonempty).
  reflexivity.
Qed.

(** A further clear frame of the same pitch extends the run. *)
Lemma feed_extends_run start count loudest recent fr :
  (1 <= count)%nat ->
  confidentOf name fr ->
  feed (trackingState name start count loudest recent) fr
  = trackingState name start (S count)
      (if (S count =? minConsecutiveFrames)%nat then readVelocity fr
       else Z.max loudest (readVelocity fr))
      (readRecent fr).
Proof.
  intros Hcount Hconf. unfold feed, advance. rewrite (confident_condition fr Hconf).
  destruct Hconf as [-> _].
  unfold trackingState. cbn [lastPitchName]. rewrite String.eqb_refl.
  cbn [consecutiveFramesCount potentialNoteStart currentNote emitted lastPitchName].
  unfold minConsecutiveFrames.
  destruct count as [|[|[|count]]]; [lia | reflexivity | reflexivity |].
  reflexivity.
Qed.

(** The run after its frames: count, onset and loudest velocity. *)
Lemma feed_run more :
  forall start count loudest recent,
    (1 <= count)%nat ->
    Forall (confidentOf name) more ->
    exists loudest' recent',
      fold_left feed more (trackingState name start count loudest recent)
      = trackingState name start (count + List.length more) loudest' recent'
      /\ (minConsecutiveFrames <= count ->
          loudest' = fold_left Z.max (map readVelocity more) loudest)%nat.
Proof.
  induction more as [|fr more IH]; intros start count loudest recent Hcount Hall.
  - exists loudest, recent. rewrite Nat.add_0_r. split; reflexivity.
  - inversion Hall as [|? ? Hfr Hmore]; subst.
    cbn [fold_left]. rewrite (feed_extends_run start count loudest recent fr Hcount Hfr).
    destruct (IH start (S count)
                 (if (S count =? minConsecutiveFrames)%nat then readVelocity fr
                  else Z.max loudest (readVelocity fr))
                 (readRecent fr) ltac:(lia) Hmore)
      as (loudest' & recent' & Hrun & Hloud).
    exists loudest', recent'. split.
    + rewrite Hrun. f_equal. cbn [List.length]. lia.
    + intros Hthree. rewrite Hloud by lia.
      replace (S count =? minConsecutiveFrames)%nat with false
        by (symmetry; apply Nat.eqb_neq; lia).
      reflexivity.
Qed.

(** An unclear frame closes the run and resets the machine. *)
Lemma feed_closes_run start count loudest recent fr :
  unconfident fr ->
  feed (trackingState name start count loudest recent) fr
  = mkDetect
      (if ((minConsecutiveFrames <=? count)%nat)
       then (if Rle_dec detectMinDuration (readTime fr - start)
             then [mkNote name start (readTime fr - start) loudest] else [])
       else [])
      None ""%string 0 None [].
Proof.
  intros Hun. unfold feed, advance. rewrite (unconfident_condition fr Hun).
  unfold closeNote, trackingState.
  cbn [currentNote consecutiveFramesCount emitted].
  destruct (minConsecutiveFrames <=? count)%nat; [|reflexivity].
  cbn [openStart openPitch openVelocity].
  destruct (Rle_dec _ _); reflexivity.
Qed.

End MachineRuns.

(** X17: a run of three or more consecutive clear frames of one pitch,
    begun from silence and ended by an unclear frame, emits exactly one
    note: its pitch is the run's, its onset is the time of the FIRST frame
    of the run (the three-frame confirmation does not delay it), its
    duration reaches to the closing frame, and its velocity is the largest
    from the third frame on.  The note is dropped when it is shorter than
    0.07 s; either way the machine is reset. *)
Theorem stable_run_emits_one_note (name : string)
    (first second third closing : FrameReading) (rest : list FrameReading) :
  name <> ""%string ->
  Forall (confidentOf name) (first :: second :: third :: rest) ->
  unconfident closing ->
  let noteDuration := readTime closing - readTime first in
  let loudest := fold_left Z.max (map readVelocity rest) (readVelocity third) in
  feed (fold_left feed (first :: second :: third :: rest) detectInit) closing
  = mkDetect
      (if Rle_dec (7 / 100) noteDuration
       then [mkNote name (readTime first) noteDuration loudest] else [])
      None ""%string 0 None [].
Proof.
  intros Hname Hall Hclosing noteDuration loudest.
  inversion Hall as [|? ? Hfirst Hall1]; subst.
  inversion Hall1 as [|? ? Hsecond Hall2]; subst.
  inversion Hall2 as [|? ? Hthird Hrest]; subst.
  cbn [fold_left].
  rewrite (feed_opens_run name Hname first Hfirst).
  rewrite (feed_extends_run name Hname _ 1 _ _ second ltac:(lia) Hsecond).
  rewrite (feed_extends_run name Hname _ 2 _ _ third ltac:(lia) Hthird).
  change (3 =? minConsecutiveFrames)%nat with true. cbv iota.
  destruct (feed_run name Hname rest (readTime first) 3 (readVelocity third)
              (readRecent third) ltac:(lia) Hrest)
    as (loudest' & recent' & Hrun & Hloud).
  rewrite Hrun, (Hloud ltac:(unfold minConsecutiveFrames; lia)).
  rewrite (feed_closes_run name _ _ _ _ closing Hclosing).
  replace (minConsecutiveFrames <=? 3 + List.length rest)%nat with true
    by (symmetry; apply Nat.leb_le; unfold minConsecutiveFrames; lia).
  reflexivity.
Qed.

Lemma stable_run_emits_one_note_witness :
  feed (fold_left feed [a4Reading 0 70; a4Reading (1 / 100) 80; a4Reading (2 / 100) 90;
                        a4Reading (3 / 100) 100; a4Reading (4 / 100) 95]
                  detectInit)
       (mkReading (10 / 100) "" 0 30 [440; 440; 0])
  = mkDetect [mkNote "A4" 0 (10 / 100 - 0) 100] None ""%string 0 None [].
Proof.
  assert (Hconf : forall t v, confidentOf "A4" (a4Reading t v))
    by (intros t v; split; [reflexivity | unfold clarityThreshold; simpl; lra]).
  rewrite (stable_run_emits_one_note "A4" (a4Reading 0 70) (a4Reading (1 / 100) 80)
             (a4Reading (2 / 100) 90) (mkReading (10 / 100) "" 0 30 [440; 440; 0])
             [a4Reading (3 / 100) 100; a4Reading (4 / 100) 95]).
  - cbn [readTime a4Reading].
    destruct (Rle_dec _ _) as [_|Hshort]; [reflexivity | exfalso; lra].
  - discriminate.
  - repeat (apply Forall_cons; [apply Hconf|]). apply Forall_nil.
  - left. reflexivity.
Defined.

(** X18: a pitch that holds for fewer than three consecutive clear frames
    leaves no note: after one or two clear frames of a pitch the next
    unclear frame, and equally the next clear frame of another pitch,
    emits nothing (single-frame flickers are suppressed). *)
Theorem short_run_emits_nothing (name other : string)
    (run : list FrameReading) (next : FrameReading) :
  name <> ""%string ->
  run <> [] ->
  (List.length run <= 2)%nat ->
  Forall (confidentOf name) run ->
  unconfident next \/ (confidentOf other next /\ other <> name /\ other <> ""%string) ->
  emitted (feed (fold_left feed run detectInit) next) = [].
Proof.
  intros Hname Hne Hlen Hall Hnext.
  destruct run as [|first more]; [congruence|].
  inversion Hall as [|? ? Hfirst Hmore]; subst.
  cbn [fold_left]. rewrite (feed_opens_run name Hname first Hfirst).
  destruct (feed_run name Hname more (readTime first) 1 0 (readRecent first)
              ltac:(lia) Hmore) as (loudest' & recent' & Hrun & _).
  rewrite Hrun.
  assert (Hcount : (minConsecutiveFrames <=? 1 + List.length more)%nat = false)
    by (apply Nat.leb_gt; unfold minConsecutiveFrames; simpl in Hlen; lia).
  destruct Hnext as [Hun | (Hconf & Hdiff & Hother)].
  - rewrite (feed_closes_run name _ _ _ _ next Hun), Hcount. reflexivity.
  - unfold feed, advance. rewrite (confident_condition other Hother next Hconf).
    destruct Hconf as [Hread _]. rewrite Hread.
    unfold trackingState. cbn [lastPitchName].
    rewrite (proj2 (String.eqb_neq other name) Hdiff). cbv iota.
    cbn [consecutiveFramesCount potentialNoteStart].
    change (1 =? minConsecutiveFrames)%nat with false. cbv iota.
    cbn [currentNote emitted]. unfold closeNote.
    cbn [currentNote consecutiveFramesCount emitted].
    rewrite Hcount. reflexivity.
Qed.

Lemma short_run_emits_nothing_witness :
  emitted (feed (fold_left feed [mkReading 0 "A4" 1 80 [440]; mkReading (1 / 100) "A4" 1 80 [440; 440]]
                           detectInit)
                (mkReading (2 / 100) "C5" 1 80 [440; 440; 523]))
  = [].
Proof.
  apply (short_run_emits_nothing "A4" "C5").
  - discriminate.
  - discriminate.
  - simpl. lia.
  - repeat (apply Forall_cons; [split; [reflexivity | unfold clarityThreshold; simpl; lra]|]).
    apply Forall_nil.
  - right. repeat split; try discriminate. unfold clarityThreshold. simpl. lra.
Defined.

(** ** NoteDetector: a steady tone *)

Section SteadyTone.

Context `{Platform}.

Variables (a f sr : R) (n : nat).
Hypothesis amplitude_nonzero : a <> 0.
Hypothesis named : frequencyToNoteName f <> ""%string.
Hypothesis detector_steady :
  forall detector frame,
    exists clarity detector',
      findPitch detector frame sr = Ok (f, clarity, detector')
      /\ clarityThreshold <= clarity.

Lemma sumOfSquares_constant (l : list R) :
  Forall (fun x => x = a) l ->
  fold_left (fun acc x => acc + x * x) l 0 = INR (List.length l) * (a * a).
Proof.
  induction 1 as [|x l Hx Hall IH]; [simpl; lra|].
  cbn [fold_left List.length]. rewrite sumOfSquares_shift, IH, S_INR, Hx. lra.
Qed.

Lemma rms_constant (l : list R) :
  l <> [] -> Forall (fun x => x = a) l -> calculateRMS l = Rabs a.
Proof.
  intros Hne Hall. unfold calculateRMS.
  rewrite (sumOfSquares_constant l Hall).
  destruct (List.length l =? 0)%nat eqn:Hlen.
  - apply Nat.eqb_eq, length_zero_iff_nil in Hlen. contradiction.
  - apply Nat.eqb_neq in Hlen.
    assert (Hpos : 0 < INR (List.length l)) by (apply lt_0_INR; lia).
    replace (INR (List.length l) * (a * a) / INR (List.length l)) with (Rsqr a)
      by (unfold Rsqr; field; lra).
    apply sqrt_Rsqr_abs.
Qed.

Lemma constant_slice i j : Forall (fun x => x = a) (JS.slice (repeat a n) i j).
Proof.
  apply Forall_forall. intros x Hx. unfold JS.slice in Hx.
  apply firstn_subset in Hx.
  assert (Hin : In x (repeat a n))
    by (rewrite <- (firstn_skipn i (repeat a n)); apply in_or_app; right; exact Hx).
  apply repeat_spec in Hin. exact Hin.
Qed.

Lemma constant_slice_length i fs :
  (i + fs <= n)%nat -> List.length (JS.slice (repeat a n) i (i + fs)) = fs.
Proof.
  intros Hfit. unfold JS.slice.
  rewrite length_firstn, length_skipn, repeat_length. lia.
Qed.

Lemma median_constant k :
  (1 <= k)%nat -> median (repeat f k) = f.
Proof.
  intros Hk.
  assert (Hbetween : f <= median (repeat f k) <= f).
  { apply median_within.
    - destruct k; [lia | discriminate].
    - apply Forall_forall. intros x Hx. apply repeat_spec in Hx. lra. }
  lra.
Qed.

Lemma pushWindow_constant k :
  JS.pushWindow pitchFilterWindowSize f (repeat f (Nat.min k 3))
  = repeat f (Nat.min (S k) 3).
Proof.
  destruct k as [|[|[|k]]]; try reflexivity.
  rewrite !Nat.min_r by lia. reflexivity.
Qed.

Lemma frequency_positive : 0 < f.
Proof. apply name_nonempty_inv in named. lra. Qed.

(** What a frame of the constant buffer hands to the state machine. *)
Lemma steady_frame st detector i k :
  (i + frameSize <= n)%nat ->
  recentFrequencies st = repeat f (Nat.min k 3) ->
  exists clarity detector',
    clarityThreshold <= clarity
    /\ detectFrame (repeat a n) sr (Rabs a) (st, detector) i
       = Ok (feed st (mkReading (INR i / sr) (frequencyToNoteName f) clarity
                                (frameVelocity (Rabs a) (Rabs a))
                                (repeat f (Nat.min (S k) 3))),
             detector').
Proof.
  intros Hfit Hrecent. unfold detectFrame.
  assert (Hframe : calculateRMS (JS.slice (repeat a n) i (i + frameSize)) = Rabs a).
  { apply rms_constant; [|apply constant_slice].
    intros Hnil. pose proof (constant_slice_length i frameSize Hfit) as Hlen.
    rewrite Hnil in Hlen. unfold frameSize in Hlen. simpl in Hlen. lia. }
  rewrite Hframe.
  pose proof (Rabs_pos_lt a amplitude_nonzero) as Hloud.
  destruct (Rlt_dec (Rabs a * (8 / 100)) (Rabs a)) as [_|Hquiet]; [|exfalso; lra].
  destruct (detector_steady detector (JS.slice (repeat a n) i (i + frameSize)))
    as (clarity & detector' & Hfind & Hclar).
  exists clarity, detector'. split; [exact Hclar|].
  rewrite Hfind. cbn [JS.bind].
  destruct (Rlt_dec 0 f) as [_|Hneg]; [|exfalso; pose proof frequency_positive; lra].
  rewrite Hrecent, pushWindow_constant.
  rewrite median_constant by (destruct k as [|[|[|k]]]; simpl; lia).
  reflexivity.
Qed.

(** The frames after the first extend the run. *)
Lemma steady_loop offsets :
  forall start k loudest detector,
    (1 <= k)%nat ->
    (3 <= k -> loudest = frameVelocity (Rabs a) (Rabs a))%nat ->
    Forall (fun i => i + frameSize <= n)%nat offsets ->
    exists loudest' detector',
      JS.forEachM (detectFrame (repeat a n) sr (Rabs a)) offsets
                  (trackingState (frequencyToNoteName f) start k loudest
                                 (repeat f (Nat.min k 3)), detector)
      = Ok (trackingState (frequencyToNoteName f) start (k + List.length offsets) loudest'
                          (repeat f (Nat.min (k + List.length offsets) 3)), detector')
      /\ (3 <= k + List.length offsets -> loudest' = frameVelocity (Rabs a) (Rabs a))%nat.
Proof.
  induction offsets as [|i offsets IH]; intros start k loudest detector Hk Hloud Hfit.
  - exists loudest, detector. rewrite Nat.add_0_r. split; [reflexivity | exact Hloud].
  - inversion Hfit as [|? ? Hi Hrest]; subst.
    destruct (steady_frame
                (trackingState (frequencyToNoteName f) start k loudest (repeat f (Nat.min k 3)))
                detector i k Hi eq_refl)
      as (clarity & detector1 & Hclar & Hframe).
    cbn [JS.forEachM]. rewrite Hframe. cbn [JS.bind].
    rewrite (feed_extends_run (frequencyToNoteName f) named start k loudest _ _ Hk)
      by (split; [reflexivity | exact Hclar]).
    cbn [readVelocity readRecent].
    destruct (IH start (S k)
                 (if (S k =? minConsecutiveFrames)%nat then frameVelocity (Rabs a) (Rabs a)
                  else Z.max loudest (frameVelocity (Rabs a) (Rabs a)))
                 detector1 ltac:(lia))
      as (loudest' & detector' & Hrun & Hloud'); [|exact Hrest|].
    + intros Hthree. destruct (S k =? minConsecutiveFrames)%nat eqn:Hconfirm; [reflexivity|].
      apply Nat.eqb_neq in Hconfirm. unfold minConsecutiveFrames in Hconfirm.
      rewrite Hloud by lia. apply Z.max_id.
    + exists loudest', detector'. cbn [List.length].
      replace (k + S (List.length offsets))%nat with (S k + List.length offsets)%nat by lia.
      split; [exact Hrun | exact Hloud'].
Qed.

Lemma frameStarts_fit len fs hop :
  Forall (fun i => i + fs <= len)%nat (JS.frameStarts len fs hop).
Proof.
  unfold JS.frameStarts. destruct (len <? fs)%nat eqn:Hshort; [constructor|].
  apply Nat.ltb_ge in Hshort.
  apply Forall_forall. intros j Hj. apply in_map_iff in Hj.
  destruct Hj as (k & <- & Hk). apply in_seq in Hk.
  destruct hop as [|hop]; [lia|].
  assert (Hk' : (k <= (len - fs) / S hop)%nat) by lia.
  apply (Nat.mul_le_mono_r _ _ (S hop)) in Hk'.
  pose proof (Nat.Div0.mul_div_le (len - fs) (S hop)) as Hdiv.
  lia.
Qed.

Lemma frameStarts_head len fs hop :
  (fs <= len)%nat ->
  JS.frameStarts len fs hop
  = 0%nat :: map (fun k => (k * hop)%nat) (seq 1 ((len - fs) / hop)).
Proof.
  intros Hlen. unfold JS.frameStarts.
  replace (len <? fs)%nat with false by (symmetry; apply Nat.ltb_ge; exact Hlen).
  rewrite Nat.add_1_r. reflexivity.
Qed.

End SteadyTone.

(** The run of [detectNotes] over a buffer of constant amplitude. *)
Lemma steady_tone_run `{Platform} (a f sr : R) (n : nat) :
  0 < sr ->
  a <> 0 ->
  (2048 + 2 * 441 <= n)%nat ->
  7 / 100 <= INR n / sr ->
  frequencyToNoteName f <> ""%string ->
  (forall detector frame,
      exists clarity detector',
        findPitch detector frame sr = Ok (f, clarity, detector')
        /\ clarityThreshold <= clarity) ->
  detectNotes (repeat a n) sr
  = Ok [mkNote (frequencyToNoteName f) (INR 0 / sr) (INR n / sr - INR 0 / sr)
               (frameVelocity (Rabs a) (Rabs a))].
Proof.
  intros Hsr Ha Hn Hlong Hnamed Hdet.
  assert (Hfs : (frameSize <= n)%nat) by (unfold frameSize; lia).
  unfold detectNotes. rewrite repeat_length.
  rewrite (rms_constant a (repeat a n)); cycle 1.
  { destruct n; [lia | discriminate]. }
  { apply Forall_forall. intros x Hx. apply repeat_spec in Hx. exact Hx. }
  pose proof (frameStarts_fit n frameSize hopSize) as Hfit.
  rewrite (frameStarts_head n frameSize hopSize Hfs) in Hfit |- *.
  inversion Hfit as [|? ? Hfirst Hrest]; subst.
  destruct (steady_frame a f sr n Ha Hnamed Hdet detectInit (forFloat32Array frameSize)
              0%nat 0%nat Hfirst eq_refl)
    as (clarity & detector1 & Hclar & Hframe).
  cbn [JS.forEachM]. rewrite Hframe. cbn [JS.bind].
  rewrite (feed_opens_run (frequencyToNoteName f) Hnamed)
    by (split; [reflexivity | exact Hclar]).
  cbn [readTime readRecent].
  destruct (steady_loop a f sr n Ha Hnamed Hdet
              (map (fun k => (k * hopSize)%nat) (seq 1 ((n - frameSize) / hopSize)))
              (INR 0 / sr) 1%nat 0%Z detector1 ltac:(lia) ltac:(lia) Hrest)
    as (loudest' & detector' & Hrun & Hloud).
  change (repeat f (Nat.min 1 3)) with [f] in Hrun.
  change (Nat.min 1 3) with 1%nat. change (repeat f 1) with [f].
  rewrite Hrun. cbn [JS.bind].
  rewrite length_map, length_seq in Hloud |- *.
  assert (Hframes : (2 <= (n - frameSize) / hopSize)%nat).
  { apply Nat.div_le_lower_bound; unfold frameSize, hopSize; lia. }
  rewrite Hloud by lia.
  unfold closeNote, trackingState. cbn [currentNote consecutiveFramesCount emitted].
  replace (minConsecutiveFrames <=? 1 + (n - frameSize) / hopSize)%nat with true
    by (symmetry; apply Nat.leb_le; unfold minConsecutiveFrames; lia).
  cbn [openStart openPitch openVelocity].
  assert (Hzero : INR 0 / sr = 0) by (simpl; unfold Rdiv; apply Rmult_0_l).
  destruct (Rle_dec detectMinDuration (INR n / sr - INR 0 / sr)) as [_|Hshort];
    [|exfalso; unfold detectMinDuration in Hshort; rewrite Hzero in Hshort; lra].
  reflexivity.
Qed.

(** X19: a steady tone is one note.  On a buffer of constant non-zero
    amplitude that holds at least three analysis frames
    (2048 + 2 * 441 samples) and lasts at least 0.07 s, with a detector
    that reports one nameable frequency with clarity of at least 0.88 on
    every frame, [detectNotes] returns exactly one note: the name of that
    frequency, onset 0, a duration of the whole buffer, and the velocity
    of a frame as loud as the buffer. *)
Theorem steady_tone_is_one_note `{Platform} (a f sr : R) (n : nat) :
  0 < sr ->
  a <> 0 ->
  (2048 + 2 * 441 <= n)%nat ->
  7 / 100 <= INR n / sr ->
  frequencyToNoteName f <> ""%string ->
  (forall detector frame,
      exists clarity detector',
        findPitch detector frame sr = Ok (f, clarity, detector')
        /\ clarityThreshold <= clarity) ->
  exists note,
    detectNotes (repeat a n) sr = Ok [note]
    /\ pitch note = frequencyToNoteName f
    /\ startTime note = 0
    /\ duration note = INR n / sr
    /\ velocity note = frameVelocity (Rabs a) (Rabs a).
Proof.
  intros Hsr Ha Hn Hlong Hnamed Hdet.
  pose proof (steady_tone_run a f sr n Hsr Ha Hn Hlong Hnamed Hdet) as Hrun.
  assert (Hzero : INR 0 / sr = 0) by (simpl; unfold Rdiv; apply Rmult_0_l).
  eexists. split; [exact Hrun|]. cbn [pitch startTime duration velocity].
  rewrite Hzero. repeat split; auto. lra.
Qed.

Lemma steady_tone_is_one_note_witness :
  exists note,
    @detectNotes steadyPlatform (repeat 1 4096) 44100 = Ok [note]
    /\ pitch note = "A4"%string
    /\ startTime note = 0
    /\ duration note = INR 4096 / 44100.
Proof.
  destruct (@steady_tone_is_one_note steadyPlatform 1 440 44100 4096)
    as (note & Hrun & Hpitch & Hstart & Hdur & _).
  - lra.
  - lra.
  - lia.
  - rewrite INR_IZR_INZ. simpl. lra.
  - rewrite name_440. discriminate.
  - intros detector frame. exists 1, detector. split; [reflexivity|].
    unfold clarityThreshold. lra.
  - exists note. rewrite name_440 in Hpitch. auto.
Defined.


(** ** TempoEstimator: buffers without rhythm *)

Section OnsetFacts.

Variables (buffer : list R) (sampleRate : R).

(** A frame adds at most one onset. *)
Lemma onsetFrame_count st i :
  (List.length (onsetTimes (onsetFrame buffer sampleRate st i))
   <= S (List.length (onsetTimes st)))%nat.
Proof.
  unfold onsetFrame. cbn [onsetTimes].
  destruct (_ && _ && _)%bool; [rewrite length_app; simpl; lia | lia].
Qed.

Lemma onset_loop_count offsets :
  forall st,
    (List.length (onsetTimes (fold_left (onsetFrame buffer sampleRate) offsets st))
     <= List.length (onsetTimes st) + List.length offsets)%nat.
Proof.
  induction offsets as [|i offsets IH]; intros st; cbn [fold_left List.length]; [lia|].
  pose proof (IH (onsetFrame buffer sampleRate st i)).
  pose proof (onsetFrame_count st i). lia.
Qed.

(** Frames that fail one of the three onset tests add nothing. *)
Lemma onset_loop_none (test : OnsetState -> nat -> Prop) offsets :
  (forall st i, test st i ->
     onsetTimes (onsetFrame buffer sampleRate st i) = onsetTimes st
     /\ forall j, test (onsetFrame buffer sampleRate st i) j) ->
  forall st,
    (forall i, test st i) ->
    onsetTimes (fold_left (onsetFrame buffer sampleRate) offsets st) = onsetTimes st.
Proof.
  intros Hstep. induction offsets as [|i offsets IH]; intros st Htest; [reflexivity|].
  cbn [fold_left]. destruct (Hstep st i (Htest i)) as [Hsame Hnext].
  rewrite IH by exact Hnext. exact Hsame.
Qed.

End OnsetFacts.

Section NoRhythm.

Lemma frame_count_short len :
  (len < 1024 + 9 * 256)%nat -> (List.length (JS.frameStarts len 1024 256) < 10)%nat.
Proof.
  intros Hlen. unfold JS.frameStarts.
  destruct (len <? 1024)%nat eqn:Hshort; [simpl; lia|].
  apply Nat.ltb_ge in Hshort. rewrite length_map, length_seq.
  assert ((len - 1024) / 256 < 9)%nat by (apply Nat.Div0.div_lt_upper_bound; lia).
  lia.
Qed.

Lemma slice_within (buffer : list R) i j M :
  Forall (fun x => Rabs x <= M) buffer -> Forall (fun x => Rabs x <= M) (JS.slice buffer i j).
Proof.
  intros Hall. apply Forall_forall. intros x Hx. unfold JS.slice in Hx.
  apply firstn_subset in Hx. rewrite Forall_forall in Hall. apply Hall.
  rewrite <- (firstn_skipn i buffer). apply in_or_app. right. exact Hx.
Qed.

(** No frame of a quiet buffer passes the absolute floor of 0.01. *)
Lemma quiet_buffer_no_onset buffer sampleRate :
  Forall (fun x => Rabs x <= 1 / 100) buffer -> detectOnsets buffer sampleRate = [].
Proof.
  intros Hquiet. unfold detectOnsets.
  rewrite (onset_loop_none buffer sampleRate (fun _ _ => True)); [reflexivity | | auto].
  intros st i _. split; [|auto].
  unfold onsetFrame. cbn [onsetTimes].
  assert (Hfloor : JS.ltb (1 / 100) (calculateRMS (JS.slice buffer i (i + 1024))) = false).
  { apply ltb_false. apply calculateRMS_le; [lra|]. apply slice_within. exact Hquiet. }
  rewrite Hfloor, andb_false_r. reflexivity.
Qed.

Lemma sum_constant (c : R) history :
  Forall (fun x => x = c) history ->
  forall acc, fold_left (fun sum val => sum + val) history acc
              = acc + INR (List.length history) * c.
Proof.
  induction 1 as [|x history Hx Hall IH]; intros acc; [simpl; lra|].
  cbn [fold_left List.length]. rewrite IH, S_INR, Hx. lra.
Qed.

Lemma pushWindow_all (c : R) size history :
  (1 <= size)%nat ->
  Forall (fun x => x = c) history ->
  Forall (fun x => x = c) (JS.pushWindow size c history)
  /\ JS.pushWindow size c history <> [].
Proof.
  intros Hsize Hall. unfold JS.pushWindow.
  assert (Hpush : Forall (fun x => x = c) (history ++ [c]))
    by (apply Forall_app; split; [exact Hall | repeat constructor]).
  destruct (size <? List.length (history ++ [c]))%nat eqn:Hfull.
  - split.
    + destruct (history ++ [c]); [constructor | inversion Hpush; assumption].
    + apply Nat.ltb_lt in Hfull. rewrite length_app in Hfull. simpl in Hfull.
      destruct history as [|x [|y history]]; simpl in *; [lia | discriminate | discriminate].
  - split; [exact Hpush|]. destruct history; discriminate.
Qed.

(** In a buffer of constant amplitude no frame stands out of the moving
    average. *)
Lemma constant_buffer_no_onset a n sampleRate :
  detectOnsets (repeat a n) sampleRate = [].
Proof.
  unfold detectOnsets.
  pose proof (frameStarts_fit (List.length (repeat a n)) 1024 256) as Hfit.
  rewrite repeat_length in Hfit |- *.
  remember (JS.frameStarts n 1024 256) as offsets eqn:Hoffsets. clear Hoffsets.
  assert (Hloop : forall st,
             Forall (fun x => x = Rabs a) (rmsHistory st) ->
             onsetTimes (fold_left (onsetFrame (repeat a n) sampleRate) offsets st)
             = onsetTimes st).
  { induction Hfit as [|i offsets Hi Hfit IH]; intros st Hhist; [reflexivity|].
    cbn [fold_left].
    assert (Hrms : calculateRMS (JS.slice (repeat a n) i (i + 1024)) = Rabs a).
    { apply rms_constant; [|apply constant_slice].
      intros Hnil. pose proof (constant_slice_length a n i 1024 Hi) as Hlen.
      rewrite Hnil in Hlen. simpl in Hlen. lia. }
    rewrite IH.
    - unfold onsetFrame. cbn [onsetTimes]. rewrite Hrms.
      destruct (pushWindow_all (Rabs a) 10 (rmsHistory st) ltac:(lia) Hhist) as [Hwin Hne].
      rewrite (sum_constant (Rabs a) _ Hwin), Rplus_0_l.
      assert (Hlen : 0 < INR (List.length (JS.pushWindow 10 (Rabs a) (rmsHistory st)))).
      { apply lt_0_INR. destruct (JS.pushWindow 10 (Rabs a) (rmsHistory st));
          [congruence | simpl; lia]. }
      assert (Havg : JS.ltb (INR (List.length (JS.pushWindow 10 (Rabs a) (rmsHistory st)))
                             * Rabs a
                             / INR (List.length (JS.pushWindow 10 (Rabs a) (rmsHistory st)))
                             * (11 / 10)) (Rabs a) = false).
      { apply ltb_false.
        replace (INR (List.length (JS.pushWindow 10 (Rabs a) (rmsHistory st))) * Rabs a
                 / INR (List.length (JS.pushWindow 10 (Rabs a) (rmsHistory st))))
          with (Rabs a) by (field; lra).
        pose proof (Rabs_pos a). lra. }
      rewrite Havg, andb_false_r. reflexivity.
    - unfold onsetFrame. cbn [rmsHistory]. rewrite Hrms.
      apply pushWindow_all; [lia | exact Hhist]. }
  rewrite Hloop; [reflexivity | constructor].
Qed.

(** Too short for ten analysis frames, quiet, or constant: fewer than
    ten onsets. *)
Lemma few_onsets_without_rhythm buffer sampleRate :
  (List.length buffer < 3328)%nat
  \/ Forall (fun x => Rabs x <= 1 / 100) buffer
  \/ (exists a n, buffer = repeat a n) ->
  (List.length (detectOnsets buffer sampleRate) < 10)%nat.
Proof.
  intros [Hshort | [Hquiet | (a & n & ->)]].
  - unfold detectOnsets.
    pose proof (onset_loop_count buffer sampleRate
                  (JS.frameStarts (List.length buffer) 1024 256) (mkOnset 0 [] [])) as Hcount.
    pose proof (frame_count_short (List.length buffer) ltac:(lia)) as Hframes.
    cbn [onsetTimes List.length] in Hcount. lia.
  - rewrite (quiet_buffer_no_onset buffer sampleRate Hquiet). simpl. lia.
  - rewrite constant_buffer_no_onset. simpl. lia.
Qed.

End NoRhythm.

(** X20: [detectTempo] falls back to 120 BPM on buffers without rhythmic
    evidence, at every sample rate: a buffer that holds fewer than ten
    analysis frames (fewer than 1024 + 9 * 256 = 3328 samples), a quiet
    buffer (every sample within [-0.01, 0.01]; no frame passes the absolute
    floor), and a buffer of constant amplitude (no frame exceeds 1.1 times
    the moving average). *)
Theorem detectTempo_default_without_rhythm (buffer : list R) (sampleRate : R) :
  (List.length buffer < 3328)%nat
  \/ Forall (fun x => Rabs x <= 1 / 100) buffer
  \/ (exists a n, buffer = repeat a n) ->
  detectTempo buffer sampleRate = 120%Z.
Proof.
  intros Hcase. unfold detectTempo, tempoFromOnsets.
  pose proof (few_onsets_without_rhythm buffer sampleRate Hcase) as Hfew.
  apply Nat.ltb_lt in Hfew. rewrite Hfew. reflexivity.
Qed.

Lemma detectTempo_default_without_rhythm_witness :
  detectTempo [1 / 200; - (1 / 300); 0] 44100 = 120%Z
  /\ detectTempo (repeat 1 4096) 44100 = 120%Z.
Proof.
  split.
  - apply detectTempo_default_without_rhythm. left. simpl. lia.
  - apply detectTempo_default_without_rhythm. right. right. exists 1, 4096%nat. reflexivity.
Defined.

(** ** TempoEstimator: evenly spaced onsets *)

Section EvenOnsets.

Lemma interOnsetIntervals_length onsets :
  List.length (interOnsetIntervals onsets) = (List.length onsets - 1)%nat.
Proof.
  induction onsets as [|a1 [|b rest] IH]; [reflexivity | reflexivity |].
  change (interOnsetIntervals (a1 :: b :: rest))
    with ((b - a1) :: interOnsetIntervals (b :: rest)).
  cbn [List.length] in *. lia.
Qed.

Lemma filter_flat_map {A B} (keep : B -> bool) (g : A -> list B) l :
  filter keep (flat_map g l) = flat_map (fun x => filter keep (g x)) l.
Proof.
  induction l as [|x l IH]; [reflexivity|].
  cbn [flat_map]. rewrite filter_app, IH. reflexivity.
Qed.

Lemma constant_intervals p (iois : list R) :
  Forall (fun ioi => ioi = p) iois -> iois = repeat p (List.length iois).
Proof.
  induction 1 as [|x iois Hx Hall IH]; [reflexivity|].
  cbn [List.length repeat]. rewrite Hx, <- IH. reflexivity.
Qed.

(** The candidates of [m] equal intervals whose range checks keep [kept]. *)
Lemma candidates_of_equal_intervals p m kept :
  filter tempoRangeCheck [p; p * 2; p / 2] = kept ->
  filter tempoRangeCheck (flat_map (fun ioi => [ioi; ioi * 2; ioi / 2]) (repeat p m))
  = flat_map (fun _ => kept) (repeat p m).
Proof.
  intros Hkept. rewrite filter_flat_map.
  induction m as [|m IH]; [reflexivity|].
  cbn [repeat flat_map]. rewrite IH, Hkept. reflexivity.
Qed.

Lemma pairs_perm_blocks (x lo hi : R) m :
  Permutation (flat_map (fun _ => [lo; hi]) (repeat x m)) (repeat lo m ++ repeat hi m).
Proof.
  induction m as [|m IH]; [reflexivity|].
  cbn [repeat flat_map app]. apply perm_skip.
  apply Permutation_cons_app. exact IH.
Qed.

Lemma blocks_sorted lo hi k m :
  lo <= hi -> StronglySorted (keyLe (fun v => v)) (repeat lo k ++ repeat hi m).
Proof.
  intros Hle.
  induction k as [|k IHk]; cbn [repeat app].
  - induction m as [|m IHm]; simpl; constructor; [exact IHm|].
    apply Forall_forall. intros y Hy. apply repeat_spec in Hy. unfold keyLe. lra.
  - constructor; [exact IHk|].
    apply Forall_forall. intros y Hy. unfold keyLe.
    apply in_app_or in Hy. destruct Hy as [Hy|Hy]; apply repeat_spec in Hy; lra.
Qed.

Lemma nth_repeat_inside (v : R) i m : (i < m)%nat -> nth i (repeat v m) 0 = v.
Proof.
  intros Hi. apply (repeat_spec m v). apply nth_In. rewrite repeat_length. exact Hi.
Qed.

(** The median of [m] copies of [lo] and [m] copies of [hi] is their mean. *)
Lemma median_of_blocks lo hi m :
  (1 <= m)%nat -> lo <= hi -> median (repeat lo m ++ repeat hi m) = (lo + hi) / 2.
Proof.
  intros Hm Hle. unfold median.
  rewrite (sortBy_of_sorted (fun v => v)) by (apply blocks_sorted; exact Hle).
  rewrite length_app, !repeat_length.
  replace (m + m)%nat with (m * 2)%nat by lia.
  rewrite Nat.div_mul, Nat.Div0.mod_mul by lia.
  replace (m * 2 =? 0)%nat with false by (symmetry; apply Nat.eqb_neq; lia).
  cbn [Nat.eqb negb].
  rewrite app_nth1 by (rewrite repeat_length; lia).
  rewrite app_nth2 by (rewrite repeat_length; lia).
  rewrite repeat_length, Nat.sub_diag, !nth_repeat_inside by lia.
  reflexivity.
Qed.

Lemma median_of_pairs (x lo hi : R) m :
  (1 <= m)%nat -> lo <= hi ->
  median (flat_map (fun _ => [lo; hi]) (repeat x m)) = (lo + hi) / 2.
Proof.
  intros Hm Hle. rewrite (median_perm _ _ (pairs_perm_blocks x lo hi m)).
  apply median_of_blocks; assumption.
Qed.

Lemma median_of_singles (x v : R) m :
  (1 <= m)%nat -> median (flat_map (fun _ => [v]) (repeat x m)) = v.
Proof.
  intros Hm.
  assert (Hbetween : v <= median (flat_map (fun _ => [v]) (repeat x m)) <= v).
  { apply median_within.
    - destruct m; [lia | discriminate].
    - apply Forall_forall. intros y Hy. apply in_flat_map in Hy.
      destruct Hy as (_ & _ & [<-|[]]). lra. }
  lra.
Qed.

Lemma flat_map_constant_length {A B} (kept : list B) (x : A) m :
  List.length (flat_map (fun _ => kept) (repeat x m)) = (m * List.length kept)%nat.
Proof.
  induction m as [|m IH]; [reflexivity|].
  cbn [repeat flat_map]. rewrite length_app, IH. lia.
Qed.

(** The tempo of equal intervals, from what the range checks keep. *)
Lemma tempo_of_equal_intervals onsets p kept :
  (10 <= List.length onsets)%nat ->
  Forall (fun ioi => ioi = p) (interOnsetIntervals onsets) ->
  filter tempoRangeCheck [p; p * 2; p / 2] = kept ->
  kept <> [] ->
  tempoFromOnsets onsets
  = clamp 60 180
      (JS.round (60 / median (flat_map (fun _ => kept)
                                       (repeat p (List.length onsets - 1))))).
Proof.
  intros Hlen Hequal Hkept Hne.
  rewrite tempoFromOnsets_spec. unfold specTempo, survivingCandidates.
  rewrite (constant_intervals p _ Hequal), interOnsetIntervals_length.
  rewrite (candidates_of_equal_intervals p _ kept Hkept).
  replace (List.length onsets <? 10)%nat with false
    by (symmetry; apply Nat.ltb_ge; exact Hlen).
  rewrite flat_map_constant_length.
  replace ((List.length onsets - 1) * List.length kept <? 5)%nat with false;
    [reflexivity|].
  symmetry. apply Nat.ltb_ge.
  destruct kept as [|y kept]; [congruence|]. cbn [List.length]. nia.
Qed.

End EvenOnsets.

(** X21: the tempo of evenly spaced onsets.  For at least ten onsets, all
    [p] seconds apart, octave folding decides the estimate: for
    1/3 <= p <= 1/2 the interval and its double both pass the range check
    and the median is 1.5 p, so the tempo is [clamp(round(40 / p))]; for
    1/2 < p < 2/3 only the interval passes and the tempo is
    [clamp(round(60 / p))]; for 2/3 <= p <= 1 the interval and its half
    pass, the median is 0.75 p and the tempo is [clamp(round(80 / p))].
    Pulses every 0.5 s (120 per minute) are therefore estimated at
    80 BPM. *)
Theorem tempo_of_evenly_spaced_onsets (onsets : list R) (p : R) :
  (10 <= List.length onsets)%nat ->
  Forall (fun ioi => ioi = p) (interOnsetIntervals onsets) ->
  (1 / 3 <= p <= 1 / 2 -> tempoFromOnsets onsets = clamp 60 180 (JS.round (40 / p)))
  /\ (1 / 2 < p < 2 / 3 -> tempoFromOnsets onsets = clamp 60 180 (JS.round (60 / p)))
  /\ (2 / 3 <= p <= 1 -> tempoFromOnsets onsets = clamp 60 180 (JS.round (80 / p))).
Proof.
  intros Hlen Hequal.
  assert (Hm : (1 <= List.length onsets - 1)%nat) by lia.
  assert (Hyes : forall v, 1 / 3 <= v <= 1 -> tempoRangeCheck v = true)
    by (intros v Hv; apply tempoRangeCheck_spec; lra).
  assert (Hno : forall v, v < 1 / 3 \/ 1 < v -> tempoRangeCheck v = false).
  { intros v Hv. destruct (tempoRangeCheck v) eqn:Hcheck; [|reflexivity].
    apply tempoRangeCheck_spec in Hcheck. lra. }
  split; [|split]; intros Hp.
  - rewrite (tempo_of_equal_intervals onsets p [p; p * 2] Hlen Hequal);
      [| |discriminate].
    + rewrite median_of_pairs by (auto; lra).
      do 2 f_equal. field. lra.
    + cbn [filter]. rewrite (Hyes p), (Hyes (p * 2)), (Hno (p / 2)) by lra. reflexivity.
  - rewrite (tempo_of_equal_intervals onsets p [p] Hlen Hequal);
      [| |discriminate].
    + rewrite median_of_singles by auto. reflexivity.
    + cbn [filter]. rewrite (Hyes p), (Hno (p * 2)), (Hno (p / 2)) by lra. reflexivity.
  - rewrite (tempo_of_equal_intervals onsets p [p; p / 2] Hlen Hequal);
      [| |discriminate].
    + rewrite (median_perm _ (flat_map (fun _ => [p / 2; p])
                                       (repeat p (List.length onsets - 1)))).
      * rewrite median_of_pairs by (auto; lra). do 2 f_equal. field. lra.
      * generalize (List.length onsets - 1)%nat. intros m.
        induction m as [|m IH]; [reflexivity|].
        cbn [repeat flat_map app]. rewrite perm_swap. do 2 apply perm_skip. exact IH.
    + cbn [filter]. rewrite (Hyes p), (Hno (p * 2)), (Hyes (p / 2)) by lra. reflexivity.
Qed.

Lemma tempo_of_evenly_spaced_onsets_witness : tempoFromOnsets halfSecondPulses = 80%Z.
Proof.
  assert (Hlen : (10 <= List.length halfSecondPulses)%nat) by (simpl; lia).
  assert (Hequal : Forall (fun ioi => ioi = 1 / 2) (interOnsetIntervals halfSecondPulses)).
  { unfold halfSecondPulses. cbn [interOnsetIntervals].
    repeat (apply Forall_cons; [lra|]). apply Forall_nil. }
  rewrite (proj1 (tempo_of_evenly_spaced_onsets halfSecondPulses (1 / 2) Hlen Hequal))
    by lra.
  assert (Hround : JS.round (40 / (1 / 2)) = 80%Z) by (apply round_spec; lra).
  rewrite Hround. reflexivity.
Defined.

(** ** KeyEstimator: the printed key *)

Section KeyOutput.

Lemma pass_index_bound npc l :
  Forall (fun c : nat * bool => (fst c < 12)%nat) l ->
  forall best,
    (bestKeyIndex best < 12)%nat ->
    (bestKeyIndex (fold_left (compareCandidate npc) l best) < 12)%nat.
Proof.
  induction 1 as [|c l Hc Hall IH]; intros best Hbest; cbn [fold_left]; [exact Hbest|].
  apply IH. unfold compareCandidate.
  destruct (exceeds (correlationOf npc c) (maxCorrelation best)); [exact Hc | exact Hbest].
Qed.

Lemma keyCandidates_bound : Forall (fun c : nat * bool => (fst c < 12)%nat) keyCandidates.
Proof.
  apply Forall_forall. intros c Hin. unfold keyCandidates in Hin.
  apply in_flat_map in Hin. destruct Hin as (i & Hi & Hpair). apply in_seq in Hi.
  destruct Hpair as [<-|[<-|[]]]; cbn [fst]; lia.
Qed.

Lemma bestKey_index_bound npc : (bestKeyIndex (bestKey npc) < 12)%nat.
Proof.
  rewrite bestKey_one_pass.
  apply pass_index_bound; [apply keyCandidates_bound | cbn [bestKeyIndex]; lia].
Qed.

Lemma keyNames_not_NA : forallb (fun s => negb (s =? "N/A")%string) keyNames = true.
Proof. vm_compute. reflexivity. Qed.

Lemma printed_key_in_keyNames i (major : bool) :
  (i < 12)%nat ->
  In (nameAt i ++ " " ++ (if major then "Major" else "Minor"))%string keyNames.
Proof.
  intros Hi. unfold keyNames. apply in_flat_map. exists i.
  split; [apply in_seq; lia|].
  destruct major; [left | right; left]; reflexivity.
Qed.

(** The weight [detectKey] gives a note. *)
Lemma countNote_total acc note :
  snd (countNote acc note) = snd acc
  \/ snd (countNote acc note)
     = snd acc + duration note * (5 / 10 + IZR (velocity note) / 254).
Proof.
  destruct acc as [counts total]. unfold countNote.
  destruct (pitch note =? "")%string; [left; reflexivity|].
  destruct (pitchClassMatch (pitch note)) as [name|]; [|left; reflexivity].
  destruct (pitchClasses name); [right | left]; reflexivity.
Qed.

Lemma countNote_counted acc note :
  countedNote note ->
  snd (countNote acc note)
  = snd acc + duration note * (5 / 10 + IZR (velocity note) / 254)
  /\ 0 < duration note * (5 / 10 + IZR (velocity note) / 254).
Proof.
  intros (Hne & (name & index & Hmatch & Hclass) & Hdur & Hvel).
  destruct acc as [counts total]. unfold countNote.
  replace (pitch note =? "")%string with false
    by (symmetry; apply String.eqb_neq; exact Hne).
  rewrite Hmatch, Hclass. split; [reflexivity|].
  apply IZR_le in Hvel. apply Rmult_lt_0_compat; [exact Hdur|].
  assert (0 <= IZR (velocity note) / 254) by (apply Rmult_le_pos; lra). lra.
Qed.

Lemma counted_total_grows notes :
  Forall countedNote notes ->
  forall acc,
    snd acc <= snd (fold_left countNote notes acc)
    /\ (notes <> [] -> snd acc < snd (fold_left countNote notes acc)).
Proof.
  induction 1 as [|note notes Hnote Hall IH]; intros acc.
  - split; [apply Rle_refl | congruence].
  - cbn [fold_left].
    destruct (countNote_counted acc note Hnote) as [Hstep Hpos].
    destruct (IH (countNote acc note)) as [Hle _].
    split; [lra | intros _; lra].
Qed.

(** Notes without a readable pitch leave the histogram empty. *)
Lemma unreadable_total notes :
  Forall (fun note => pitch note = ""%string
                      \/ pitchClassMatch (pitch note) = None
                      \/ exists name, pitchClassMatch (pitch note) = Some name
                                      /\ pitchClasses name = None) notes ->
  forall acc, fold_left countNote notes acc = acc.
Proof.
  induction 1 as [|note notes Hnote Hall IH]; intros acc; [reflexivity|].
  cbn [fold_left].
  assert (Hskip : countNote acc note = acc).
  { destruct acc as [counts total]. unfold countNote.
    destruct Hnote as [Hempty | [Hnone | (name & Hmatch & Hclass)]].
    - rewrite Hempty. reflexivity.
    - destruct (pitch note =? "")%string; [reflexivity|]. rewrite Hnone. reflexivity.
    - destruct (pitch note =? "")%string; [reflexivity|].
      rewrite Hmatch, Hclass. reflexivity. }
  rewrite Hskip. apply IH.
Qed.

Lemma detectKey_cases notes :
  (detectKey notes = "N/A"%string
   /\ (notes = [] \/ snd (fold_left countNote notes (repeat 0 12, 0)) = 0))
  \/ (exists i (major : bool),
        (i < 12)%nat
        /\ detectKey notes = (nameAt i ++ " " ++ (if major then "Major" else "Minor"))%string
        /\ notes <> [] /\ snd (fold_left countNote notes (repeat 0 12, 0)) <> 0).
Proof.
  unfold detectKey.
  destruct notes as [|n notes]; [left; auto|].
  change (List.length (n :: notes) =? 0)%nat with false. cbv iota.
  destruct (fold_left countNote (n :: notes) (repeat 0 12, 0)) as [counts total] eqn:Hhist.
  cbn [snd].
  destruct (Req_dec_T total 0) as [Hzero|Hnz]; [left; auto|].
  right. eexists _, _. split; [apply bestKey_index_bound|].
  split; [reflexivity|]. split; [discriminate | exact Hnz].
Qed.

End KeyOutput.

(** X22: [detectKey] prints either "N/A" or the name of one of the twelve
    entries of [NOTE_NAMES] followed by " Major" or " Minor" (never an
    [undefined] root); it prints "N/A" exactly when the note list is empty
    or the histogram's total weight is zero, which is the case when no
    note has a pitch the capture and the table both accept. *)
Theorem detectKey_output (notes : list Note) :
  (detectKey notes = "N/A"%string \/ In (detectKey notes) keyNames)
  /\ (detectKey notes = "N/A"%string
      <-> notes = [] \/ snd (fold_left countNote notes (repeat 0 12, 0)) = 0)
  /\ (Forall (fun note => pitch note = ""%string
                          \/ pitchClassMatch (pitch note) = None
                          \/ exists name, pitchClassMatch (pitch note) = Some name
                                          /\ pitchClasses name = None) notes ->
      detectKey notes = "N/A"%string).
Proof.
  assert (Hnames : forall s, In s keyNames -> s <> "N/A"%string).
  { intros s Hs Heq.
    pose proof (proj1 (forallb_forall _ keyNames) keyNames_not_NA s Hs) as Hcheck.
    rewrite Heq in Hcheck. discriminate. }
  destruct (detectKey_cases notes)
    as [[HNA Hwhy] | (i & major & Hi & Hkey & Hne & Hnz)].
  - split; [left; exact HNA|]. split; [tauto|]. intros _. exact HNA.
  - pose proof (printed_key_in_keyNames i major Hi) as Hin. rewrite <- Hkey in Hin.
    split; [right; exact Hin|]. split.
    + split; [intros HNA; exfalso; exact (Hnames _ Hin HNA) | tauto].
    + intros Hunreadable. exfalso. apply Hnz.
      rewrite (unreadable_total notes Hunreadable). reflexivity.
Qed.

Lemma detectKey_output_witness :
  detectKey [mkNote "H4" 0 1 80; mkNote "E#4" 1 1 80; mkNote "" 2 1 80] = "N/A"%string.
Proof.
  apply (proj2 (proj2 (detectKey_output
                         [mkNote "H4" 0 1 80; mkNote "E#4" 1 1 80; mkNote "" 2 1 80]))).
  apply Forall_cons; [right; left; reflexivity|].
  apply Forall_cons; [right; right; exists "E#"%string; split; reflexivity|].
  apply Forall_cons; [left; reflexivity | apply Forall_nil].
Defined.

(** ** TimeSignatureEstimator *)

Section MeterScores.

Lemma trunc_IZR k : JS.trunc (IZR k) = k.
Proof.
  unfold JS.trunc. destruct (Rle_dec 0 (IZR k)); [apply ZfloorZ|].
  rewrite ZfloorNZ. lia.
Qed.

(** [t % period] is 0 at a whole multiple of the period. *)
Lemma fmod_multiple k period : period <> 0 -> JS.fmod (IZR k * period) period = 0.
Proof.
  intros Hp. unfold JS.fmod.
  replace (IZR k * period / period) with (IZR k) by (field; exact Hp).
  rewrite trunc_IZR. ring.
Qed.

(** [t % period] is half the period at [k + 1/2] periods, [k >= 0]. *)
Lemma fmod_half k period :
  period <> 0 -> (0 <= k)%Z ->
  JS.fmod ((IZR k + 1 / 2) * period) period = period / 2.
Proof.
  intros Hp Hk. unfold JS.fmod.
  replace ((IZR k + 1 / 2) * period / period) with (IZR k + 1 / 2) by (field; exact Hp).
  apply IZR_le in Hk.
  assert (Htrunc : JS.trunc (IZR k + 1 / 2) = k).
  { unfold JS.trunc. destruct (Rle_dec 0 (IZR k + 1 / 2)) as [_|Hneg]; [|lra].
    apply Zfloor_eq. lra. }
  rewrite Htrunc. field.
Qed.

Lemma near_multiple k period tolerance :
  period <> 0 -> 0 < tolerance -> nearBoundary (IZR k * period) period tolerance = true.
Proof.
  intros Hp Htol. unfold nearBoundary. rewrite (fmod_multiple k period Hp).
  rewrite (proj2 (ltb_true 0 tolerance) Htol). reflexivity.
Qed.

Lemma far_at_half k period tolerance :
  0 < period -> (0 <= k)%Z -> tolerance <= period / 2 ->
  nearBoundary ((IZR k + 1 / 2) * period) period tolerance = false.
Proof.
  intros Hp Hk Htol. unfold nearBoundary.
  rewrite (fmod_half k period) by (try lra; exact Hk).
  rewrite (proj2 (ltb_false (period / 2) tolerance)) by lra.
  rewrite (proj2 (ltb_false (period - tolerance) (period / 2))) by lra.
  reflexivity.
Qed.

(** One note raises the two scores by at most 1.5 each. *)
Lemma scoreNote_bounds beat tolerance common compound note :
  let scores := scoreNote beat tolerance (common, compound) note in
  common <= fst scores <= common + 15 / 10
  /\ compound <= snd scores <= compound + 15 / 10.
Proof.
  unfold scoreNote.
  destruct (nearBoundary _ beat _), (nearBoundary _ (beat / 2) _),
    (nearBoundary _ (beat * (15 / 10)) _), (nearBoundary _ (beat / 2 * 3) _);
    cbn [fst snd]; lra.
Qed.

(** A note on a beat scores 1.5 for simple time. *)
Lemma scoreNote_on_beat beat k common compound note :
  0 < beat ->
  startTime note = IZR k * beat ->
  let scores := scoreNote beat (beat * (2 / 10)) (common, compound) note in
  fst scores = common + 15 / 10 /\ compound <= snd scores <= compound + 15 / 10.
Proof.
  intros Hbeat Hstart scores.
  split; [|apply (scoreNote_bounds beat (beat * (2 / 10)) common compound note)].
  assert (Hon : nearBoundary (startTime note) beat (beat * (2 / 10)) = true).
  { rewrite Hstart. apply near_multiple; lra. }
  assert (Hhalf : nearBoundary (startTime note) (beat / 2) (beat * (2 / 10)) = true).
  { replace (startTime note) with (IZR (2 * k) * (beat / 2))
      by (rewrite Hstart, mult_IZR; field).
    apply near_multiple; lra. }
  subst scores. unfold scoreNote. rewrite Hon, Hhalf. cbn [fst]. lra.
Qed.

(** A note half-way between two beats, on a multiple of the dotted
    quarter, scores 0.5 for simple and 1.5 for compound time. *)
Lemma scoreNote_dotted beat k common compound note :
  0 < beat -> (0 <= k)%Z ->
  startTime note = IZR (2 * k + 1) * (beat * (15 / 10)) ->
  scoreNote beat (beat * (2 / 10)) (common, compound) note
  = (common + 5 / 10, compound + 1 + 5 / 10).
Proof.
  intros Hbeat Hk Hstart.
  assert (Hdot : nearBoundary (startTime note) (beat * (15 / 10)) (beat * (2 / 10)) = true).
  { rewrite Hstart. apply near_multiple; lra. }
  assert (Hoff : nearBoundary (startTime note) beat (beat * (2 / 10)) = false).
  { replace (startTime note) with ((IZR (3 * k + 1) + 1 / 2) * beat)
      by (rewrite Hstart, !plus_IZR, !mult_IZR; field).
    apply far_at_half; [lra | lia | lra]. }
  assert (Hhalf : nearBoundary (startTime note) (beat / 2) (beat * (2 / 10)) = true).
  { replace (startTime note) with (IZR (6 * k + 3) * (beat / 2))
      by (rewrite Hstart, !plus_IZR, !mult_IZR; field).
    apply near_multiple; lra. }
  unfold scoreNote.
  replace (beat / 2 * 3) with (beat * (15 / 10)) by field.
  rewrite Hdot, Hoff, Hhalf. reflexivity.
Qed.

Lemma scores_on_beat beat notes :
  0 < beat ->
  Forall (fun note => exists k, startTime note = IZR k * beat) notes ->
  forall common compound,
    compound <= common ->
    let scores := fold_left (scoreNote beat (beat * (2 / 10))) notes (common, compound) in
    snd scores <= fst scores /\ common <= fst scores.
Proof.
  intros Hbeat. induction 1 as [|note notes [k Hk] Hall IH]; intros common compound Hle;
    cbn [fold_left].
  - cbn [fst snd]. lra.
  - destruct (scoreNote_on_beat beat k common compound note Hbeat Hk) as [Hc Hp].
    destruct (scoreNote beat (beat * (2 / 10)) (common, compound) note)
      as [common' compound'] eqn:Hstep.
    cbn [fst snd] in Hc, Hp.
    destruct (IH common' compound' ltac:(lra)) as [H1 H2]. split; [exact H1 | lra].
Qed.

Lemma scores_dotted beat notes :
  0 < beat ->
  Forall (fun note => exists k, (0 <= k)%Z
                                /\ startTime note = IZR (2 * k + 1) * (beat * (15 / 10)))
         notes ->
  forall common compound,
    fold_left (scoreNote beat (beat * (2 / 10))) notes (common, compound)
    = (common + INR (List.length notes) * (5 / 10),
       compound + INR (List.length notes) * (15 / 10)).
Proof.
  intros Hbeat. induction 1 as [|note notes (k & Hk & Hstart) Hall IH];
    intros common compound.
  - cbn [fold_left List.length INR]. rewrite !Rmult_0_l, !Rplus_0_r. reflexivity.
  - cbn [fold_left]. rewrite (scoreNote_dotted beat k common compound note Hbeat Hk Hstart).
    rewrite IH. change (List.length (note :: notes)) with (S (List.length notes)).
    rewrite S_INR. apply f_equal2; lra.
Qed.

End MeterScores.

(** X24: [detectTimeSignature] answers "4/4" or "6/8" and nothing else;
    "4/4" for fewer than five notes or a tempo that is not positive.  With
    at least five notes and a positive tempo, notes that all start on a
    whole number of beats give "4/4", and notes that all start on an odd
    multiple of the dotted quarter (1.5 beats) give "6/8". *)
Theorem detectTimeSignature_cases (notes : list Note) (tempo : Z) :
  (detectTimeSignature notes tempo = "4/4"%string
   \/ detectTimeSignature notes tempo = "6/8"%string)
  /\ ((List.length notes < 5)%nat \/ (tempo <= 0)%Z ->
      detectTimeSignature notes tempo = "4/4"%string)
  /\ (Forall (fun note => exists k, startTime note = IZR k * (60 / IZR tempo)) notes ->
      detectTimeSignature notes tempo = "4/4"%string)
  /\ ((5 <= List.length notes)%nat -> (0 < tempo)%Z ->
      Forall (fun note => exists k, (0 <= k)%Z
                /\ startTime note = IZR (2 * k + 1) * (60 / IZR tempo * (15 / 10)))
             notes ->
      detectTimeSignature notes tempo = "6/8"%string).
Proof.
  unfold detectTimeSignature.
  destruct ((List.length notes <? 5)%nat || (tempo <=? 0)%Z)%bool eqn:Hguard.
  - split; [left; reflexivity|]. split; [reflexivity|]. split; [reflexivity|].
    intros Hlen Htempo _. exfalso.
    apply orb_true_iff in Hguard. destruct Hguard as [Hshort|Hslow].
    + apply Nat.ltb_lt in Hshort. lia.
    + apply Z.leb_le in Hslow. lia.
  - apply orb_false_iff in Hguard. destruct Hguard as [Hlen Htempo].
    apply Nat.ltb_ge in Hlen. apply Z.leb_gt in Htempo.
    assert (Hbeat : 0 < 60 / IZR tempo).
    { apply IZR_lt in Htempo. apply Rdiv_lt_0_compat; lra. }
    split; [|split; [|split]].
    + destruct (fold_left _ notes (0, 0)) as [common compound].
      destruct (Rlt_dec _ _); [right | left]; reflexivity.
    + intros [Hshort|Hslow]; lia.
    + intros Hgrid.
      destruct (scores_on_beat (60 / IZR tempo) notes Hbeat Hgrid 0 0 (Rle_refl 0))
        as [Hle Hpos].
      destruct (fold_left _ notes (0, 0)) as [common compound]. cbn [fst snd] in Hle, Hpos.
      destruct (Rlt_dec _ _) as [Hlt|_]; [lra | reflexivity].
    + intros _ _ Hdotted.
      rewrite (scores_dotted (60 / IZR tempo) notes Hbeat Hdotted).
      assert (Hn : 5 <= INR (List.length notes)) by (apply le_INR in Hlen; simpl in Hlen; lra).
      destruct (Rlt_dec _ _) as [_|Hge]; [reflexivity | lra].
Qed.

Lemma detectTimeSignature_cases_witness :
  detectTimeSignature [] 120 = "4/4"%string
  /\ detectTimeSignature onBeatNotes 120 = "4/4"%string
  /\ detectTimeSignature dottedNotes 120 = "6/8"%string.
Proof.
  split; [|split].
  - apply (proj1 (proj2 (detectTimeSignature_cases [] 120))). left. simpl. lia.
  - apply (proj1 (proj2 (proj2 (detectTimeSignature_cases onBeatNotes 120)))).
    unfold onBeatNotes. cbn [map].
    repeat apply Forall_cons; cbn [startTime];
      [exists 0%Z | exists 1%Z | exists 2%Z | exists 3%Z | exists 4%Z | apply Forall_nil]; lra.
  - apply (proj2 (proj2 (proj2 (detectTimeSignature_cases dottedNotes 120))));
      [simpl; lia | lia |].
    unfold dottedNotes. cbn [map].
    repeat apply Forall_cons; cbn [startTime];
      [exists 0%Z | exists 1%Z | exists 2%Z | exists 3%Z | exists 4%Z | apply Forall_nil];
      (split; [lia | simpl; lra]).
Defined.

(** ** AnalysisPipeline: what every result looks like *)

Section NoteChains.

Lemma pianoName_key s : pianoName s -> pianoKeyName s.
Proof.
  intros [Hne [f Hf]]. rewrite Hf in Hne.
  destruct (name_nonempty_inv f Hne) as (_ & Hrange & Hname).
  exists (JS.round (12 * JS.log2 (f / 440) + 69)). split; [exact Hrange|].
  rewrite Hf. exact Hname.
Qed.

Lemma synthetic_pitch_key i :
  pianoKeyName (nth (i mod List.length syntheticPitches) syntheticPitches "undefined"%string).
Proof.
  change (List.length syntheticPitches) with 8%nat.
  pose proof (Nat.mod_upper_bound i 8 ltac:(lia)) as Hk.
  destruct (i mod 8)%nat as [|[|[|[|[|[|[|[|k]]]]]]]]; [| | | | | | | | lia].
  - exists 60%Z. split; [lia | reflexivity].
  - exists 62%Z. split; [lia | reflexivity].
  - exists 64%Z. split; [lia | reflexivity].
  - exists 65%Z. split; [lia | reflexivity].
  - exists 67%Z. split; [lia | reflexivity].
  - exists 69%Z. split; [lia | reflexivity].
  - exists 71%Z. split; [lia | reflexivity].
  - exists 72%Z. split; [lia | reflexivity].
Qed.

(** The key estimator reads the name of a piano key. *)
Lemma key_name_counted note :
  pianoKeyName (pitch note) -> 0 < duration note -> (0 <= velocity note)%Z ->
  countedNote note.
Proof.
  intros (r & Hr & Hname) Hdur Hvel.
  destruct (keyName_readable r Hr) as (Hblank & Hmatch & Hclass & _).
  unfold countedNote. rewrite Hname. split; [|split; [|split]]; auto.
  - intros Hempty. rewrite Hempty in Hblank. discriminate.
  - eexists _, _. split; [exact Hmatch | exact Hclass].
Qed.

Lemma synthetic_counted d : Forall countedNote (createSyntheticNotes d).
Proof.
  apply Forall_forall. intros n Hin.
  apply synthetic_In in Hin. destruct Hin as (i & _ & ->).
  apply key_name_counted; cbn [pitch duration velocity]; [apply synthetic_pitch_key | lra | lia].
Qed.

Lemma detectKey_counted notes :
  notes <> [] -> Forall countedNote notes -> In (detectKey notes) keyNames.
Proof.
  intros Hne Hall.
  destruct (detectKey_cases notes) as [[_ [Hnil|Hzero]] | (i & major & Hi & -> & _)].
  - contradiction.
  - destruct (counted_total_grows notes Hall (repeat 0 12, 0)) as [_ Hgrow].
    specialize (Hgrow Hne). change (snd (repeat 0 12, 0)) with 0 in Hgrow. lra.
  - apply printed_key_in_keyNames, Hi.
Qed.

Lemma meter_closed notes tempo :
  orDefault (detectTimeSignature notes tempo) "4/4" = "4/4"%string
  \/ orDefault (detectTimeSignature notes tempo) "4/4" = "6/8"%string.
Proof.
  unfold detectTimeSignature.
  destruct ((List.length notes <? 5)%nat || (tempo <=? 0)%Z)%bool; [left; reflexivity|].
  destruct (fold_left _ notes (0, 0)) as [common compound].
  destruct (Rlt_dec _ _); [right | left]; reflexivity.
Qed.

(** A chain of notes none of which is shorter than nothing: every note
    has ended when any later one starts. *)
Lemma chain_strong l :
  Sorted precedes l -> Forall (fun n => 0 <= duration n) l -> StronglySorted precedes l.
Proof.
  induction l as [|x l IH]; intros Hs Hdur; [constructor|].
  inversion Hs as [|? ? Hs' Hhd]; subst.
  inversion Hdur as [|? ? Hx Hdur']; subst.
  specialize (IH Hs' Hdur'). constructor; [exact IH|].
  destruct l as [|y l']; [constructor|].
  inversion Hhd as [|? ? Hxy]; subst.
  inversion IH as [|? ? _ Hall]; subst.
  inversion Hdur' as [|? ? Hy _]; subst.
  constructor; [exact Hxy|].
  eapply Forall_impl; [|exact Hall]. intros z Hyz.
  unfold precedes, noteEnd in *. lra.
Qed.





Lemma map_seq_strongly_sorted {A} (rel : A -> A -> Prop) (f : nat -> A) :
  (forall i j, (i < j)%nat -> rel (f i) (f j)) ->
  forall len start, StronglySorted rel (map f (seq start len)).
Proof.
  intros Hrel. induction len as [|len IH]; intros start; cbn [seq map]; [constructor|].
  constructor; [apply IH|].
  apply Forall_forall. intros y Hy. apply in_map_iff in Hy.
  destruct Hy as (j & <- & Hj). apply in_seq in Hj. apply Hrel. lia.
Qed.

Lemma synthetic_chain d : StronglySorted precedes (createSyntheticNotes d).
Proof.
  unfold createSyntheticNotes. apply map_seq_strongly_sorted.
  intros i j Hij. unfold precedes, noteEnd. cbn [startTime duration].
  apply lt_INR in Hij. assert (INR i + 1 <= INR j).
  { rewrite <- S_INR. apply le_INR. apply INR_lt in Hij. lia. }
  lra.
Qed.

(** What the merge loop keeps of a note: onset, pitch and velocity. *)
Lemma mergeNotes_keeps l :
  forall n, In n (mergeNotes l) ->
  exists m, In m l /\ startTime n = startTime m /\ pitch n = pitch m
            /\ velocity n = velocity m.
Proof.
  induction l as [|x|x y l IHy IHl] using merge_induction; intros n Hin.
  - contradiction.
  - exists n. destruct Hin as [<-|[]]. simpl; auto.
  - rewrite mergeNotes_step in Hin.
    assert (Hkeep : In n (x :: mergeNotes (y :: l)) ->
                    exists m, In m (x :: y :: l)
                              /\ startTime n = startTime m /\ pitch n = pitch m
                              /\ velocity n = velocity m).
    { intros [<-|Htl]; [exists x; simpl; auto|].
      destruct (IHy n Htl) as (m & Hm & Heq). exists m. simpl in *; tauto. }
    destruct (Rlt_dec _ _) as [Hfar|Hnear]; [exact (Hkeep Hin)|].
    destruct (_ && _)%bool; [|exact (Hkeep Hin)].
    destruct Hin as [<-|Htl]; [exists x; simpl; auto|].
    destruct (IHl n Htl) as (m & Hm & Heq). exists m. simpl in *; tauto.
Qed.

End NoteChains.

Section PipelineResults.

Context `{Platform}.

(** The fields of a result of the [try] block. *)
Lemma analyzeBody_fields audioFile r :
  analyzeBody audioFile = Ok r ->
  exists processed mono detected,
    mixDownToMono processed = Some mono
    /\ detectNotes mono (AudioBuffer.sampleRate processed) = Ok detected
    /\ key r = detectKey (candidateNotes detected processed)
    /\ timeSignature r
       = orDefault (detectTimeSignature (candidateNotes detected processed)
                      (detectTempo mono (AudioBuffer.sampleRate processed))) "4/4"
    /\ (notes r = createSyntheticNotes (AudioBuffer.duration processed)
        \/ notes r = mergeNotes (JS.sortBy startTime
                                   (filter keepNote (candidateNotes detected processed)))).
Proof.
  unfold analyzeBody. intros Hrun.
  destruct (decodeAudioData audioFile) as [original|e] eqn:Hdecode; simpl in Hrun;
    [|discriminate].
  assert (Hrest : forall trunc processed,
    (mono <- match mixDownToMono processed with
             | Some m => Ok m
             | None => Throw "Failed to process audio channels into mono."%string
             end ;;
     detected <- detectNotes mono (AudioBuffer.sampleRate processed) ;;
     (let notes0 := if (List.length detected =? 0)%nat
                    then createSyntheticNotes (AudioBuffer.duration processed)
                    else detected in
      let tempo0 := detectTempo mono (AudioBuffer.sampleRate processed) in
      let key0 := detectKey notes0 in
      let ts := detectTimeSignature notes0 tempo0 in
      let finalNotes := filter keepNote notes0 in
      if (List.length finalNotes =? 0)%nat
      then Ok (mkResult (Z.max 60 (JS.round (IZR tempo0))) key0 (orDefault ts "4/4")
                        (createSyntheticNotes (AudioBuffer.duration processed)) trunc)
      else
        let result0 :=
          mkResult (Z.max 60 (JS.round (IZR tempo0))) key0 (orDefault ts "4/4")
                   (mergeNotes (JS.sortBy startTime finalNotes)) trunc in
        match storeAnalysis result0 (fileName audioFile) with
        | Ok _ => Ok result0
        | Throw _ => Ok result0
        end)) = Ok r ->
    exists mono detected,
      mixDownToMono processed = Some mono
      /\ detectNotes mono (AudioBuffer.sampleRate processed) = Ok detected
      /\ key r = detectKey (candidateNotes detected processed)
      /\ timeSignature r
         = orDefault (detectTimeSignature (candidateNotes detected processed)
                        (detectTempo mono (AudioBuffer.sampleRate processed))) "4/4"
      /\ (notes r = createSyntheticNotes (AudioBuffer.duration processed)
          \/ notes r = mergeNotes (JS.sortBy startTime
                                     (filter keepNote (candidateNotes detected processed))))).
  { intros trunc processed Hbody.
    destruct (mixDownToMono processed) as [mono|] eqn:Hmono; simpl in Hbody;
      [|discriminate].
    destruct (detectNotes mono (AudioBuffer.sampleRate processed)) as [detected|e]
      eqn:Hdetect; simpl in Hbody; [|discriminate].
    exists mono, detected. fold (candidateNotes detected processed) in Hbody.
    destruct (List.length (filter keepNote (candidateNotes detected processed)) =? 0)%nat.
    - injection Hbody as <-. simpl. auto 10.
    - assert (Hr : r = mkResult
                (Z.max 60 (JS.round (IZR (detectTempo mono (AudioBuffer.sampleRate processed)))))
                (detectKey (candidateNotes detected processed))
                (orDefault (detectTimeSignature (candidateNotes detected processed)
                              (detectTempo mono (AudioBuffer.sampleRate processed))) "4/4")
                (mergeNotes (JS.sortBy startTime
                               (filter keepNote (candidateNotes detected processed))))
                trunc).
      { cbv zeta in Hbody. destruct (storeAnalysis _ _); congruence. }
      subst r. simpl. auto 10. }
  destruct (Rlt_dec MAX_DURATION_SECONDS (AudioBuffer.duration original)) as [Hlong|Hshort].
  - destruct (truncateAudioBuffer original MAX_DURATION_SECONDS) as [processed|e]
      eqn:Htrunc; simpl in Hrun; [|discriminate].
    destruct (Hrest true processed Hrun) as (mono & detected & Hfields).
    exists processed, mono, detected. exact Hfields.
  - simpl in Hrun.
    destruct (Hrest false original Hrun) as (mono & detected & Hfields).
    exists original, mono, detected. exact Hfields.
Qed.

(** The notes the estimators and the post-processing receive: a
    non-empty chain of piano-key notes. *)
Lemma candidates_shape mono sr detected processed :
  detectNotes mono sr = Ok detected ->
  candidateNotes detected processed <> []
  /\ StronglySorted precedes (candidateNotes detected processed)
  /\ Forall (fun n => pianoKeyName (pitch n) /\ (0 <= velocity n <= 127)%Z
                      /\ 0 <= startTime n /\ 0 < duration n)
            (candidateNotes detected processed).
Proof.
  intros Hrun. unfold candidateNotes.
  destruct detected as [|n detected]; cbn [List.length Nat.eqb].
  - split; [apply synthetic_nonempty|]. split; [apply synthetic_chain|].
    apply Forall_forall. intros n Hin.
    apply synthetic_In in Hin. destruct Hin as (i & _ & ->).
    cbn [pitch velocity startTime duration].
    split; [apply synthetic_pitch_key|]. split; [lia|].
    split; [apply Rmult_le_pos; [apply pos_INR | lra] | lra].
  - split; [discriminate|].
    assert (Hsr : 0 < sr).
    { destruct (Rlt_dec 0 sr) as [Hpos|Hneg]; [exact Hpos|].
      pose proof (detectNotes_idle mono sr _ ltac:(lra) Hrun). discriminate. }
    destruct (detectNotes_inv mono sr _ Hsr Hrun) as (Hchain & _ & Hfloor).
    pose proof (detectNotes_shape mono sr _ Hrun) as Hshape.
    assert (Hdur : Forall (fun m => 0 <= duration m) (n :: detected)).
    { eapply Forall_impl; [|exact Hfloor]. unfold detectMinDuration.
      intros m Hm. cbv beta in Hm. lra. }
    split; [apply chain_strong; assumption|].
    apply Forall_forall. intros m Hm.
    destruct (proj1 (Forall_forall _ _) Hshape m Hm) as (Hname & Hvel & Hstart).
    pose proof (proj1 (Forall_forall _ _) Hfloor m Hm) as Hlong.
    unfold detectMinDuration in Hlong. cbv beta in Hlong.
    split; [apply pianoName_key, Hname|]. split; [exact Hvel|]. split; [exact Hstart | lra].
Qed.

End PipelineResults.

(** X25: the key of every result of [analyzeAudio] is one of the 24
    names "<note> Major" / "<note> Minor" and never "N/A", and its time
    signature is "4/4" or "6/8": the estimators always receive at least
    one note with a readable pitch and positive weight, and the safe
    default is "C Major" in "4/4". *)
Theorem analyzed_key_and_meter `{Platform} (audioFile : File) :
  In (key (analyzeAudio audioFile)) keyNames
  /\ key (analyzeAudio audioFile) <> "N/A"%string
  /\ (timeSignature (analyzeAudio audioFile) = "4/4"%string
      \/ timeSignature (analyzeAudio audioFile) = "6/8"%string).
Proof.
  assert (Hnames : forall s, In s keyNames -> s <> "N/A"%string).
  { intros s Hs Heq.
    pose proof (proj1 (forallb_forall _ keyNames) keyNames_not_NA s Hs) as Hcheck.
    rewrite Heq in Hcheck. discriminate. }
  assert (Hkey : In (key (analyzeAudio audioFile)) keyNames
                 /\ (timeSignature (analyzeAudio audioFile) = "4/4"%string
                     \/ timeSignature (analyzeAudio audioFile) = "6/8"%string)).
  { unfold analyzeAudio.
    destruct (analyzeBody audioFile) as [r|e] eqn:Hrun.
    - destruct (analyzeBody_fields audioFile r Hrun)
        as (processed & mono & detected & _ & Hdetect & -> & -> & _).
      destruct (candidates_shape mono _ detected processed Hdetect) as (Hne & _ & Hshape).
      split; [|apply meter_closed].
      apply detectKey_counted; [exact Hne|].
      eapply Forall_impl; [|exact Hshape].
      intros n (Hname & Hvel & _ & Hdur). apply key_name_counted; [exact Hname | exact Hdur | lia].
    - cbn [safeDefault key timeSignature]. split; [|left; reflexivity].
      apply (printed_key_in_keyNames 0 true). lia. }
  destruct Hkey as [Hin Hmeter]. split; [exact Hin|]. split; [apply Hnames, Hin | exact Hmeter].
Qed.




(** X27: every note of every result of [analyzeAudio] names one of the
    88 piano keys (a [NOTE_NAMES] entry and the octave of a pitch number
    between 21 and 108), has a velocity between 0 and 127 and starts at or
    after 0. *)
Theorem analyzed_notes_are_piano_notes `{Platform} (audioFile : File) :
  Forall (fun n => pianoKeyName (pitch n)
                   /\ (0 <= velocity n <= 127)%Z
                   /\ 0 <= startTime n)
         (notes (analyzeAudio audioFile)).
Proof.
  assert (Hsynthetic : forall d,
             Forall (fun n => pianoKeyName (pitch n)
                              /\ (0 <= velocity n <= 127)%Z /\ 0 <= startTime n)
                    (createSyntheticNotes d)).
  { intros d. apply Forall_forall. intros n Hin.
    apply synthetic_In in Hin. destruct Hin as (i & _ & ->).
    cbn [pitch velocity startTime].
    split; [apply synthetic_pitch_key|]. split; [lia|].
    apply Rmult_le_pos; [apply pos_INR | lra]. }
  unfold analyzeAudio.
  destruct (analyzeBody audioFile) as [r|e] eqn:Hrun; [|apply Hsynthetic].
  destruct (analyzeBody_fields audioFile r Hrun)
    as (processed & mono & detected & _ & Hdetect & _ & _ & [-> | ->]);
    [apply Hsynthetic|].
  destruct (candidates_shape mono _ detected processed Hdetect) as (_ & _ & Hshape).
  apply Forall_forall. intros n Hn.
  destruct (mergeNotes_keeps _ n Hn) as (m & Hm & Hstart & Hpitch & Hvel).
  apply sortBy_In, filter_In in Hm.
  destruct (proj1 (Forall_forall _ _) Hshape m (proj1 Hm)) as (Hname & Hv & Hs & _).
  rewrite Hstart, Hpitch, Hvel. auto.
Qed.

Section QuietRecording.

(** The placeholder notes sit on the beats of the default tempo. *)
Lemma synthetic_common_time d :
  detectTimeSignature (createSyntheticNotes d) 120 = "4/4"%string.
Proof.
  unfold detectTimeSignature.
  destruct ((List.length (createSyntheticNotes d) <? 5)%nat || (120 <=? 0)%Z)%bool;
    [reflexivity|].
  assert (Hbeat : 0 < 60 / 120) by lra.
  assert (Hgrid : Forall (fun note => exists k, startTime note = IZR k * (60 / 120))
                         (createSyntheticNotes d)).
  { apply Forall_forall. intros n Hin.
    apply synthetic_In in Hin. destruct Hin as (i & _ & ->).
    exists (Z.of_nat i). cbn [startTime]. rewrite <- INR_IZR_INZ. lra. }
  destruct (scores_on_beat (60 / 120) _ Hbeat Hgrid 0 0 (Rle_refl 0)) as [Hle Hpos].
  destruct (fold_left _ (createSyntheticNotes d) (0, 0)) as [common compound].
  cbn [fst snd] in Hle, Hpos.
  destruct (Rlt_dec _ _) as [Hlt|_]; [lra | reflexivity].
Qed.

Lemma silent_mixdown b mono :
  Forall (Forall (fun x => x = 0)) (AudioBuffer.channels b) ->
  mixDownToMono b = Some mono ->
  Forall (fun x => x = 0) mono.
Proof.
  intros Hsilent Hmono.
  assert (Hwithin : Forall (fun x => Rabs x <= 0) mono).
  { apply (mono_within b mono 0 (Rle_refl 0)); [|exact Hmono].
    eapply Forall_impl; [|exact Hsilent]. intros ch Hch.
    eapply Forall_impl; [|exact Hch]. intros x ->. rewrite Rabs_R0. apply Rle_refl. }
  eapply Forall_impl; [|exact Hwithin]. intros x Hx.
  pose proof (Rabs_pos x) as Hpos.
  destruct (Req_dec_T x 0) as [Hzero|Hnz]; [exact Hzero|].
  pose proof (Rabs_pos_lt x Hnz). lra.
Qed.

End QuietRecording.

(** X28: a recording of at most 60 seconds (at a positive sample rate)
    that is shorter than one analysis frame (fewer than 2048 sample
    frames) or silent in every channel is answered with the placeholder
    notes for its duration, tempo 120 and time signature "4/4", not
    truncated; neither the pitch detector nor the outcome of the store
    step plays a part. *)
Theorem quiet_recording_gets_placeholder `{Platform} (audioFile : File)
    (audioBuffer : AudioBuffer.t) :
  decodeAudioData audioFile = Ok audioBuffer ->
  0 < AudioBuffer.sampleRate audioBuffer ->
  AudioBuffer.duration audioBuffer <= 60 ->
  (AudioBuffer.length audioBuffer < 2048)%nat
  \/ Forall (Forall (fun x => x = 0)) (AudioBuffer.channels audioBuffer) ->
  analyzeAudio audioFile
  = mkResult 120 (detectKey (createSyntheticNotes (AudioBuffer.duration audioBuffer)))
             "4/4" (createSyntheticNotes (AudioBuffer.duration audioBuffer)) false.
Proof.
  intros Hdecode Hrate Hshort Hquiet.
  destruct (mixDownToMono audioBuffer) as [mono|] eqn:Hmono.
  2: { unfold mixDownToMono in Hmono.
       destruct (AudioBuffer.numberOfChannels audioBuffer =? 1)%nat; discriminate. }
  assert (Hidle : (List.length mono < 2048)%nat \/ Forall (fun x => x = 0) mono).
  { destruct Hquiet as [Hlen|Hsilent].
    - left. rewrite (mixDownToMono_length audioBuffer mono Hmono). exact Hlen.
    - right. exact (silent_mixdown audioBuffer mono Hsilent Hmono). }
  assert (Hdetect : detectNotes mono (AudioBuffer.sampleRate audioBuffer) = Ok []).
  { unfold detectNotes. rewrite (idle_loop_of_short_or_silent mono _ Hidle). reflexivity. }
  assert (Htempo : detectTempo mono (AudioBuffer.sampleRate audioBuffer) = 120%Z).
  { unfold detectTempo, tempoFromOnsets.
    assert (Hfew : (List.length (detectOnsets mono (AudioBuffer.sampleRate audioBuffer))
                    < 10)%nat).
    { apply few_onsets_without_rhythm. destruct Hidle as [Hlen|Hsilent]; [left; lia|].
      right. left. eapply Forall_impl; [|exact Hsilent].
      intros x ->. rewrite Rabs_R0. lra. }
    apply Nat.ltb_lt in Hfew. rewrite Hfew. reflexivity. }
  unfold analyzeAudio, analyzeBody. rewrite Hdecode. cbn [JS.bind].
  destruct (Rlt_dec MAX_DURATION_SECONDS (AudioBuffer.duration audioBuffer)) as [Hlong|_];
    [unfold MAX_DURATION_SECONDS in Hlong; lra|].
  cbn [JS.bind]. rewrite Hmono. cbn [JS.bind]. rewrite Hdetect. cbn [JS.bind].
  cbn [List.length Nat.eqb]. cbv zeta. rewrite Htempo.
  rewrite (filter_all_kept keepNote _ (synthetic_kept (AudioBuffer.duration audioBuffer))).
  rewrite (sortBy_of_sorted startTime) by apply synthetic_sorted.
  rewrite (mergeNotes_noop _ (synthetic_unmergeable (AudioBuffer.duration audioBuffer))).
  rewrite synthetic_common_time, round_IZR.
  change (orDefault "4/4" "4/4") with "4/4"%string.
  change (Z.max 60 120) with 120%Z.
  destruct (List.length (createSyntheticNotes (AudioBuffer.duration audioBuffer)) =? 0)%nat;
    [reflexivity|].
  destruct (storeAnalysis _ _); reflexivity.
Qed.

Lemma quiet_recording_gets_placeholder_witness :
  @analyzeAudio quietPlatform tt
  = mkResult 120 (detectKey (createSyntheticNotes (AudioBuffer.duration twoSilentSeconds)))
             "4/4" (createSyntheticNotes (AudioBuffer.duration twoSilentSeconds)) false.
Proof.
  apply (@quiet_recording_gets_placeholder quietPlatform tt twoSilentSeconds).
  - reflexivity.
  - simpl. lra.
  - unfold AudioBuffer.duration, twoSilentSeconds, AudioBuffer.length, AudioBuffer.sampleRate.
    rewrite INR_IZR_INZ. change (Z.of_nat 4096) with 4096%Z. lra.
  - right. apply Forall_cons; [|apply Forall_nil].
    apply Forall_forall. intros x Hx. apply repeat_spec in Hx. exact Hx.
Defined.

(** ** The caller: ABC lengths and pitches *)


Section AbcHelpers.

Lemma abcKeys_checked : abcKeysDistinct = true.
Proof. vm_compute. reflexivity. Qed.

End AbcHelpers.



(** X30: [noteNameToAbc] reads every name the note namer gives a piano
    key: the result is never the rest "z", and two different piano keys
    are never written as the same ABC pitch. *)
Theorem piano_key_names_transcribe (s : string) :
  pianoKeyName s ->
  noteNameToAbc s <> "z"%string
  /\ forall s', pianoKeyName s' -> noteNameToAbc s' = noteNameToAbc s -> s' = s.
Proof.
  intros (r & Hr & ->).
  pose proof (proj1 (forallb_forall _ pianoKeys) abcKeys_checked r (pianoKeys_In r Hr))
    as Hcheck.
  apply andb_true_iff in Hcheck. destruct Hcheck as [Hrest Hdistinct].
  split.
  - intros Heq. unfold abcOfKey in Hrest. rewrite Heq in Hrest. discriminate.
  - intros s' (r' & Hr' & ->) Hsame.
    pose proof (proj1 (forallb_forall _ pianoKeys) Hdistinct r' (pianoKeys_In r' Hr'))
      as Hpair.
    apply orb_true_iff in Hpair. destruct Hpair as [Heq|Hdiff].
    + apply Z.eqb_eq in Heq. subst r'. reflexivity.
    + unfold abcOfKey in Hdiff. rewrite Hsame, String.eqb_refl in Hdiff. discriminate.
Qed.

Lemma piano_key_names_transcribe_witness :
  noteNameToAbc "A#4" <> "z"%string
  /\ forall s', pianoKeyName s' -> noteNameToAbc s' = noteNameToAbc "A#4" -> s' = "A#4"%string.
Proof.
  apply (piano_key_names_transcribe "A#4").
  exists 70%Z. split; [lia | reflexivity].
Defined.

(** ** KeyEstimator: a melody on one pitch class *)

Section OnePitchClass.

Lemma addAt_zero index counts : addAt index 0 counts = counts.
Proof.
  revert index. induction counts as [|x counts IH]; intros [|index]; cbn [addAt];
    try reflexivity.
  - f_equal. ring.
  - f_equal. apply IH.
Qed.

Lemma addAt_twice index w1 w2 counts :
  addAt index w2 (addAt index w1 counts) = addAt index (w1 + w2) counts.
Proof.
  revert index. induction counts as [|x counts IH]; intros [|index]; cbn [addAt];
    try reflexivity.
  - f_equal. ring.
  - f_equal. apply IH.
Qed.

(** The whole weight of the melody lands in entry [p]. *)
Lemma histogram_of_one_class p notes :
  Forall (countedIn p) notes ->
  forall counts total,
    exists weight,
      0 <= weight
      /\ (notes <> [] -> 0 < weight)
      /\ fold_left countNote notes (counts, total) = (addAt p weight counts, total + weight).
Proof.
  induction 1 as [|note notes (Hne & (name & Hmatch & Hclass) & [Hdur _] & [Hvel _]) Hall IH];
    intros counts total.
  - exists 0. split; [lra|]. split; [congruence|].
    cbn [fold_left]. rewrite addAt_zero, Rplus_0_r. reflexivity.
  - assert (Hw : 0 < duration note * (5 / 10 + IZR (velocity note) / 254)).
    { apply IZR_le in Hvel. apply Rmult_lt_0_compat; [lra|].
      assert (0 <= IZR (velocity note) / 254) by (apply Rmult_le_pos; lra). lra. }
    cbn [fold_left].
    assert (Hstep : countNote (counts, total) note
                    = (addAt p (duration note * (5 / 10 + IZR (velocity note) / 254)) counts,
                       total + duration note * (5 / 10 + IZR (velocity note) / 254))).
    { unfold countNote.
      replace (pitch note =? "")%string with false
        by (symmetry; apply String.eqb_neq; exact Hne).
      rewrite Hmatch, Hclass. reflexivity. }
    rewrite Hstep.
    destruct (IH (addAt p (duration note * (5 / 10 + IZR (velocity note) / 254)) counts)
                 (total + duration note * (5 / 10 + IZR (velocity note) / 254)))
      as (weight & Hpos & _ & Hfold).
    exists (duration note * (5 / 10 + IZR (velocity note) / 254) + weight).
    split; [lra|]. split; [intros _; lra|].
    rewrite Hfold, addAt_twice. f_equal. ring.
Qed.

(** Normalised, the histogram is 1 at [p] and 0 elsewhere. *)
Lemma normalized_one_class p weight :
  (p < 12)%nat ->
  weight <> 0 ->
  map (fun count => count / (0 + weight)) (addAt p weight (repeat 0 12))
  = addAt p 1 (repeat 0 12).
Proof.
  intros Hp Hw.
  do 12 (destruct p as [|p]; [cbn [addAt repeat map]; repeat (f_equal; try (field; lra))|]).
  lia.
Qed.

(** Against that histogram a profile scores its entry at the distance
    from the root to [p]. *)
Lemma correlate_one_class p (g : nat -> R) :
  (p < 12)%nat ->
  fold_left (fun corr j => corr + nth j (addAt p 1 (repeat 0 12)) 0 * g j) (seq 0 12) 0
  = g p.
Proof.
  intros Hp.
  do 12 (destruct p as [|p]; [cbn [seq fold_left addAt repeat nth]; ring|]).
  lia.
Qed.

Lemma score_one_class p (c : nat * bool) :
  (p < 12)%nat ->
  correlationOf (addAt p 1 (repeat 0 12)) c
  = nth (Z.to_nat (Z.rem (Z.of_nat p - Z.of_nat (fst c) + 12) 12))
        (if snd c then normalizedMajorProfile else normalizedMinorProfile) 0.
Proof.
  intros Hp. unfold correlationOf, correlate.
  exact (correlate_one_class p
           (fun j => nth (Z.to_nat (Z.rem (Z.of_nat j - Z.of_nat (fst c) + 12) 12))
                         (if snd c then normalizedMajorProfile else normalizedMinorProfile) 0)
           Hp).
Qed.

End OnePitchClass.

Section ProfilePeaks.

Lemma major_profile_normalized :
  normalizedMajorProfile = map (fun val => val / (4179 / 100)) majorProfile.
Proof.
  unfold normalizedMajorProfile, normalizeProfile.
  cbn [fold_left majorProfile].
  destruct (Req_dec_T _ 0) as [Hzero|_]; [exfalso; lra|].
  apply map_ext. intros val. f_equal. lra.
Qed.

Lemma minor_profile_normalized :
  normalizedMinorProfile = map (fun val => val / (4451 / 100)) minorProfile.
Proof.
  unfold normalizedMinorProfile, normalizeProfile.
  cbn [fold_left minorProfile].
  destruct (Req_dec_T _ 0) as [Hzero|_]; [exfalso; lra|].
  apply map_ext. intros val. f_equal. lra.
Qed.

(** The first entry of the major profile is the largest of all 24. *)
Lemma major_root_highest k :
  (k < 12)%nat ->
  (k <> 0%nat -> nth k normalizedMajorProfile 0 < nth 0 normalizedMajorProfile 0)
  /\ nth k normalizedMinorProfile 0 < nth 0 normalizedMajorProfile 0.
Proof.
  intros Hk. rewrite major_profile_normalized, minor_profile_normalized.
  do 12 (destruct k as [|k];
         [cbn [nth map majorProfile minorProfile]; split; [intros Hne; try lia; lra | lra]|]).
  lia.
Qed.

Lemma distance_to_root (p i : nat) :
  (p < 12)%nat -> (i < 12)%nat ->
  let k := Z.to_nat (Z.rem (Z.of_nat p - Z.of_nat i + 12) 12) in
  (k < 12)%nat /\ (k = 0%nat <-> i = p).
Proof.
  intros Hp Hi k. subst k.
  pose proof (Z.rem_bound_pos (Z.of_nat p - Z.of_nat i + 12) 12 ltac:(lia) ltac:(lia)) as Hb.
  destruct (Z.lt_trichotomy (Z.of_nat p) (Z.of_nat i)) as [Hlt|[Heq|Hgt]].
  - rewrite Z.rem_small by lia. split; [lia|]. lia.
  - replace (Z.of_nat p - Z.of_nat i + 12)%Z with (1 * 12)%Z by lia.
    rewrite Z.rem_mul by lia. split; [simpl; lia|]. split; [lia | reflexivity].
  - replace (Z.of_nat p - Z.of_nat i + 12)%Z
      with (Z.of_nat p - Z.of_nat i + 1 * 12)%Z by lia.
    rewrite Z.rem_add by nia. rewrite Z.rem_small by lia. split; [lia|]. lia.
Qed.

(** Every other candidate scores less than [p] major. *)
Lemma one_class_peak p (c : nat * bool) :
  (p < 12)%nat -> (fst c < 12)%nat -> c <> (p, true) ->
  correlationOf (addAt p 1 (repeat 0 12)) c
  < correlationOf (addAt p 1 (repeat 0 12)) (p, true).
Proof.
  intros Hp Hi Hother. rewrite !score_one_class by exact Hp. cbn [fst snd].
  destruct (distance_to_root p p Hp Hp) as [_ Hself].
  rewrite (proj2 Hself eq_refl).
  destruct (distance_to_root p (fst c) Hp Hi) as [Hk Hzero].
  destruct (major_root_highest _ Hk) as [Hmajor Hminor].
  destruct c as [i [|]]; cbn [fst snd] in *; [|exact Hminor].
  apply Hmajor. intros Hk0. apply Hother. f_equal. apply Hzero. exact Hk0.
Qed.

(** A pass over candidates that all score below [s] ends below [s]. *)
Lemma pass_stays_below npc s l :
  (forall c, In c l -> correlationOf npc c < s) ->
  forall best,
    exceeds s (maxCorrelation best) = true ->
    exceeds s (maxCorrelation (fold_left (compareCandidate npc) l best)) = true.
Proof.
  induction l as [|c l IH]; intros Hbelow best Hbest; cbn [fold_left]; [exact Hbest|].
  apply IH; [intros x Hx; apply Hbelow; right; exact Hx|].
  unfold compareCandidate.
  destruct (exceeds (correlationOf npc c) (maxCorrelation best)); [|exact Hbest].
  cbn [maxCorrelation exceeds]. apply ltb_true. apply Hbelow. left. reflexivity.
Qed.

(** A pass over candidates that score at most the best so far changes
    nothing. *)
Lemma pass_keeps_best npc i major s l :
  (forall c, In c l -> correlationOf npc c <= s) ->
  fold_left (compareCandidate npc) l (mkBest i major (Some s)) = mkBest i major (Some s).
Proof.
  induction l as [|c l IH]; intros Hbelow; cbn [fold_left]; [reflexivity|].
  unfold compareCandidate at 2. cbn [maxCorrelation exceeds].
  rewrite (proj2 (ltb_false s (correlationOf npc c))) by (apply Hbelow; left; reflexivity).
  apply IH. intros x Hx. apply Hbelow. right. exact Hx.
Qed.

Lemma keyCandidates_NoDup : NoDup keyCandidates.
Proof.
  unfold keyCandidates. cbn [flat_map seq app].
  repeat (constructor; [cbn [In]; intuition discriminate|]). constructor.
Qed.

Lemma best_of_one_class p :
  (p < 12)%nat ->
  bestKeyIndex (bestKey (addAt p 1 (repeat 0 12))) = p
  /\ bestKeyIsMajor (bestKey (addAt p 1 (repeat 0 12))) = true.
Proof.
  intros Hp.
  assert (Hin : In (p, true) keyCandidates)
    by (unfold keyCandidates; apply in_flat_map; exists p;
        split; [apply in_seq; lia | left; reflexivity]).
  destruct (in_split _ _ Hin) as (before & after & Hsplit).
  pose proof keyCandidates_NoDup as Hnodup. rewrite Hsplit in Hnodup.
  apply NoDup_remove_2 in Hnodup.
  assert (Hpeak : forall c, In c (before ++ after) ->
                  correlationOf (addAt p 1 (repeat 0 12)) c
                  < correlationOf (addAt p 1 (repeat 0 12)) (p, true)).
  { intros c Hc. apply one_class_peak; [exact Hp | |].
    - assert (Hc' : In c keyCandidates)
        by (rewrite Hsplit; apply in_app_or in Hc; apply in_or_app;
            destruct Hc; [left | right; right]; assumption).
      exact (proj1 (Forall_forall _ _) keyCandidates_bound c Hc').
    - intros ->. contradiction. }
  assert (Hbest : bestKey (addAt p 1 (repeat 0 12))
                  = mkBest p true (Some (correlationOf (addAt p 1 (repeat 0 12)) (p, true)))).
  2: { rewrite Hbest. split; reflexivity. }
  rewrite bestKey_one_pass, Hsplit, fold_left_app. cbn [fold_left].
  pose proof (pass_stays_below (addAt p 1 (repeat 0 12))
                (correlationOf (addAt p 1 (repeat 0 12)) (p, true)) before
                (fun c Hc => Hpeak c (in_or_app _ _ _ (or_introl Hc)))
                (mkBest 0 true None) eq_refl) as Hbelow.
  unfold compareCandidate at 2. rewrite Hbelow. cbn [fst snd].
  rewrite pass_keeps_best; [reflexivity|].
  intros c Hc. apply Rlt_le. apply Hpeak. apply in_or_app. right. exact Hc.
Qed.

End ProfilePeaks.

(** X23: a melody on one pitch class is heard in that class's major key:
    when the list is not empty and every note has a readable pitch of
    pitch class [p], a duration between a millisecond and a day and a
    velocity in 0..127, [detectKey] returns [NOTE_NAMES[p]] followed by
    " Major".  The histogram is then 1 at [p] and 0 elsewhere, and the
    first entry of the major profile is the largest of both profiles by a
    wide margin. *)
Theorem one_pitch_class_is_its_major_key (notes : list Note) (p : nat) :
  (p < 12)%nat ->
  notes <> [] ->
  Forall (countedIn p) notes ->
  detectKey notes = (nameAt p ++ " Major")%string.
Proof.
  intros Hp Hne Hall.
  destruct (histogram_of_one_class p notes Hall (repeat 0 12) 0)
    as (weight & _ & Hpos & Hfold).
  specialize (Hpos Hne).
  destruct (best_of_one_class p Hp) as [Hidx Hmode].
  unfold detectKey.
  destruct notes as [|n notes]; [congruence|].
  change (List.length (n :: notes) =? 0)%nat with false. cbv iota.
  rewrite Hfold.
  destruct (Req_dec_T (0 + weight) 0) as [Hzero|_]; [exfalso; lra|].
  rewrite (normalized_one_class p weight Hp) by lra.
  rewrite Hidx, Hmode. reflexivity.
Qed.

Lemma one_pitch_class_is_its_major_key_witness : detectKey threeAs = "A Major"%string.
Proof.
  apply (one_pitch_class_is_its_major_key threeAs 9); [lia | discriminate |].
  repeat (apply Forall_cons;
          [split; [discriminate|];
           split; [exists "A"%string; split; reflexivity|];
           cbn [duration velocity]; split; [lra | lia]|]).
  apply Forall_nil.
Defined.

(** * The claims that turn on rounding *)

(** ** PitchNamer: the 50-cent gate *)

Section GateInBinary64.

(** The frequency sits a quarter tone below A4: its pitch number is
    computed as 68.5, which [Math.round] takes to 69, and the deviation
    from key 69 as -50.00000000000041 cents. *)
Lemma quarter_tone_trace :
  Double.round (@Double.midiNumberOf Double.tracedMath Double.quarterToneBelowA4) = Some 69%Z
  /\ PrimFloat.ltb (Double.ofZ 50)
       (PrimFloat.abs (@Double.centsDeviationOf Double.tracedMath
                         Double.quarterToneBelowA4 (Double.ofZ 69))) = true.
Proof. vm_compute. split; reflexivity. Qed.

(** The outcome does not hang on the last digits of the logarithm: an
    engine whose [Math.log2] is up to eight units in the last place away
    from the correctly rounded value rejects the frequency all the same. *)
Lemma gate_rejects_whatever_the_last_digits :
  forallb (fun l =>
             (@Double.frequencyToNoteName (Double.mathAnswering l)
                Double.quarterToneBelowA4 =? "")%string
             && match Double.round (@Double.midiNumberOf (Double.mathAnswering l)
                                      Double.quarterToneBelowA4) with
                | Some r => (r =? 69)%Z
                | None => false
                end)
          (Double.around Double.tracedLogarithm 8) = true
  /\ List.length (Double.around Double.tracedLogarithm 8) = 17%nat.
Proof. vm_compute. split; reflexivity. Qed.

End GateInBinary64.





(** ** NoteDetector: order and overlap *)

(** C10, as the claim states it, fails: on a buffer of 0.4 s, with a
    detector that hears A4 from 0.03 s and A5 from 0.28 s on, the code
    returns A4 at 0.03 s lasting 0.26 s and A5 at 0.29 s; the duration is
    the rounded difference 0.29 - 0.03, and 0.03 + 0.26 exceeds 0.29. *)
Lemma detectNotes_overlap_in_binary64 :
  @Double.detectNotes Double.tracedMath Double.twoToneDetector
     Double.halfAmplitude (Double.ofZ 44100)
  = Ok Double.twoToneNotes
  /\ exists a b,
       nth_error Double.twoToneNotes 0 = Some a
       /\ nth_error Double.twoToneNotes 1 = Some b
       /\ Double.startsBeforeEndOf a b.
Proof.
  split; [vm_compute; reflexivity|].
  eexists _, _. split; [reflexivity|]. split; [reflexivity|].
  split; vm_compute; reflexivity.
Qed.

Section TwoTones.

Lemma name_880 : frequencyToNoteName 880 = "A5"%string.
Proof.
  rewrite (name_of_rounded 880 81); [reflexivity | lra | | lia].
  replace (880 / 440) with (2 * (440 / 440)) by field.
  rewrite log2_double by lra.
  replace (12 * (1 + JS.log2 (440 / 440)) + 69)
    with (12 * JS.log2 (440 / 440) + 69 + 12) by ring.
  replace (440 / 440) with 1 by field.
  unfold JS.log2. rewrite ln_1. unfold Rdiv. rewrite Rmult_0_l, Rmult_0_r, Rplus_0_l.
  replace (69 + 12) with (IZR 81) by (simpl; lra). apply round_IZR.
Qed.

Lemma median_single x : median [x] = x.
Proof. reflexivity. Qed.

Lemma median_pair x : median [x; x] = x.
Proof.
  assert (Hbetween : x <= median [x; x] <= x).
  { apply median_within; [discriminate|]. repeat constructor; lra. }
  lra.
Qed.

Lemma clear_full : JS.leb clarityThreshold 1 = true.
Proof. apply leb_true. unfold clarityThreshold. lra. Qed.

(** What a frame of a buffer of constant amplitude hands to the state
    machine, whatever the detector answers. *)
Lemma constant_frame_reading `{Platform} (a sr : R) (n : nat) st detector i
    freq clarity detector' :
  a <> 0 ->
  (i + frameSize <= n)%nat ->
  findPitch detector (JS.slice (repeat a n) i (i + frameSize)) sr
  = Ok (freq, clarity, detector') ->
  0 < freq ->
  detectFrame (repeat a n) sr (Rabs a) (st, detector) i
  = Ok (feed st (mkReading (INR i / sr)
                   (frequencyToNoteName
                      (median (JS.pushWindow pitchFilterWindowSize freq
                                 (recentFrequencies st))))
                   clarity (frameVelocity (Rabs a) (Rabs a))
                   (JS.pushWindow pitchFilterWindowSize freq (recentFrequencies st))),
        detector').
Proof.
  intros Ha Hfit Hfind Hfreq. unfold detectFrame.
  assert (Hframe : calculateRMS (JS.slice (repeat a n) i (i + frameSize)) = Rabs a).
  { apply rms_constant; [|apply constant_slice].
    intros Hnil. pose proof (constant_slice_length a n i frameSize Hfit) as Hlen.
    rewrite Hnil in Hlen. unfold frameSize in Hlen. simpl in Hlen. lia. }
  rewrite Hframe.
  pose proof (Rabs_pos_lt a Ha) as Hloud.
  destruct (Rlt_dec (Rabs a * (8 / 100)) (Rabs a)) as [_|Hquiet]; [|exfalso; lra].
  rewrite Hfind. cbn [JS.bind].
  destruct (Rlt_dec 0 freq) as [_|Hneg]; [|contradiction].
  reflexivity.
Qed.

End TwoTones.

Section TwoToneRun.

Ltac machine_step :=
  cbv [feed advance readTime readName readClarity readVelocity readRecent
       lastPitchName consecutiveFramesCount potentialNoteStart currentNote emitted
       recentFrequencies];
  rewrite ?clear_full;
  cbv [negb andb String.eqb Ascii.eqb Bool.eqb Nat.eqb Nat.leb minConsecutiveFrames
       lastPitchName consecutiveFramesCount potentialNoteStart currentNote emitted
       recentFrequencies openPitch openStart openVelocity closeNote app];
  rewrite ?Z.max_id.

Ltac frame_step :=
  erewrite (constant_frame_reading 1 44100 (15 * 441));
    [| lra | unfold frameSize; lia | reflexivity | cbn; lra];
  cbn [JS.bind];
  cbn [forFloat32Array findPitch twoTonePlatform Nat.leb Nat.ltb recentFrequencies detectInit
       JS.pushWindow pitchFilterWindowSize app List.length tl].

Lemma two_tone_loop :
  JS.forEachM (@detectFrame twoTonePlatform (repeat 1 (15 * 441)) 44100 (Rabs 1))
              (map (fun k => (k * 441)%nat) (seq 0 11))
              (detectInit, @forFloat32Array twoTonePlatform frameSize)
  = Ok (mkDetect
          [mkNote "A4" (INR (0 * 441) / 44100)
                  (INR (7 * 441) / 44100 - INR (0 * 441) / 44100)
                  (frameVelocity (Rabs 1) (Rabs 1))]
          (Some (mkOpen "A5" (INR (7 * 441) / 44100) (frameVelocity (Rabs 1) (Rabs 1))))
          "A5" 4 (Some (INR (7 * 441) / 44100)) [880; 880; 880],
        11%nat).
Proof.
  cbn [map seq JS.forEachM].
  frame_step. rewrite median_single, name_440. machine_step.
  frame_step. rewrite median_pair, name_440. machine_step.
  frame_step. rewrite median_sorted_three, name_440 by lra. machine_step.
  frame_step. rewrite median_sorted_three, name_440 by lra. machine_step.
  frame_step. rewrite median_sorted_three, name_440 by lra. machine_step.
  frame_step. rewrite median_sorted_three, name_440 by lra. machine_step.
  frame_step. rewrite median_sorted_three, name_440 by lra. machine_step.
  frame_step. rewrite median_sorted_three, name_880 by lra. machine_step.
  destruct (Rle_dec detectMinDuration (INR (7 * 441) / 44100 - INR (0 * 441) / 44100))
    as [_|Hshort].
  2: { exfalso. apply Hshort. unfold detectMinDuration.
       rewrite !INR_IZR_INZ. simpl. lra. }
  frame_step. rewrite median_sorted_three, name_880 by lra. machine_step.
  frame_step. rewrite median_sorted_three, name_880 by lra. machine_step.
  frame_step. rewrite median_sorted_three, name_880 by lra. machine_step.
  reflexivity.
Qed.

End TwoToneRun.

(** The run of [detectNotes] with a detector that changes pitch. *)
Lemma two_tone_run :
  @detectNotes twoTonePlatform (repeat 1 (15 * 441)) 44100
  = Ok [mkNote "A4" (INR (0 * 441) / 44100)
               (INR (7 * 441) / 44100 - INR (0 * 441) / 44100)
               (frameVelocity (Rabs 1) (Rabs 1));
        mkNote "A5" (INR (7 * 441) / 44100)
               (INR (15 * 441) / 44100 - INR (7 * 441) / 44100)
               (frameVelocity (Rabs 1) (Rabs 1))].
Proof.
  unfold detectNotes. rewrite repeat_length.
  rewrite (rms_constant 1 (repeat 1 (15 * 441)));
    [| discriminate | apply Forall_forall; intros x Hx; apply repeat_spec in Hx; exact Hx].
  replace (JS.frameStarts (15 * 441) frameSize hopSize)
    with (map (fun k => (k * 441)%nat) (seq 0 11)) by (vm_compute; reflexivity).
  rewrite two_tone_loop. cbn [JS.bind].
  unfold closeNote. cbn [currentNote consecutiveFramesCount emitted openStart openPitch
                         openVelocity Nat.leb minConsecutiveFrames app].
  destruct (Rle_dec detectMinDuration (INR (15 * 441) / 44100 - INR (7 * 441) / 44100))
    as [_|Hshort]; [reflexivity|].
  exfalso. apply Hshort. unfold detectMinDuration. rewrite !INR_IZR_INZ. simpl. lra.
Qed.

(** C10 (amended): the notes [detectNotes] returns are chronologically
    ordered and overlap by no more than rounding error: each note starts
    later than the note emitted before it, and no earlier than that note's
    onset plus duration, up to a relative error of 10^-12 (the duration
    is the rounded difference of two frame times).  This holds for every
    buffer, every sample rate and every pitch detector, stateful or not;
    and [detectNotes] does return a list whenever the detector does not
    throw. *)
Theorem detectNotes_ordered_up_to_rounding `{Platform}
    (monoBufferData : list R) (sampleRate : R) :
  (forall notes,
      detectNotes monoBufferData sampleRate = Ok notes ->
      forall i a b,
        nth_error notes i = Some a -> nth_error notes (S i) = Some b ->
        startTime a < startTime b
        /\ startTime a + duration a <= startTime b * (1 + 1 / 10 ^ 12))
  /\ ((forall detector frame, exists out, findPitch detector frame sampleRate = Ok out) ->
      exists notes, detectNotes monoBufferData sampleRate = Ok notes).
Proof.
  split.
  - intros notes Hrun i a b Ha Hb.
    destruct (Rlt_dec 0 sampleRate) as [Hsr|Hsr].
    + destruct (detectNotes_inv _ _ _ Hsr Hrun) as (Hchain & _ & Hfloor).
      pose proof (Sorted_adjacent precedes notes Hchain i a b Ha Hb) as Hab.
      pose proof (proj1 (Forall_forall _ _) Hfloor a (nth_error_In _ _ Ha)) as Hlong.
      pose proof (proj1 (Forall_forall _ _) (detectNotes_shape _ _ _ Hrun) a
                    (nth_error_In _ _ Ha)) as (_ & _ & Hstart).
      unfold precedes, noteEnd in Hab. unfold detectMinDuration in Hlong. cbv beta in Hlong.
      assert (Htiny : 0 < 1 / 10 ^ 12) by (apply Rdiv_lt_0_compat; [lra | apply pow_lt; lra]).
      split; [lra|]. nra.
    + assert (Hnone : notes = [])
        by (apply (detectNotes_idle monoBufferData sampleRate); [lra | exact Hrun]).
      subst notes. destruct i; discriminate.
  - apply detectNotes_total.
Qed.

Lemma detectNotes_ordered_up_to_rounding_witness :
  exists a b,
    @detectNotes twoTonePlatform (repeat 1 (15 * 441)) 44100 = Ok [a; b]
    /\ pitch a = "A4"%string /\ pitch b = "A5"%string
    /\ startTime a < startTime b
    /\ startTime a + duration a <= startTime b * (1 + 1 / 10 ^ 12).
Proof.
  eexists _, _. split; [exact two_tone_run|].
  split; [reflexivity|]. split; [reflexivity|].
  exact (proj1 (@detectNotes_ordered_up_to_rounding twoTonePlatform
                  (repeat 1 (15 * 441)) 44100)
               _ two_tone_run 0%nat _ _ eq_refl eq_refl).
Defined.
